(** * Sitemap Indexer Pro: worker subsystem, shallow embedding

    The development follows the TypeScript sources:
    - the queue workers ([sitemapScannerWorker], [googleSubmitterWorker],
      [indexNowSubmitterWorker]) and their helpers,
    - the browser services ([SitemapStreamer], [IndexingService], in the
      two versions the repository carries),
    - the WebSocket fan-out ([broadcastToProject], [subscribeToRedis]).

    Database tables are lists of rows or finite maps keyed by their unique
    index; remote servers are response functions indexed by the number of
    requests already sent, so that every request a function issues is
    counted in the state it returns. *)

From Stdlib Require Import ZArith Lia Ascii String.
From Stdlib Require Floats.SpecFloat.
From stdpp Require Import gmap strings list fin_maps pretty.

#[local] Set Warnings "-clear-no-such-hyp".

#[local] Open Scope string_scope.
#[local] Open Scope list_scope.
#[local] Open Scope Z_scope.

(** ** Strings as the code uses them

    Strings are sequences of characters with a code below 256 (the first
    block of Unicode, Latin-1); a text with other characters is outside the
    model.  Letter case and white space are those of JavaScript on these
    characters. *)

Module Str.

(** [String.prototype.toLowerCase] on one character: the letters A to Z and
    the capital letters 192 to 222 other than the sign 215. *)
Definition lowerChar (c : ascii) : ascii :=
  let n := nat_of_ascii c in
  if (((65 <=? n)%nat && (n <=? 90)%nat)
      || ((192 <=? n)%nat && (n <=? 222)%nat && negb (n =? 215)%nat))%bool
  then ascii_of_nat (n + 32) else c.

Fixpoint toLowerCase (s : string) : string :=
  match s with
  | EmptyString => EmptyString
  | String c r => String (lowerChar c) (toLowerCase r)
  end.

(** [s.includes(sub)] *)
Fixpoint includes (s sub : string) : bool :=
  String.prefix sub s ||
  match s with
  | EmptyString => false
  | String _ r => includes r sub
  end.

(** The white space and line terminators [String.prototype.trim] strips:
    tab, line feed, vertical tab, form feed, carriage return, space and the
    no-break space 160. *)
Definition is_space (c : ascii) : bool :=
  let n := nat_of_ascii c in
  ((n =? 32)%nat || ((9 <=? n)%nat && (n <=? 13)%nat) || (n =? 160)%nat)%bool.

Fixpoint trim_start (s : string) : string :=
  match s with
  | EmptyString => EmptyString
  | String c r => if is_space c then trim_start r else s
  end.

(** Drops the trailing white space: a character is kept when something
    that is not white space follows it or it is not white space itself. *)
Fixpoint trim_end (s : string) : string :=
  match s with
  | EmptyString => EmptyString
  | String c r =>
      match trim_end r with
      | EmptyString => if is_space c then EmptyString else String c EmptyString
      | r' => String c r'
      end
  end.

Definition trim (s : string) : string := trim_end (trim_start s).

(** JavaScript truthiness of a string. *)
Definition truthy (s : string) : bool :=
  match s with EmptyString => false | _ => true end.

Fixpoint drop (n : nat) (s : string) : string :=
  match n, s with
  | O, _ => s
  | S k, EmptyString => EmptyString
  | S k, String _ r => drop k r
  end.

(** [s.replace(pat, by)] with a string pattern: first occurrence only. *)
Fixpoint replace (s pat by_ : string) : string :=
  if String.prefix pat s then String.append by_ (drop (String.length pat) s)
  else match s with
       | EmptyString => EmptyString
       | String c r => String c (replace r pat by_)
       end.

End Str.

(** [xs.slice(0, e)] on an array, with JavaScript's treatment of a
    negative end (counted from the end of the array). *)
Definition slice0 {A} (xs : list A) (e : Z) : list A :=
  if e <? 0 then take (Z.to_nat (Z.max (Z.of_nat (length xs) + e) 0)) xs
  else take (Z.to_nat e) xs.

(** ** Schema (packages/db/schema) *)

Inductive indexing_status :=
| DISCOVERED | QUEUED | SUBMITTED | INDEXED | NOT_INDEXED | CRAWL_ERROR
| BLOCKED_ROBOTS | BLOCKED_NOINDEX | REDIRECT | ERROR_4XX | ERROR_5XX
| DUPLICATE.

Inductive job_status := PENDING | PROCESSING | COMPLETED | FAILED | CANCELLED.

Inductive search_engine := GOOGLE | BING | YANDEX | INDEXNOW.

#[global] Instance indexing_status_eq_dec : EqDecision indexing_status.
Proof. solve_decision. Defined.
#[global] Instance job_status_eq_dec : EqDecision job_status.
Proof. solve_decision. Defined.
#[global] Instance search_engine_eq_dec : EqDecision search_engine.
Proof. solve_decision. Defined.

Definition engine_code (e : search_engine) : nat :=
  match e with GOOGLE => 0 | BING => 1 | YANDEX => 2 | INDEXNOW => 3 end.

Definition engine_of_code (n : nat) : search_engine :=
  match n with
  | O => GOOGLE | S O => BING | S (S O) => YANDEX | _ => INDEXNOW
  end.

#[global] Instance search_engine_countable : Countable search_engine.
Proof.
  apply (inj_countable' engine_code engine_of_code).
  by intros [].
Defined.

(** A row of [urls].  Timestamps are instants on an integer clock; a
    nullable column is an [option]. *)
Record url_row := {
  u_id : string;
  u_projectId : string;
  u_sitemapId : option string;
  u_loc : string;
  u_locHash : string;
  u_lastmod : option string;
  u_changefreq : option string;
  u_priority : option string;
  u_googleStatus : option indexing_status;
  u_googleSubmittedAt : option Z;
  u_bingStatus : option indexing_status;
  u_bingSubmittedAt : option Z;
  u_firstSeenAt : Z
}.

(** A row of [submissions], as the workers write it. *)
Record submission_row := {
  s_urlId : string;
  s_projectId : string;
  s_engine : search_engine;
  s_status : job_status;
  s_responseCode : option Z;
  s_errorMessage : option string
}.

(** [quota_usage]: the unique index (projectId, engine, date) is the key,
    [used] the value. *)
Abbreviation quota_key := (string * search_engine * Z)%type.
Abbreviation quota_table := (gmap quota_key Z).

Module Quota.

(** [INSERT ... VALUES (used = delta) ON CONFLICT (projectId, engine, date)
    DO UPDATE SET used = quota_usage.used + delta], one atomic statement. *)
Definition upsert (k : quota_key) (delta : Z) (q : quota_table) : quota_table :=
  match q !! k with
  | None => <[k := delta]> q
  | Some used => <[k := used + delta]> q
  end.

(** [quota?.used ?? 0] *)
Definition used (q : quota_table) (k : quota_key) : Z := default 0 (q !! k).

(** Statements of several jobs, executed one after the other in some
    order. *)
Definition upserts (k : quota_key) (deltas : list Z) (q : quota_table) : quota_table :=
  foldl (fun acc d => upsert k d acc) q deltas.

Definition sumZ (l : list Z) : Z := foldr Z.add 0 l.

End Quota.

(** ** google-submitter worker (apps/worker/src/jobs)

    The handler is followed statement by statement; its log lines, metrics,
    progress reports and the pause between two URLs change no table and are
    left out. *)

Module GoogleWorker.

Definition DAILY_QUOTA : Z := 200.
Definition MAX_RETRIES : nat := 3.

(** Outcome of one [indexing.urlNotifications.publish] call: the promise
    resolves with the response status, or rejects with an error that
    carries [response?.status ?? code] and a message. *)
Inductive publish_reply :=
| Resolved (status : Z)
| Rejected (code : option Z) (message : string).

(** The Indexing API seen from one job: the reply to the request number
    [n] (counted from 0) for a given URL. *)
Definition google_api := nat → string → publish_reply.

Record SubmissionResult := {
  urlId : string;
  success : bool;
  responseCode : option Z;
  error : option string
}.

Record GoogleSubmitterPayload := {
  projectId : string;
  jobId : string;
  urlIds : list string;
  action : string
}.

(** The tables the job touches. *)
Record db := {
  urls_t : list url_row;
  submissions_t : list submission_row;
  quota_t : quota_table
}.

(** What the handler does for BullMQ: it returns its counts, or throws. *)
Inductive job_outcome :=
| Returned (successCount failCount : nat)
| Threw (message : string).

(** [pRetry(fn, {retries})]: the call is repeated after a rejection, at most
    [retries] more times.  [sent] counts the requests issued so far. *)
Fixpoint pRetry (retries : nat) (api : google_api) (loc : string) (sent : nat)
  : publish_reply * nat :=
  match api sent loc with
  | Resolved s => (Resolved s, S sent)
  | Rejected c m =>
      match retries with
      | O => (Rejected c m, S sent)
      | S k => pRetry k api loc (S sent)
      end
  end.

Definition submitSingleUrl (api : google_api) (urlRecord : string * string) (sent : nat)
  : SubmissionResult * nat :=
  match pRetry MAX_RETRIES api urlRecord.2 sent with
  | (Resolved s, n) =>
      ({| urlId := urlRecord.1; success := true; responseCode := Some s; error := None |}, n)
  | (Rejected c m, n) =>
      ({| urlId := urlRecord.1; success := false; responseCode := c; error := Some m |}, n)
  end.

(** [SELECT id, loc FROM urls WHERE id IN (ids)] *)
Definition selectByIds (ids : list string) (t : list url_row) : list (string * string) :=
  map (fun r => (u_id r, u_loc r)) (filter (fun r => u_id r ∈ ids) t).

(** The [for (const urlRecord of urlRecords)] loop: every record is
    submitted and its result pushed; the loop has no exit of its own. *)
Fixpoint submitAll (api : google_api) (urlRecords : list (string * string)) (sent : nat)
  : list SubmissionResult * nat :=
  match urlRecords with
  | [] => ([], sent)
  | r :: rest =>
      let '(res, n) := submitSingleUrl api r sent in
      let '(more, n') := submitAll api rest n in
      (res :: more, n')
  end.

Definition successCountOf (results : list SubmissionResult) : nat :=
  length (filter (fun r => success r = true) results).

Definition failCountOf (results : list SubmissionResult) : nat :=
  length (filter (fun r => success r = false) results).

Definition toSubmission (pid : string) (r : SubmissionResult) : submission_row :=
  {| s_urlId := urlId r; s_projectId := pid; s_engine := GOOGLE;
     s_status := if success r then COMPLETED else FAILED;
     s_responseCode := responseCode r; s_errorMessage := error r |}.

Definition markSubmitted (now : Z) (ids : list string) (r : url_row) : url_row :=
  if decide (u_id r ∈ ids) then
    {| u_id := u_id r; u_projectId := u_projectId r; u_sitemapId := u_sitemapId r;
       u_loc := u_loc r; u_locHash := u_locHash r; u_lastmod := u_lastmod r;
       u_changefreq := u_changefreq r; u_priority := u_priority r;
       u_googleStatus := Some SUBMITTED; u_googleSubmittedAt := Some now;
       u_bingStatus := u_bingStatus r; u_bingSubmittedAt := u_bingSubmittedAt r;
       u_firstSeenAt := u_firstSeenAt r |}
  else r.

(** First part of the handler, up to the truncation: the quota row of the
    day is read and either the job throws or the ids to submit are fixed. *)
Definition checkQuota (d : db) (p : GoogleSubmitterPayload) (today : Z)
  : string + list string :=
  let currentUsage := Quota.used (quota_t d) (projectId p, GOOGLE, today) in
  let remainingQuota := DAILY_QUOTA - currentUsage in
  if remainingQuota <=? 0 then inl "Daily Google Indexing API quota exhausted"
  else inr (slice0 (urlIds p) remainingQuota).

(** Second part: submission of the chosen ids and the writes that follow.
    [db.insert(submissions).values(submissionRecords)] is the first write;
    for an empty list of records [values] throws, so that a job for which no
    row of [urls] was selected throws there and writes nothing. *)
Definition submitAndRecord (api : google_api) (today now : Z)
    (p : GoogleSubmitterPayload) (urlsToSubmit : list string) (d : db)
  : job_outcome * db * nat :=
  let urlRecords := selectByIds urlsToSubmit (urls_t d) in
  let '(results, sent) := submitAll api urlRecords 0%nat in
  match results with
  | [] => (Threw "values() must be called with at least one value", d, sent)
  | _ :: _ =>
      let successCount := successCountOf results in
      let failCount := failCountOf results in
      let successfulIds := map urlId (filter (fun r => success r = true) results) in
      let d' :=
        {| urls_t :=
             if decide (successfulIds = []) then urls_t d
             else map (markSubmitted now successfulIds) (urls_t d);
           submissions_t := submissions_t d ++ map (toSubmission (projectId p)) results;
           quota_t :=
             Quota.upsert (projectId p, GOOGLE, today) (Z.of_nat successCount) (quota_t d) |} in
      (Returned successCount failCount, d', sent)
  end.

(** The handler run without interruption.  [credential] tells whether a
    GOOGLE credential row exists for the project. *)
Definition googleSubmitterWorker (api : google_api) (credential : bool) (today now : Z)
    (p : GoogleSubmitterPayload) (d : db) : job_outcome * db * nat :=
  if negb credential then (Threw "Google credentials not configured for this project", d, 0%nat)
  else match checkQuota d p today with
       | inl msg => (Threw msg, d, 0%nat)
       | inr urlsToSubmit => submitAndRecord api today now p urlsToSubmit d
       end.

(** Jobs of one day handled one after the other, each with its own view of
    the API. *)
Definition runInTurn (today now : Z) (jobs : list (google_api * GoogleSubmitterPayload))
    (d : db) : db :=
  foldl (fun acc job => (googleSubmitterWorker job.1 true today now job.2 acc).1.2) d jobs.

(** Two handlers on the same worker ([concurrency: 5]) whose awaits
    interleave so that both read the quota row before either writes it. *)
Definition twoJobsInterleaved (api1 api2 : google_api) (today now : Z)
    (p1 p2 : GoogleSubmitterPayload) (d : db)
  : option (job_outcome * job_outcome * db * nat) :=
  match checkQuota d p1 today, checkQuota d p2 today with
  | inr ids1, inr ids2 =>
      let '(o1, d1, n1) := submitAndRecord api1 today now p1 ids1 d in
      let '(o2, d2, n2) := submitAndRecord api2 today now p2 ids2 d1 in
      Some (o1, o2, d2, (n1 + n2)%nat)
  | _, _ => None
  end.

End GoogleWorker.

(** ** Browser indexing service, version with retry logic
       (services/indexingService.ts) and its caller in App.tsx *)

Module IndexingService.

(** What [fetchWithSmartProxy] hands back: a response with its status and
    the message taken from the body ([json.error?.message || res.text]), or
    an exception other than an abort.  One call of [fetchWithSmartProxy]
    counts as one request, whatever route the proxy layer takes. *)
Inductive proxy_reply :=
| Reply (status : Z) (errorMsg : string)
| NetworkFailure.

Definition res_ok (status : Z) : bool := (200 <=? status) && (status <=? 299).

(** The messages a URL can end with; each stands for the string the code
    builds. *)
Inductive failure_msg :=
| QuotaExceeded                       (* QUOTA EXCEEDED: Google says ... *)
| RateLimitMaxRetries                 (* Rate Limit (Max Retries) *)
| PermissionDenied                    (* PERMISSION DENIED: Service Account not Owner in GSC. *)
| Forbidden (detail : string)         (* 403 Forbidden: <first 50 chars> *)
| HttpError (status : Z) (detail : string)  (* HTTP <status>: <first 30 chars> *)
| NetworkError                        (* Network Error *)
| MaxRetriesExceeded.                 (* Max Retries Exceeded *)

#[global] Instance failure_msg_eq_dec : EqDecision failure_msg.
Proof. solve_decision. Defined.

Record url_result := {
  r_success : bool;
  r_fatal : bool;
  r_msg : option failure_msg
}.

(** Requests sent so far, oldest first, and the time spent in timers. *)
Record net := {
  requests : list string;
  slept : Z
}.

Definition google_api := nat → string → proxy_reply.

Definition send (url : string) (s : net) : net :=
  {| requests := requests s ++ [url]; slept := slept s |}.

Definition sleep (ms : Z) (s : net) : net :=
  {| requests := requests s; slept := slept s + ms |}.

Fixpoint substring0 (n : nat) (s : string) : string :=
  match n, s with
  | O, _ => EmptyString
  | S k, EmptyString => EmptyString
  | S k, String c r => String c (substring0 k r)
  end.

(** The replies after which the code gives up on the whole call. *)
Definition isFatal (r : proxy_reply) : bool :=
  match r with
  | NetworkFailure => false
  | Reply status errorMsg =>
      negb (res_ok status) &&
      (if status =? 429 then Str.includes (Str.toLowerCase errorMsg) "quota"
       else if status =? 403 then
              Str.includes errorMsg "permission" || Str.includes errorMsg "ownership"
       else false)
  end.

(** The body of [chunk.map(async (url) => ...)]: the [while (retries > 0)]
    loop, by recursion on [retries]. *)
Fixpoint attemptUrl (retries : nat) (backoff : Z) (api : google_api) (url : string)
    (s : net) : url_result * net :=
  match retries with
  | O => ({| r_success := false; r_fatal := false; r_msg := Some MaxRetriesExceeded |}, s)
  | S k =>
      let reply := api (length (requests s)) url in
      let s1 := send url s in
      match reply with
      | NetworkFailure =>
          if (1 <? S k)%nat then attemptUrl k backoff api url (sleep backoff s1)
          else ({| r_success := false; r_fatal := false; r_msg := Some NetworkError |}, s1)
      | Reply status errorMsg =>
          if res_ok status then
            ({| r_success := true; r_fatal := false; r_msg := None |}, s1)
          else if status =? 429 then
            if Str.includes (Str.toLowerCase errorMsg) "quota" then
              ({| r_success := false; r_fatal := true; r_msg := Some QuotaExceeded |}, s1)
            else if (1 <? S k)%nat then
              attemptUrl k (backoff * 3 / 2) api url (sleep backoff s1)
            else
              ({| r_success := false; r_fatal := false; r_msg := Some RateLimitMaxRetries |}, s1)
          else if status =? 403 then
            if Str.includes errorMsg "permission" || Str.includes errorMsg "ownership" then
              ({| r_success := false; r_fatal := true; r_msg := Some PermissionDenied |}, s1)
            else
              ({| r_success := false; r_fatal := false;
                  r_msg := Some (Forbidden (substring0 50 errorMsg)) |}, s1)
          else
            ({| r_success := false; r_fatal := false;
                r_msg := Some (HttpError status (substring0 30 errorMsg)) |}, s1)
      end
  end.

Record google_summary := {
  submitted : nat;
  errors : nat;
  errorDetails : list failure_msg;
  abort : bool
}.

Definition pushDetail (m : option failure_msg) (details : list failure_msg) : list failure_msg :=
  match m with
  | Some x => if decide (x ∈ details) then details else details ++ [x]
  | None => details
  end.

(** [submitGoogleUrls], [CHUNK_SIZE = 1]: one URL per round, 1.5 s between
    rounds, and a return as soon as a round had a fatal result. *)
Fixpoint submitGoogleUrls_from (api : google_api) (urls : list string)
    (acc : google_summary) (s : net) : google_summary * net :=
  match urls with
  | [] => (acc, s)
  | url :: rest =>
      let '(r, s1) := attemptUrl 4 2000 api url s in
      let acc1 :=
        if r_success r then
          {| submitted := S (submitted acc); errors := errors acc;
             errorDetails := errorDetails acc; abort := false |}
        else
          {| submitted := submitted acc; errors := S (errors acc);
             errorDetails := pushDetail (r_msg r) (errorDetails acc); abort := false |} in
      if negb (r_success r) && r_fatal r then
        ({| submitted := submitted acc1; errors := errors acc1;
            errorDetails := errorDetails acc1; abort := true |}, s1)
      else
        submitGoogleUrls_from api rest acc1
          (match rest with [] => s1 | _ => sleep 1500 s1 end)
  end.

Definition submitGoogleUrls (api : google_api) (urls : list string) (s : net)
  : google_summary * net :=
  submitGoogleUrls_from api urls
    {| submitted := 0; errors := 0; errorDetails := []; abort := false |} s.

(** Phase B of [handleStartScan]: batches of 10, left at the first batch
    that asks to abort.  The ids of the log entries written are kept. *)
Record phase_b := {
  gSubmitted : nat;
  gErrors : nat;
  logIds : list string
}.

Fixpoint chunks {A} (fuel : nat) (size : nat) (xs : list A) : list (list A) :=
  match fuel, xs with
  | _, [] => []
  | O, _ => []
  | S f, _ => take size xs :: chunks f size (drop size xs)
  end.

Fixpoint googleBatches (api : google_api) (batches : list (list string))
    (acc : phase_b) (s : net) : phase_b * net :=
  match batches with
  | [] => (acc, s)
  | batch :: rest =>
      let '(res, s1) := submitGoogleUrls api batch s in
      let acc1 := {| gSubmitted := (gSubmitted acc + submitted res)%nat;
                     gErrors := (gErrors acc + errors res)%nat;
                     logIds := logIds acc |} in
      if abort res then
        ({| gSubmitted := gSubmitted acc1; gErrors := gErrors acc1;
            logIds := logIds acc1 ++ ["g_abort"] |}, s1)
      else googleBatches api rest acc1 s1
  end.

(** The Google phase and the entry that closes the job when no abort signal
    was raised by the user. *)
Definition googlePhase (api : google_api) (allLocs : list string) (s : net)
  : phase_b * net :=
  let '(b, s1) :=
    googleBatches api (chunks (length allLocs) 10 allLocs)
      {| gSubmitted := 0; gErrors := 0; logIds := ["goog_start"] |} s in
  ({| gSubmitted := gSubmitted b; gErrors := gErrors b;
      logIds := logIds b ++ ["done"] |}, s1).

(** No request of the log was answered by a fatal reply. *)
Definition clean (api : google_api) (reqs : list string) : Prop :=
  ∀ n url, reqs !! n = Some url → isFatal (api n url) = false.

(** The last request of the log, and only that one, was answered by a fatal
    reply. *)
Definition fatal_last (api : google_api) (reqs : list string) : Prop :=
  ∃ (pre : list string) (u : string),
    reqs = (pre ++ [u])%list ∧ clean api pre ∧ isFatal (api (length pre) u) = true.

End IndexingService.

(** ** indexnow-submitter worker (apps/worker/src/jobs) *)

Module IndexNowWorker.

Definition INDEXNOW_ENDPOINTS : list (string * string) :=
  [("bing", "https://www.bing.com/indexnow");
   ("yandex", "https://yandex.com/indexnow");
   ("seznam", "https://search.seznam.cz/indexnow");
   ("naver", "https://searchadvisor.naver.com/indexnow")].

Definition DAILY_QUOTA : Z := 10000.
Definition MAX_RETRIES : nat := 3.

Inductive fetch_reply :=
| Response (status : Z) (text : string)
| FetchError (message : string).

Definition res_ok (status : Z) : bool := (200 <=? status) && (status <=? 299).

(** An endpoint seen from one job: the reply to its attempt number [n] for
    a posted [urlList]. *)
Definition indexnow_api := string → nat → list string → fetch_reply.

Inductive post_error :=
| HttpStatus (status : Z) (text : string)      (* HTTP <status>: <text> *)
| Network (message : string).

Record engine_result := {
  success : bool;
  error : option post_error
}.

(** [pRetry] around the POST; [posted] keeps the [urlList] of every body
    sent to the endpoint, oldest first. *)
Fixpoint pRetryPost (retries : nat) (api : indexnow_api) (endpoint : string)
    (urlList : list string) (posted : list (list string))
  : engine_result * list (list string) :=
  let reply := api endpoint (length posted) urlList in
  let posted1 := posted ++ [urlList] in
  let failed e :=
    match retries with
    | O => ({| success := false; error := Some e |}, posted1)
    | S k => pRetryPost k api endpoint urlList posted1
    end in
  match reply with
  | Response status text =>
      if res_ok status then ({| success := true; error := None |}, posted1)
      else failed (HttpStatus status text)
  | FetchError m => failed (Network m)
  end.

Definition submitToEngine (api : indexnow_api) (endpoint : string) (urlList : list string)
  : engine_result * list (list string) :=
  pRetryPost MAX_RETRIES api endpoint urlList [].

Record IndexNowPayload := {
  projectId : string;
  jobId : string;
  urlIds : list string
}.

Record db := {
  urls_t : list url_row;
  submissions_t : list submission_row;
  quota_t : quota_table
}.

Record job_return := {
  urlCount : nat;
  successfulEngines : list string;
  failedEngines : list string
}.

Inductive job_outcome :=
| Returned (r : job_return)
| Threw (message : string).

Definition markBingSubmitted (now : Z) (ids : list string) (r : url_row) : url_row :=
  if decide (u_id r ∈ ids) then
    {| u_id := u_id r; u_projectId := u_projectId r; u_sitemapId := u_sitemapId r;
       u_loc := u_loc r; u_locHash := u_locHash r; u_lastmod := u_lastmod r;
       u_changefreq := u_changefreq r; u_priority := u_priority r;
       u_googleStatus := u_googleStatus r; u_googleSubmittedAt := u_googleSubmittedAt r;
       u_bingStatus := Some SUBMITTED; u_bingSubmittedAt := Some now;
       u_firstSeenAt := u_firstSeenAt r |}
  else r.

Definition toSubmission (pid : string) (anySuccess : bool) (urlId : string) : submission_row :=
  {| s_urlId := urlId; s_projectId := pid; s_engine := INDEXNOW;
     s_status := if anySuccess then COMPLETED else FAILED;
     s_responseCode := Some (if anySuccess then 200 else 500);
     s_errorMessage := None |}.

(** The handler.  [project] is the domain of the project row when there is
    one, [credential] the decrypted key when a credential row exists.  The
    engines are posted the list first; [db.insert(submissions)
    .values(submissionRecords)] is the first write and throws for an empty
    list of records, so that a job for which no row of [urls] was selected
    throws after its posts and writes nothing. *)
Definition indexNowSubmitterWorker (api : indexnow_api) (project credential : option string)
    (today now : Z) (p : IndexNowPayload) (d : db)
  : job_outcome * db * list (string * list (list string)) :=
  match project, credential with
  | None, _ =>
      (Threw (String.append "Project " (String.append (projectId p) " not found")), d, [])
  | Some _, None => (Threw "IndexNow key not configured for this project", d, [])
  | Some domain, Some key =>
      let urlRecords := filter (fun r => u_id r ∈ urlIds p) (urls_t d) in
      let urlList := map u_loc urlRecords in
      let results :=
        map (fun ee : string * string => (ee.1, submitToEngine api ee.2 urlList))
            INDEXNOW_ENDPOINTS in
      let posts := map (fun r => (r.1, r.2.2)) results in
      let ok := map fst (filter (fun r => success r.2.1 = true) results) in
      let ko := map fst (filter (fun r => success r.2.1 = false) results) in
      let anySuccess := bool_decide (ok ≠ []) in
      match urlRecords with
      | [] => (Threw "values() must be called with at least one value", d, posts)
      | _ :: _ =>
          let d' :=
            {| urls_t := if anySuccess then map (markBingSubmitted now (urlIds p)) (urls_t d)
                         else urls_t d;
               submissions_t :=
                 submissions_t d ++
                 map (fun r => toSubmission (projectId p) anySuccess (u_id r)) urlRecords;
               quota_t :=
                 Quota.upsert (projectId p, INDEXNOW, today) (Z.of_nat (length (urlIds p)))
                   (quota_t d) |} in
          (Returned {| urlCount := length (urlIds p); successfulEngines := ok;
                       failedEngines := ko |},
           d', posts)
      end
  end.

(** URLs of the job that an engine accepted: all of the posted ones when
    some endpoint accepted the batch, none otherwise. *)
Definition acceptedCount (o : job_outcome) (d d' : db) : nat :=
  match o with
  | Returned r =>
      match successfulEngines r with
      | [] => 0%nat
      | _ => (length (submissions_t d') - length (submissions_t d))%nat
      end
  | Threw _ => 0%nat
  end.

End IndexNowWorker.

(** ** IndexNow in the browser indexing service: the version that retries
       (services/indexingService.ts) *)

Module IndexNowRetry.

Inductive proxy_reply :=
| Reply (status : Z) (text : string)
| NetworkFailure.

Definition res_ok (status : Z) : bool := (200 <=? status) && (status <=? 299).

Definition indexnow_api := nat → list string → proxy_reply.

Record net := {
  posted : list (list string);
  waited : Z
}.

Definition send (urls : list string) (s : net) : net :=
  {| posted := posted s ++ [urls]; waited := waited s |}.

Definition sleep (ms : Z) (s : net) : net :=
  {| posted := posted s; waited := waited s + ms |}.

Record batch_result := {
  submitted : nat;
  errors : nat
}.

(** The [while (retries >= 0)] loop: a 5xx, a 429 or an exception is
    retried after 3 s while retries are left; any other rejection ends the
    batch at once. *)
Fixpoint attemptLoop (retries : nat) (api : indexnow_api) (urls : list string) (s : net)
  : batch_result * net :=
  let reply := api (length (posted s)) urls in
  let s1 := send urls s in
  let caught :=
    match retries with
    | S k => attemptLoop k api urls (sleep 3000 s1)
    | O => ({| submitted := 0; errors := length urls |}, s1)
    end in
  match reply with
  | Reply status _ =>
      if res_ok status || (status =? 200) || (status =? 202) then
        ({| submitted := length urls; errors := 0 |}, s1)
      else if (500 <=? status) || (status =? 429) then caught
      else ({| submitted := 0; errors := length urls |}, s1)
  | NetworkFailure => caught
  end.

Definition attemptIndexNowBatch (api : indexnow_api) (urls : list string) (s : net)
  : batch_result * net :=
  attemptLoop 2 api urls s.

End IndexNowRetry.

(** ** IndexNow in the browser indexing service: the version with adaptive
       batch splitting *)

Module IndexNowAdaptive.

Export IndexNowRetry (proxy_reply, Reply, NetworkFailure, res_ok, indexnow_api,
                      net, posted, waited, send, sleep, batch_result, submitted, errors).

(** [attemptIndexNowBatch] calls itself on the two halves of a rejected
    batch; [fuel] bounds the nesting of these calls. *)
Fixpoint attemptFuel (fuel : nat) (api : indexnow_api) (urls : list string) (s : net)
  : option (batch_result * net) :=
  let reply := api (length (posted s)) urls in
  let s1 := send urls s in
  match reply with
  | Reply status _ =>
      if res_ok status || (status =? 200) || (status =? 202) then
        Some ({| submitted := length urls; errors := 0 |}, s1)
      else if ((status =? 429) || (status =? 422)) && (10 <? length urls)%nat then
        match fuel with
        | O => None
        | S f =>
            let mid := (length urls / 2)%nat in
            let left := take mid urls in
            let right := drop mid urls in
            match attemptFuel f api left (sleep 1000 s1) with
            | None => None
            | Some (r1, s2) =>
                match attemptFuel f api right s2 with
                | None => None
                | Some (r2, s3) =>
                    Some ({| submitted := (submitted r1 + submitted r2)%nat;
                             errors := (errors r1 + errors r2)%nat |}, s3)
                end
            end
        end
      else Some ({| submitted := 0; errors := length urls |}, s1)
  | NetworkFailure => Some ({| submitted := 0; errors := length urls |}, s1)
  end.

(** A batch of [n] URLs nests at most [n] deep. *)
Definition attemptIndexNowBatch (api : indexnow_api) (urls : list string) (s : net)
  : option (batch_result * net) :=
  attemptFuel (length urls) api urls s.

End IndexNowAdaptive.

(** ** URL store: [batchUpsertUrls] and [updateProjectStats]
       (apps/worker/src/jobs/sitemap-scanner.ts) *)

Module UrlStore.

Record ParsedUrl := {
  loc : string;
  lastmod : option string;
  changefreq : option string;
  priority : option string
}.

(** The columns of [projects] the worker reads and writes. *)
Record project_row := {
  p_id : string;
  p_domain : string;
  p_sitemapUrl : string;
  p_totalUrls : Z;
  p_indexedUrls : Z;
  p_pendingUrls : Z;
  p_errorUrls : Z;
  p_lastScanAt : option Z;
  p_updatedAt : Z
}.

Definition BATCH_SIZE : nat := 500.

(** The unique index [url_loc_hash_idx]. *)
Definition key (r : url_row) : string * string := (u_projectId r, u_locHash r).

(** The columns an upsert leaves alone on a row that already exists. *)
Definition kept (r : url_row)
  : string * string * string * string * option indexing_status * option Z
    * option indexing_status * option Z * Z :=
  (u_id r, u_projectId r, u_loc r, u_locHash r, u_googleStatus r,
   u_googleSubmittedAt r, u_bingStatus r, u_bingSubmittedAt r, u_firstSeenAt r).

(** [x ? f(x) : null] for an optional string. *)
Definition ifTruthy (x : option string) : option string :=
  match x with
  | Some s => if Str.truthy s then Some s else None
  | None => None
  end.

(** [Math.round(x)] of a finite double: the nearest integer, a half
    rounded up.  (The quotients the loop rounds are finite.) *)
Definition mathRound (x : SpecFloat.spec_float) : Z :=
  match x with
  | SpecFloat.S754_finite s m e =>
      let z := if s then Z.neg m else Z.pos m in
      if 0 <=? e then z * 2 ^ e else (z + 2 ^ (- e - 1)) / 2 ^ (- e)
  | _ => 0
  end.

(** A count as a double. *)
Definition double (n : nat) : SpecFloat.spec_float :=
  SpecFloat.binary_normalize 53 1024 (Z.of_nat n) 0 false.

(** [Math.round((processed / total) * 100)], in double precision. *)
Definition progressOf (processed total : nat) : Z :=
  mathRound
    (SpecFloat.SFmul 53 1024 (SpecFloat.SFdiv 53 1024 (double processed) (double total))
       (double 100)).

Inductive upsert_outcome :=
  | Done
  | Throws.

(** One row of [values] as the database stores it. *)
Record proposed := {
  v_projectId : string;
  v_sitemapId : string;
  v_loc : string;
  v_locHash : string;
  v_lastmod : option string;
  v_changefreq : option string;
  v_priority : option string
}.

Definition vkey (v : proposed) : string * string := (v_projectId v, v_locHash v).

Section Store.

(** SHA-256 in hexadecimal, and the identifiers [defaultRandom()] hands
    out, numbered by the size of the table at the insertion. *)
Variable sha256 : string → string.
Variable uuid : nat → string.

(** [new Date(text)] as the timestamp the column stores, nothing for an
    invalid date (which cannot be sent to the database); [parseFloat(text)]
    as the number is written; and what a [decimal(2,1)] column stores for a
    number, nothing when the database refuses it. *)
Variable newDate : string → option string.
Variable parseFloat : string → string.
Variable decimal21 : string → option string.

(** [url.lastmod ? new Date(url.lastmod) : null] *)
Definition lastmodOf (url : ParsedUrl) : option (option string) :=
  match ifTruthy (lastmod url) with
  | Some text => Some <$> newDate text
  | None => Some None
  end.

(** [url.changefreq], for a column [varchar(20)] *)
Definition changefreqOf (url : ParsedUrl) : option (option string) :=
  match changefreq url with
  | Some text => if (20 <? String.length text)%nat then None else Some (Some text)
  | None => Some None
  end.

(** [url.priority ? parseFloat(url.priority) : null] *)
Definition priorityOf (url : ParsedUrl) : option (option string) :=
  match ifTruthy (priority url) with
  | Some text => Some <$> decimal21 (parseFloat text)
  | None => Some None
  end.

(** One element of [values]; nothing when it holds a value that makes the
    statement fail: an invalid date, a changefreq longer than its column, a
    priority outside [decimal(2,1)]. *)
Definition toValues (projectId sitemapId : string) (url : ParsedUrl) : option proposed :=
  match lastmodOf url, changefreqOf url, priorityOf url with
  | Some m, Some c, Some p =>
      Some {| v_projectId := projectId; v_sitemapId := sitemapId; v_loc := loc url;
              v_locHash := sha256 (loc url); v_lastmod := m; v_changefreq := c;
              v_priority := p |}
  | _, _, _ => None
  end.

(** A row inserted with the column defaults. *)
Definition inserted (id : string) (now : Z) (v : proposed) : url_row :=
  {| u_id := id; u_projectId := v_projectId v; u_sitemapId := Some (v_sitemapId v);
     u_loc := v_loc v; u_locHash := v_locHash v; u_lastmod := v_lastmod v;
     u_changefreq := v_changefreq v; u_priority := v_priority v;
     u_googleStatus := Some DISCOVERED; u_googleSubmittedAt := None;
     u_bingStatus := Some DISCOVERED; u_bingSubmittedAt := None;
     u_firstSeenAt := now |}.

(** [DO UPDATE SET sitemapId, lastmod = EXCLUDED.lastmod, changefreq =
    EXCLUDED.changefreq, priority = EXCLUDED.priority]. *)
Definition updated (r : url_row) (v : proposed) : url_row :=
  {| u_id := u_id r; u_projectId := u_projectId r; u_sitemapId := Some (v_sitemapId v);
     u_loc := u_loc r; u_locHash := u_locHash r; u_lastmod := v_lastmod v;
     u_changefreq := v_changefreq v; u_priority := v_priority v;
     u_googleStatus := u_googleStatus r; u_googleSubmittedAt := u_googleSubmittedAt r;
     u_bingStatus := u_bingStatus r; u_bingSubmittedAt := u_bingSubmittedAt r;
     u_firstSeenAt := u_firstSeenAt r |}.

(** One proposed row against the table: the row with the same
    (projectId, locHash) is updated, or the proposed row is appended. *)
Fixpoint upsertRow (id : string) (now : Z) (v : proposed) (t : list url_row) : list url_row :=
  match t with
  | [] => [inserted id now v]
  | r :: rest =>
      if decide (key r = (v_projectId v, v_locHash v)) then updated r v :: rest
      else r :: upsertRow id now v rest
  end.

(** The rows of a statement the database accepts, taken one after the
    other. *)
Definition applyRows (now : Z) (rows : list proposed) (t : list url_row) : list url_row :=
  foldl (fun acc v => upsertRow (uuid (length acc)) now v acc) t rows.

(** [INSERT INTO urls VALUES ... ON CONFLICT (project_id, loc_hash) DO
    UPDATE ...]: one statement for the whole batch.  It fails, and writes
    nothing, when a value cannot be stored or when two of its rows have the
    same (projectId, locHash) (the database refuses to update a row a second
    time in one statement). *)
Definition insertOnConflictUpdate (now : Z) (values : list (option proposed))
    (t : list url_row) : option (list url_row) :=
  match mapM id values with
  | Some rows => if decide (NoDup (map vkey rows)) then Some (applyRows now rows t) else None
  | None => None
  end.

(** The [for (i = 0; i < total; i += BATCH_SIZE)] loop.  [clock k] is the
    time of the statement of batch [k]; the progress values reported to the
    queue are collected.  A statement that fails ends the loop with its
    exception; the batches before it stay written. *)
Fixpoint upsertBatches (fuel : nat) (clock : nat → Z) (projectId sitemapId : string)
    (total : nat) (k : nat) (processed : nat) (rest : list ParsedUrl)
    (t : list url_row) (reported : list Z) : upsert_outcome * list url_row * list Z :=
  match fuel, rest with
  | _, [] => (Done, t, reported)
  | O, _ => (Done, t, reported)
  | S f, _ =>
      let batch := take BATCH_SIZE rest in
      match insertOnConflictUpdate (clock k) (map (toValues projectId sitemapId) batch) t with
      | None => (Throws, t, reported)
      | Some t' =>
          let processed' := (processed + length batch)%nat in
          upsertBatches f clock projectId sitemapId total (S k) processed'
            (drop BATCH_SIZE rest) t' (reported ++ [progressOf processed' total])
      end
  end.

Definition batchUpsertUrls (clock : nat → Z) (projectId sitemapId : string)
    (parsedUrls : list ParsedUrl) (t : list url_row)
  : upsert_outcome * list url_row * list Z :=
  upsertBatches (length parsedUrls) clock projectId sitemapId (length parsedUrls)
    0%nat 0%nat parsedUrls t [].

End Store.

(** [COUNT( * ) FILTER (WHERE google_status IN (...))] over the rows of a
    project; a NULL status is in no list. *)
Definition statusIn (s : option indexing_status) (statuses : list indexing_status) : bool :=
  match s with
  | Some x => bool_decide (x ∈ statuses)
  | None => false
  end.

Definition countWhere (projectId : string) (statuses : list indexing_status)
    (t : list url_row) : Z :=
  Z.of_nat (length (filter (fun r =>
    u_projectId r = projectId ∧ statusIn (u_googleStatus r) statuses = true) t)).

Definition countAll (projectId : string) (t : list url_row) : Z :=
  Z.of_nat (length (filter (fun r => u_projectId r = projectId) t)).

Definition setStats (now total indexed pending errors : Z) (p : project_row) : project_row :=
  {| p_id := p_id p; p_domain := p_domain p; p_sitemapUrl := p_sitemapUrl p;
     p_totalUrls := total; p_indexedUrls := indexed; p_pendingUrls := pending;
     p_errorUrls := errors; p_lastScanAt := Some now; p_updatedAt := now |}.

Definition updateProjectStats (now : Z) (projectId : string) (t : list url_row)
    (projects : list project_row) : list project_row :=
  let total := countAll projectId t in
  let indexed := countWhere projectId [INDEXED] t in
  let pending := countWhere projectId [DISCOVERED; QUEUED] t in
  let errors := countWhere projectId [ERROR_4XX; ERROR_5XX; CRAWL_ERROR] t in
  map (fun p => if decide (p_id p = projectId)
                then setStats now total indexed pending errors p else p) projects.

End UrlStore.

(** ** Documents as the browser hands them to the streamer *)

Module Dom.

#[local] Unset Elimination Schemes.
Inductive node :=
| Element (tag : string) (attrs : list (string * string)) (children : list node)
| Text (data : string).
#[local] Set Elimination Schemes.

Definition tagOf (n : node) : option string :=
  match n with
  | Element t _ _ => Some t
  | Text _ => None
  end.

(** [node.textContent] *)
Fixpoint textContent (n : node) : string :=
  match n with
  | Text s => s
  | Element _ _ kids =>
      (fix go (ks : list node) : string :=
         match ks with
         | [] => EmptyString
         | k :: r => String.append (textContent k) (go r)
         end) kids
  end.

(** The elements of a subtree in document order, each with the tag of its
    parent element ([None] for the root of the document). *)
Fixpoint elementsUnder (parent : option string) (n : node) : list (option string * node) :=
  match n with
  | Text _ => []
  | Element t _ kids =>
      (parent, n) ::
      (fix go (ks : list node) : list (option string * node) :=
         match ks with
         | [] => []
         | k :: r => elementsUnder (Some t) k ++ go r
         end) kids
  end.

(** The selectors the code uses: a type selector [b], or a child
    combinator [a > b]. *)
Inductive selector :=
| Tag (name : string)
| Child (parent name : string).

Definition matches (sel : selector) (e : option string * node) : bool :=
  match sel with
  | Tag b => bool_decide (tagOf e.2 = Some b)
  | Child a b => bool_decide (tagOf e.2 = Some b) && bool_decide (e.1 = Some a)
  end.

(** [document.querySelectorAll(s1, s2, ...)] *)
Definition querySelectorAll (sels : list selector) (doc : node) : list node :=
  map snd (filter (fun e => existsb (fun s => matches s e) sels = true)
             (elementsUnder None doc)).

(** [document.querySelector(s)] *)
Definition querySelector (sel : selector) (doc : node) : option node :=
  head (querySelectorAll [sel] doc).

(** [element.querySelector(s)]: the element itself is not a candidate. *)
Definition querySelectorIn (sel : selector) (el : node) : option node :=
  head (map snd (filter (fun e => matches sel e = true)
                   (tail (elementsUnder None el)))).

(** [element.getAttribute(name)] *)
Fixpoint getAttribute (name : string) (attrs : list (string * string)) : option string :=
  match attrs with
  | [] => None
  | (k, v) :: r => if decide (k = name) then Some v else getAttribute name r
  end.

Definition attribute (name : string) (n : node) : option string :=
  match n with
  | Element _ attrs _ => getAttribute name attrs
  | Text _ => None
  end.

End Dom.

(** ** The recursive streamer of the browser application
       (services/sitemapStreamer.ts) *)

Module SitemapStreamer.

Record SitemapUrl := {
  loc : string;
  lastmod : option string
}.

(** What [fetchWithSmartProxy] returns for a URL, with the document
    [DOMParser] builds from the text. *)
Record page := {
  ok : bool;
  xmlText : string;
  xmlDoc : Dom.node
}.

(** The sitemaps that can be reached; a URL outside the map makes the
    fetch throw. *)
Abbreviation web := (gmap string page).

Record streamer := {
  visitedSitemaps : gset string;
  fetches : list string;          (* calls of fetchWithSmartProxy, oldest first *)
  urlFound : list nat             (* arguments of onUrlFound *)
}.

Inductive outcome :=
| Ok (urls : list SitemapUrl)
| Throws.

(** The [catch] of [fetchSitemapRecursive] for an error that is not an
    abort. *)
Definition caught (s : streamer) : outcome * streamer :=
  if (size (visitedSitemaps s) =? 1)%nat then (Throws, s) else (Ok [], s).

(** [<url>] elements of a urlset. *)
Definition urlEntry (n : Dom.node) : option SitemapUrl :=
  let l := Str.trim <$> (Dom.textContent <$> Dom.querySelectorIn (Dom.Tag "loc") n) in
  let m := Str.trim <$> (Dom.textContent <$> Dom.querySelectorIn (Dom.Tag "lastmod") n) in
  match l with
  | Some s => if Str.truthy s then Some {| loc := s; lastmod := m |} else None
  | None => None
  end.

(** [node.textContent?.trim() || node.getAttribute('href')], kept when
    truthy. *)
Definition linkTarget (n : Dom.node) : option SitemapUrl :=
  let t := Str.trim (Dom.textContent n) in
  if Str.truthy t then Some {| loc := t; lastmod := None |}
  else match Dom.attribute "href" n with
       | Some h => if Str.truthy h then Some {| loc := h; lastmod := None |} else None
       | None => None
       end.

Definition feedLinks (doc : Dom.node) : list SitemapUrl :=
  omap linkTarget
    (Dom.querySelectorAll [Dom.Child "item" "link"; Dom.Child "entry" "link"] doc).

Definition found (batch : list SitemapUrl) (s : streamer) : streamer :=
  match batch with
  | [] => s
  | _ => {| visitedSitemaps := visitedSitemaps s; fetches := fetches s;
            urlFound := urlFound s ++ [length batch] |}
  end.

(** The [for (const node of childNodes)] loop of a sitemap index, [rec]
    being the recursive call. *)
Fixpoint eachChild (rec : string → streamer → option (outcome * streamer))
    (childNodes : list Dom.node) (allUrls : list SitemapUrl) (s : streamer)
  : option (outcome * streamer) :=
  match childNodes with
  | [] => Some (Ok allUrls, s)
  | n :: rest =>
      let childUrl := Str.trim (Dom.textContent n) in
      if Str.truthy childUrl then
        match rec childUrl s with
        | None => None
        | Some (Ok children, s') => eachChild rec rest (allUrls ++ children) s'
        | Some (Throws, s') => Some (Throws, s')
        end
      else eachChild rec rest allUrls s
  end.

(** [fetchSitemapRecursive], without an abort signal.  [fuel] bounds the
    nesting of the recursive calls. *)
Fixpoint fetchSitemapRecursive (fuel : nat) (w : web) (url : string) (s : streamer)
  : option (outcome * streamer) :=
  match fuel with
  | O => None
  | S f =>
      if decide (url ∈ visitedSitemaps s) then Some (Ok [], s)
      else
        let s1 := {| visitedSitemaps := visitedSitemaps s ∪ {[url]};
                     fetches := fetches s ++ [url]; urlFound := urlFound s |} in
        match w !! url with
        | None => Some (caught s1)
        | Some p =>
            if negb (ok p) then Some (caught s1)
            else if bool_decide (is_Some (Dom.querySelector (Dom.Tag "parsererror") (xmlDoc p)))
                    && negb (0 <? String.length (Str.trim (xmlText p)))%nat
            then Some (caught s1)
            else
              let doc := xmlDoc p in
              if bool_decide (is_Some (Dom.querySelector (Dom.Tag "sitemapindex") doc)) then
                match eachChild (fetchSitemapRecursive f w)
                        (Dom.querySelectorAll [Dom.Child "sitemap" "loc"] doc) [] s1 with
                | None => None
                | Some (Ok urls, s2) => Some (Ok urls, s2)
                | Some (Throws, s2) => Some (caught s2)
                end
              else if bool_decide (is_Some (Dom.querySelector (Dom.Tag "urlset") doc)) then
                let parsedBatch := omap urlEntry (Dom.querySelectorAll [Dom.Tag "url"] doc) in
                Some (Ok parsedBatch, found parsedBatch s1)
              else if bool_decide (is_Some (Dom.querySelector (Dom.Tag "rss") doc))
                      || bool_decide (is_Some (Dom.querySelector (Dom.Tag "feed") doc)) then
                let parsedBatch := feedLinks doc in
                Some (Ok parsedBatch, found parsedBatch s1)
              else Some (Ok [], s1)
        end
  end.

(** [streamParse]: the visited set is cleared; a [url] that [new URL(url)]
    does not accept ([wellFormed] tells) makes the call throw before any
    fetch; otherwise the recursion is started, with one level of nesting per
    reachable sitemap and one more allowed. *)
Definition streamParse (wellFormed : string → bool) (w : web) (url : string) (s : streamer)
  : option (outcome * streamer) :=
  let s0 := {| visitedSitemaps := ∅; fetches := fetches s; urlFound := urlFound s |} in
  if wellFormed url then fetchSitemapRecursive (S (size w)) w url s0
  else Some (Throws, s0).

(** Sitemaps of the web not visited yet. *)
Definition unvisited (w : web) (s : streamer) : nat :=
  size (dom w ∖ visitedSitemaps s).

(** Every fetch was of a URL entered in the visited set, and no URL was
    fetched twice. *)
Definition fetched_once (s : streamer) : Prop :=
  NoDup (fetches s) ∧ ∀ u, u ∈ fetches s → u ∈ visitedSitemaps s.

End SitemapStreamer.

(** ** sitemap-scanner worker: the SAX handlers and the queue
       (apps/worker/src/jobs/sitemap-scanner.ts)

    The writes of a run to [sitemaps], [urls] and [projects] are those of
    [UrlStore]; they do not decide what is fetched or enqueued and are not
    repeated here. *)

Module Scanner.

Import UrlStore (ParsedUrl, loc, lastmod, changefreq, priority).

Definition MAX_RECURSION_DEPTH : nat := 10.

(** The values of the [type] column named by the schema; the parser's
    return type has the first two. *)
Inductive sitemap_kind := INDEX | URLSET | RSS.

(** What the [sax] stream emits for a body. *)
Inductive sax_event :=
| OpenTag (name : string)
| TextNode (text : string)
| CloseTag (name : string)
| SaxError.

(** [Partial<ParsedUrl>] *)
Record partial_url := {
  c_loc : option string;
  c_lastmod : option string;
  c_changefreq : option string;
  c_priority : option string
}.

Definition emptyUrl : partial_url :=
  {| c_loc := None; c_lastmod := None; c_changefreq := None; c_priority := None |}.

Record parser := {
  urls : list ParsedUrl;
  childSitemaps : list string;
  currentUrl : partial_url;
  currentTag : string;
  isIndex : bool;
  rejected : bool
}.

Definition newParser : parser :=
  {| urls := []; childSitemaps := []; currentUrl := emptyUrl; currentTag := "";
     isIndex := false; rejected := false |}.

Definition onOpenTag (name : string) (p : parser) : parser :=
  let t := Str.toLowerCase name in
  {| urls := urls p; childSitemaps := childSitemaps p; currentUrl := currentUrl p;
     currentTag := t;
     isIndex := if decide (t = "sitemapindex") then true else isIndex p;
     rejected := rejected p |}.

Definition withCurrent (c : partial_url) (p : parser) : parser :=
  {| urls := urls p; childSitemaps := childSitemaps p; currentUrl := c;
     currentTag := currentTag p; isIndex := isIndex p; rejected := rejected p |}.

Definition onText (text : string) (p : parser) : parser :=
  let trimmed := Str.trim text in
  if negb (Str.truthy trimmed) then p
  else
    let c := currentUrl p in
    if decide (currentTag p = "loc") then
      if isIndex p then
        {| urls := urls p; childSitemaps := childSitemaps p ++ [trimmed];
           currentUrl := c; currentTag := currentTag p; isIndex := isIndex p;
           rejected := rejected p |}
      else withCurrent {| c_loc := Some trimmed; c_lastmod := c_lastmod c;
                          c_changefreq := c_changefreq c; c_priority := c_priority c |} p
    else if decide (currentTag p = "lastmod") then
      withCurrent {| c_loc := c_loc c; c_lastmod := Some trimmed;
                     c_changefreq := c_changefreq c; c_priority := c_priority c |} p
    else if decide (currentTag p = "changefreq") then
      withCurrent {| c_loc := c_loc c; c_lastmod := c_lastmod c;
                     c_changefreq := Some trimmed; c_priority := c_priority c |} p
    else if decide (currentTag p = "priority") then
      withCurrent {| c_loc := c_loc c; c_lastmod := c_lastmod c;
                     c_changefreq := c_changefreq c; c_priority := Some trimmed |} p
    else p.

Definition onCloseTag (name : string) (p : parser) : parser :=
  match decide (Str.toLowerCase name = "url"), c_loc (currentUrl p) with
  | left _, Some l =>
      {| urls := urls p ++ [{| loc := l; lastmod := c_lastmod (currentUrl p);
                               changefreq := c_changefreq (currentUrl p);
                               priority := c_priority (currentUrl p) |}];
         childSitemaps := childSitemaps p; currentUrl := emptyUrl; currentTag := "";
         isIndex := isIndex p; rejected := rejected p |}
  | _, _ =>
      {| urls := urls p; childSitemaps := childSitemaps p; currentUrl := currentUrl p;
         currentTag := ""; isIndex := isIndex p; rejected := rejected p |}
  end.

Definition onEvent (p : parser) (e : sax_event) : parser :=
  match e with
  | OpenTag n => onOpenTag n p
  | TextNode t => onText t p
  | CloseTag n => onCloseTag n p
  | SaxError =>
      {| urls := urls p; childSitemaps := childSitemaps p; currentUrl := currentUrl p;
         currentTag := currentTag p; isIndex := isIndex p; rejected := true |}
  end.

Record parsed := {
  kind : sitemap_kind;
  parsedUrls : list ParsedUrl;
  children : list string
}.

(** The promise around the parser: rejected by the first error, resolved at
    the end of the stream otherwise. *)
Definition parseEvents (events : list sax_event) : option parsed :=
  let p := foldl onEvent newParser events in
  if rejected p then None
  else Some {| kind := if isIndex p then INDEX else URLSET;
               parsedUrls := urls p; children := childSitemaps p |}.

(** A sitemap server: the events of the body of a URL, or [None] when the
    fetch fails after its retries or has no body. *)
Definition sitemap_web := string → option (list sax_event).

Definition fetchAndParseSitemap (w : sitemap_web) (url : string) : option parsed :=
  match w url with
  | None => None
  | Some events => parseEvents events
  end.

Record SitemapScannerPayload := {
  projectId : string;
  jobId : string;
  sitemapUrl : option string;
  parentSitemapId : option string;
  depth : nat
}.

(** The queue, the fetches made so far, and the status column of the job
    row. *)
Record scan := {
  queue : list SitemapScannerPayload;
  fetched : list string;
  status : job_status
}.

Definition childJob (parent : SitemapScannerPayload) (sitemapId childUrl : string)
  : SitemapScannerPayload :=
  {| projectId := projectId parent; jobId := jobId parent; sitemapUrl := Some childUrl;
     parentSitemapId := Some sitemapId; depth := S (depth parent) |}.

(** [sitemapUrl || project.sitemapUrl] *)
Definition targetOf (rootUrl : string) (sitemapUrl : option string) : string :=
  match sitemapUrl with
  | Some u => if Str.truthy u then u else rootUrl
  | None => rootUrl
  end.

(** One run of the handler on [job], the rest of the queue being [rest].
    [rootUrl] is [project.sitemapUrl]; the URL of the sitemap stands for the
    id of its row in [sitemaps]. *)
Definition sitemapScannerWorker (w : sitemap_web) (rootUrl : string) (job : SitemapScannerPayload)
    (rest : list SitemapScannerPayload) (s : scan) : scan :=
  let targetUrl := targetOf rootUrl (sitemapUrl job) in
  let fetched' := fetched s ++ [targetUrl] in
  match fetchAndParseSitemap w targetUrl with
  | None => {| queue := rest; fetched := fetched'; status := FAILED |}
  | Some r =>
      let queued :=
        if bool_decide (children r ≠ []) && (depth job <? MAX_RECURSION_DEPTH)%nat
        then map (childJob job targetUrl) (children r) else [] in
      {| queue := rest ++ queued; fetched := fetched';
         status := if (depth job =? 0)%nat then COMPLETED else PROCESSING |}
  end.

(** The worker takes jobs from the queue until it is empty; [fuel] bounds
    the number of jobs handled. *)
Fixpoint drain (fuel : nat) (w : sitemap_web) (rootUrl : string) (s : scan) : option scan :=
  match queue s with
  | [] => Some s
  | job :: rest =>
      match fuel with
      | O => None
      | S f => drain f w rootUrl (sitemapScannerWorker w rootUrl job rest s)
      end
  end.

(** Number of handler runs a job for [url] leads to, itself included
    ([levels] is the number of depth levels left below it). *)
Fixpoint runsBelow (levels : nat) (w : sitemap_web) (rootUrl url : string) : nat :=
  S (match levels with
     | O => 0
     | S k =>
         match fetchAndParseSitemap w url with
         | None => 0
         | Some r =>
             foldr (fun c acc => (runsBelow k w rootUrl (targetOf rootUrl (Some c)) + acc)%nat)
               0%nat (children r)
         end
     end).

Definition runsOf (w : sitemap_web) (rootUrl : string) (job : SitemapScannerPayload) : nat :=
  runsBelow (MAX_RECURSION_DEPTH - depth job) w rootUrl (targetOf rootUrl (sitemapUrl job)).

Definition runsOfQueue (w : sitemap_web) (rootUrl : string)
    (q : list SitemapScannerPayload) : nat :=
  foldr (fun j acc => (runsOf w rootUrl j + acc)%nat) 0%nat q.

(** A scan started by the root job of a project. *)
Definition rootJob (pid jid : string) : SitemapScannerPayload :=
  {| projectId := pid; jobId := jid; sitemapUrl := None; parentSitemapId := None;
     depth := 0 |}.

Definition scanProject (w : sitemap_web) (rootUrl pid jid : string) : option scan :=
  let q := [rootJob pid jid] in
  drain (runsOfQueue w rootUrl q) w rootUrl
    {| queue := q; fetched := []; status := PENDING |}.

End Scanner.

(** ** WebSocket fan-out of one server instance (lib/websocket.ts) *)

Module EventBus.

Inductive ready_state := CONNECTING | OPEN | CLOSING | CLOSED.

#[global] Instance ready_state_eq_dec : EqDecision ready_state.
Proof. solve_decision. Defined.

Record WSMessage := {
  type : string;
  payload : string
}.

(** One instance: the [connections] map (sockets are numbered), the state
    of each socket, what was sent on each socket, and what the instance
    published to the broker and has not received back yet. *)
Record instance := {
  connections : gmap string (gset nat);
  readyState : gmap nat ready_state;
  sent : list (nat * string);
  published : list (string * string)
}.

Definition isOpen (i : instance) (ws : nat) : bool :=
  bool_decide (readyState i !! ws = Some OPEN).

(** [ws.send(data)] *)
Definition wsSend (ws : nat) (data : string) (i : instance) : instance :=
  {| connections := connections i; readyState := readyState i;
     sent := sent i ++ [(ws, data)]; published := published i |}.

(** [projectConnections.forEach(ws => { if (ws.readyState === OPEN)
    ws.send(data) })] *)
Definition sendToOpen (data : string) (sockets : list nat) (i : instance) : instance :=
  foldl (fun acc ws => if isOpen acc ws then wsSend ws data acc else acc) i sockets.

Definition keyOf (organizationId projectId : string) : string :=
  String.append organizationId (String.append ":" projectId).

Section Bus.

Variable JSON_stringify : WSMessage → string.

Definition broadcastToProject (organizationId projectId : string) (message : WSMessage)
    (i : instance) : instance :=
  let key := keyOf organizationId projectId in
  match connections i !! key with
  | None => i
  | Some projectConnections =>
      if (size projectConnections =? 0)%nat then i
      else
        let messageStr := JSON_stringify message in
        let i1 := sendToOpen messageStr (elements projectConnections) i in
        {| connections := connections i1; readyState := readyState i1; sent := sent i1;
           published := published i1 ++ [(String.append "ws:" key, messageStr)] |}
  end.

End Bus.

(** The listener of [pSubscribe('ws:*', ...)]. *)
Definition subscribeToRedis (message channel : string) (i : instance) : instance :=
  let key := Str.replace channel "ws:" "" in
  match connections i !! key with
  | Some projectConnections => sendToOpen message (elements projectConnections) i
  | None => i
  end.

(** The broker hands every message the instance published back to its own
    pattern subscription, when the channel matches [ws:*]. *)
Definition brokerDelivers (i : instance) : instance :=
  foldl (fun (acc : instance) (cm : string * string) =>
           if String.prefix "ws:" cm.1 then subscribeToRedis cm.2 cm.1 acc else acc)
        {| connections := connections i; readyState := readyState i; sent := sent i;
           published := [] |}
        (published i).

(** Number of times [data] was sent on the socket [ws]. *)
Definition deliveries (ws : nat) (data : string) (i : instance) : nat :=
  length (filter (fun d => d = (ws, data)) (sent i)).

End EventBus.

(** ** Credential vault (apps/worker/src/lib/encryption.ts)

    A [Buffer] is a string of 8-bit characters.  Node's [scrypt],
    AES-256-GCM, base64 and UTF-8 codecs are parameters of the section;
    the hexadecimal codec is written out. *)

Module Vault.

Definition KEY_LENGTH : nat := 32.

(** Declared next to [KEY_LENGTH]; it is not passed to the cipher or to the
    decipher. *)
Definition AUTH_TAG_LENGTH : nat := 16.

Definition hexDigit (n : N) : ascii :=
  match n with
  | 0 => "0" | 1 => "1" | 2 => "2" | 3 => "3" | 4 => "4" | 5 => "5" | 6 => "6"
  | 7 => "7" | 8 => "8" | 9 => "9" | 10 => "a" | 11 => "b" | 12 => "c"
  | 13 => "d" | 14 => "e" | _ => "f"
  end%N%char.

(** Value of a hexadecimal digit, in either letter case. *)
Definition nibble (c : ascii) : option N :=
  let n := N_of_ascii c in
  if ((48 <=? n) && (n <=? 57))%N then Some (n - 48)%N
  else if ((97 <=? n) && (n <=? 102))%N then Some (n - 87)%N
  else if ((65 <=? n) && (n <=? 70))%N then Some (n - 55)%N
  else None.

(** [buffer.toString('hex')] *)
Fixpoint toHex (b : string) : string :=
  match b with
  | EmptyString => EmptyString
  | String c r =>
      String (hexDigit (N_of_ascii c / 16)) (String (hexDigit (N_of_ascii c mod 16)) (toHex r))
  end.

(** [Buffer.from(text, 'hex')]: pairs of digits are read until one is not
    a pair of hexadecimal digits. *)
Fixpoint fromHex (h : string) : string :=
  match h with
  | String a (String b r) =>
      match nibble a, nibble b with
      | Some x, Some y => String (ascii_of_N (16 * x + y)) (fromHex r)
      | _, _ => EmptyString
      end
  | _ => EmptyString
  end.

(** [Buffer.alloc(n)] with [source.copy(target)]: the first [n] characters,
    padded with zeros. *)
Fixpoint copyInto (n : nat) (source : string) : string :=
  match n with
  | O => EmptyString
  | S k =>
      match source with
      | EmptyString => String Ascii.zero (copyInto k EmptyString)
      | String c r => String c (copyInto k r)
      end
  end.

Record sealed := {
  encryptedData : string;
  iv : string;
  authTag : string;
  salt : string
}.

Section Primitives.

Variable scrypt : string → string → nat → string.
Variable gcmEncrypt : string → string → string → string * string.
Variable gcmDecrypt : string → string → string → string → option string.
Variable toBase64 fromBase64 : string → string.
Variable utf8Encode utf8Decode : string → string.

(** [getEncryptionKey]: the passphrase of the environment, or an
    exception. *)
Definition getEncryptionKey (env : option string) : option string :=
  match env with
  | Some key => if (String.length key <? 32)%nat then None else Some key
  | None => None
  end.

(** [encryptCredentials]; [saltBytes] and [ivBytes] are what
    [randomBytes] returned. *)
Definition encryptCredentials (env : option string) (saltBytes ivBytes plaintext : string)
  : option sealed :=
  match getEncryptionKey env with
  | None => None
  | Some password =>
      let key := scrypt password saltBytes KEY_LENGTH in
      let '(ciphertext, tag) := gcmEncrypt key ivBytes (utf8Encode plaintext) in
      Some {| encryptedData := toBase64 ciphertext; iv := toHex ivBytes;
              authTag := toHex tag; salt := toHex saltBytes |}
  end.

(** [decryptCredentials]; [None] stands for an exception. *)
Definition decryptCredentials (env : option string) (data ivHex authTagHex : string)
    (saltHex : option string) : option string :=
  match getEncryptionKey env with
  | None => None
  | Some password =>
      let ivBytes := fromHex ivHex in
      let tag := fromHex authTagHex in
      let key :=
        match saltHex with
        | Some s =>
            if Str.truthy s then scrypt password (fromHex s) KEY_LENGTH
            else copyInto KEY_LENGTH (utf8Encode password)
        | None => copyInto KEY_LENGTH (utf8Encode password)
        end in
      utf8Decode <$> gcmDecrypt key ivBytes (fromBase64 data) tag
  end.

End Primitives.

End Vault.

(** ** The WebSocket server: connections, heartbeat, statistics
       (lib/websocket.ts)

    Sockets are numbered.  The [connections] map and the log of what was
    sent are those of [EventBus]. *)

Module WebSocketServer.

Import EventBus.

(** [s.split(sep)] for a separator of one character, as its first part and
    the parts that follow. *)
Fixpoint split (sep : ascii) (s : string) : string * list string :=
  match s with
  | EmptyString => (EmptyString, [])
  | String c r =>
      let '(h, t) := split sep r in
      if decide (c = sep) then (EmptyString, h :: t) else (String c h, t)
  end.

(** [pathname?.split('/').filter(Boolean) || []] *)
Definition pathParts (pathname : option string) : list string :=
  match pathname with
  | Some p =>
      let '(h, t) := split "/" p in
      filter (fun x => Str.truthy x = true) (h :: t)
  | None => []
  end.

Record user := {
  id : string;
  organizationId : string
}.

(** The server: the bus, the sockets of [wss.clients] with their [isAlive]
    flag, the calls of [ws.close(code, reason)], and the sockets pinged and
    terminated by the heartbeat, oldest first. *)
Record server := {
  bus : instance;
  isAlive : gmap nat bool;
  closed : list (nat * Z * string);
  pinged : list nat;
  terminated : list nat
}.

Definition withBus (b : instance) (s : server) : server :=
  {| bus := b; isAlive := isAlive s; closed := closed s; pinged := pinged s;
     terminated := terminated s |}.

Definition withAlive (ws : nat) (alive : bool) (s : server) : server :=
  {| bus := bus s; isAlive := <[ws := alive]> (isAlive s); closed := closed s;
     pinged := pinged s; terminated := terminated s |}.

(** [ws.close(code, reason)] *)
Definition close (ws : nat) (code : Z) (reason : string) (s : server) : server :=
  {| bus := bus s; isAlive := isAlive s; closed := closed s ++ [(ws, code, reason)];
     pinged := pinged s; terminated := terminated s |}.

(** [connections.get(key)!.add(ws)], after the set was created when the key
    was absent. *)
Definition addConnection (key : string) (ws : nat) (i : instance) : instance :=
  {| connections := <[key := default ∅ (connections i !! key) ∪ {[ws]}]> (connections i);
     readyState := readyState i; sent := sent i; published := published i |}.

(** The handler of ['close'] registered for an accepted connection. *)
Definition onClose (key : string) (ws : nat) (s : server) : server :=
  let i := bus s in
  let conns1 :=
    match connections i !! key with
    | Some c => <[key := c ∖ {[ws]}]> (connections i)
    | None => connections i
    end in
  let conns2 :=
    match conns1 !! key with
    | Some c => if (size c =? 0)%nat then delete key conns1 else conns1
    | None => conns1
    end in
  withBus {| connections := conns2; readyState := readyState i; sent := sent i;
             published := published i |} s.

(** What awaiting [verifyToken] gives: a user, no user, or a rejection. *)
Inductive verified :=
| User (u : user)
| NoUser
| Rejects.

Section Server.

(** [verifyToken]; the serialisation of the CONNECTED message for a project
    id and a user id; and whether [ws.send] throws on a socket. *)
Variable verifyToken : string → verified.
Variable connectedMessage : string → string → string.
Variable sendThrows : nat → bool.

(** The handler of ['connection'] for the socket [ws] and a request whose
    parsed address has the given path name and [token] query parameter.
    What is thrown inside the [try] block is caught and the socket closed
    with 4500: a rejection of [verifyToken] happens before the socket is
    registered; a [send] that throws happens after, and before the handler
    of ['close'] is attached. *)
Definition onConnection (ws : nat) (pathname token : option string) (s : server) : server :=
  let s := withAlive ws true s in
  match pathParts pathname with
  | first :: projectId :: _ =>
      if negb (bool_decide (first = "jobs")) || negb (Str.truthy projectId)
      then close ws 4000 "Invalid path" s
      else
        match token with
        | Some tok =>
            if negb (Str.truthy tok) then close ws 4001 "Authentication required" s
            else
              match verifyToken tok with
              | Rejects => close ws 4500 "Internal error" s
              | NoUser => close ws 4001 "Invalid token" s
              | User u =>
                  let key := keyOf (organizationId u) projectId in
                  let s := withBus (addConnection key ws (bus s)) s in
                  if sendThrows ws then close ws 4500 "Internal error" s
                  else withBus (wsSend ws (connectedMessage projectId (id u)) (bus s)) s
              end
        | None => close ws 4001 "Authentication required" s
        end
  | _ => close ws 4000 "Invalid path" s
  end.

End Server.

(** The handler of ['pong'] of a socket that is still connected. *)
Definition onPong (ws : nat) (s : server) : server :=
  match isAlive s !! ws with
  | Some _ => withAlive ws true s
  | None => s
  end.

(** What the heartbeat does with one client.  A terminated socket leaves
    [wss.clients]. *)
Definition beat (s : server) (ws : nat) : server :=
  match isAlive s !! ws with
  | Some false =>
      {| bus := bus s; isAlive := delete ws (isAlive s); closed := closed s;
         pinged := pinged s; terminated := terminated s ++ [ws] |}
  | Some true =>
      {| bus := bus s; isAlive := <[ws := false]> (isAlive s); closed := closed s;
         pinged := pinged s ++ [ws]; terminated := terminated s |}
  | None => s
  end.

(** One tick of the heartbeat interval: [wss.clients.forEach(...)]. *)
Definition heartbeat (s : server) : server :=
  foldl beat s (elements (dom (isAlive s))).

(** [handleClientMessage] for a message of the given type; [pong] is the
    serialised PONG message. *)
Definition handleClientMessage (pong : string) (ws : nat) (messageType : string)
    (s : server) : server :=
  if decide (messageType = "PING") then withBus (wsSend ws pong (bus s)) s
  else s.

(** [getConnectionStats]: the total and the count by key. *)
Definition getConnectionStats (i : instance) : nat * gmap string nat :=
  (map_fold (fun _ (sockets : gset nat) total => (total + size sockets)%nat) 0%nat
     (connections i),
   size <$> connections i).

End WebSocketServer.

(** ** Keys and tokens (lib/encryption.ts, the project wizard, and the
       credential read by the workers) *)

Module Tokens.

Import Vault.

(** [generateSecureToken(length)] and [generateIndexNowKey()];
    [randomBytes n] is the buffer Node's [randomBytes(n)] returned. *)
Definition generateSecureToken (randomBytes : nat → string) (length : nat) : string :=
  toHex (randomBytes length).

Definition generateIndexNowKey (randomBytes : nat → string) : string :=
  toHex (randomBytes 16%nat).

(** [b.toString(16)] for a byte. *)
Definition toString16 (b : ascii) : string :=
  let n := N_of_ascii b in
  if (n <? 16)%N then String (hexDigit n) EmptyString
  else String (hexDigit (n / 16)) (String (hexDigit (n mod 16)) EmptyString).

(** [s.padStart(2, '0')] *)
Definition padStart2 (s : string) : string :=
  match s with
  | EmptyString => "00"
  | String c EmptyString => String "0" (String c EmptyString)
  | _ => s
  end.

(** The key the wizard generates from the bytes of [getRandomValues]:
    [Array.from(bytes).map(b => b.toString(16).padStart(2, '0')).join('')]. *)
Fixpoint wizardKey (bytes : string) : string :=
  match bytes with
  | EmptyString => EmptyString
  | String b r => String.append (padStart2 (toString16 b)) (wizardKey r)
  end.

Section Primitives.

Variable scrypt : string → string → nat → string.
Variable gcmDecrypt : string → string → string → string → option string.
Variable fromBase64 : string → string.
Variable utf8Encode utf8Decode : string → string.

(** [decryptSimpleCredential] of the IndexNow worker, and the call of the
    Google worker: [decryptCredentials] with three arguments. *)
Definition decryptSimpleCredential (env : option string) (credential : sealed)
  : option string :=
  decryptCredentials scrypt gcmDecrypt fromBase64 utf8Encode utf8Decode env
    (encryptedData credential) (iv credential) (authTag credential) None.

End Primitives.

End Tokens.

(** ** The browser application: log, chart and project statistics, and
       the IndexNow phase of a job (App.tsx) *)

Module App.

Record LogEntry := {
  id : string;
  timestamp : Z;
  level : string;
  message : string;
  module : string
}.

(** [xs.slice(-k)] for a positive [k]: the last [k] elements. *)
Definition sliceLast {A} (k : nat) (xs : list A) : list A :=
  drop (length xs - k) xs.

(** [addLog]: [[...prev.slice(-999), newLog]] *)
Definition addLog (log : LogEntry) (prev : list LogEntry) : list LogEntry :=
  sliceLast 999 prev ++ [log].

Record Stats := {
  totalUrls : Z;
  submitted : Z;
  indexed : Z;
  errors : Z
}.

Record Project := {
  p_id : string;
  p_domain : string;
  p_indexNowKey : option string;
  stats : Stats
}.

(** [Partial<Project['stats']>] *)
Record StatsDelta := {
  d_totalUrls : option Z;
  d_submitted : option Z;
  d_indexed : option Z;
  d_errors : option Z
}.

(** [x || 0] for an optional number. *)
Definition orZero (x : option Z) : Z := default 0 x.

Definition updateProjectStats (projectId : string) (statsDelta : StatsDelta)
    (prev : list Project) : list Project :=
  map (fun p =>
         if decide (p_id p = projectId) then
           {| p_id := p_id p; p_domain := p_domain p; p_indexNowKey := p_indexNowKey p;
              stats := {| totalUrls := totalUrls (stats p) + orZero (d_totalUrls statsDelta);
                          submitted := submitted (stats p) + orZero (d_submitted statsDelta);
                          indexed := indexed (stats p) + orZero (d_indexed statsDelta);
                          errors := errors (stats p) + orZero (d_errors statsDelta) |} |}
         else p) prev.

Record ChartDataPoint := {
  name : string;
  value : Z;
  secondary : Z
}.

(** [appendChartData]; [timeLabel] is the time of the call as a string. *)
Definition appendChartData (timeLabel : string) (submitted successful : Z)
    (prev : list ChartDataPoint) : list ChartDataPoint :=
  let last := last prev in
  sliceLast 30
    (prev ++ [{| name := timeLabel;
                 value := orZero (value <$> last) + submitted;
                 secondary := orZero (secondary <$> last) + successful |}]).

(** What phase A of [handleStartScan] keeps: its two counters, the
    projects and the chart. *)
Record phase_a := {
  idxSubmitted : nat;
  idxErrors : nat;
  projects : list Project;
  chartData : list ChartDataPoint
}.

(** The [for (i = 0; i < allLocs.length; i += BATCH_SIZE)] loop of phase A,
    batch by batch, when the job is neither paused nor aborted.  [label k]
    is the time label of the chart point of batch [k]. *)
Fixpoint indexNowBatches (api : IndexNowRetry.indexnow_api) (projectId : string)
    (total : nat) (label : nat → string) (k : nat) (batches : list (list string))
    (acc : phase_a) (s : IndexNowRetry.net) : phase_a * IndexNowRetry.net :=
  match batches with
  | [] => (acc, s)
  | batch :: rest =>
      let '(res, s1) := IndexNowRetry.attemptIndexNowBatch api batch s in
      let idxSubmitted' := (idxSubmitted acc + IndexNowRetry.submitted res)%nat in
      let idxErrors' := (idxErrors acc + IndexNowRetry.errors res)%nat in
      let acc1 :=
        {| idxSubmitted := idxSubmitted';
           idxErrors := idxErrors';
           projects :=
             updateProjectStats projectId
               {| d_totalUrls := None;
                  d_submitted := Some (Z.of_nat (length batch));
                  d_indexed := Some (Z.of_nat (IndexNowRetry.submitted res));
                  d_errors := Some (Z.of_nat (IndexNowRetry.errors res)) |}
               (projects acc);
           chartData :=
             appendChartData (label k) (Z.of_nat total) (Z.of_nat idxSubmitted')
               (chartData acc) |} in
      indexNowBatches api projectId total label (S k) rest acc1 s1
  end.

(** Phase A: batches of 2000 locations. *)
Definition indexNowPhase (api : IndexNowRetry.indexnow_api) (projectId : string)
    (label : nat → string) (allLocs : list string) (prev : list Project)
    (chart : list ChartDataPoint) (s : IndexNowRetry.net) : phase_a * IndexNowRetry.net :=
  indexNowBatches api projectId (length allLocs) label 0
    (IndexingService.chunks (length allLocs) 2000 allLocs)
    {| idxSubmitted := 0; idxErrors := 0; projects := prev; chartData := chart |} s.

End App.

(** ** Request memoization with a time to live (memoizedRequest) *)

Module Memo.

Record entry (T : Type) := { data : T; expires : Z }.
Arguments data {T} _.
Arguments expires {T} _.

(** How the promise of [requestFn] settles. *)
Inductive settled (T : Type) :=
  | Fulfilled (value : T)
  | RejectedWith (reason : string).
Arguments Fulfilled {T} _.
Arguments RejectedWith {T} _.

(** The module-level [requestCache], and the number of calls of a
    [requestFn] made so far. *)
Record state (T : Type) := {
  requestCache : gmap string (entry T);
  requests : nat
}.
Arguments requestCache {T} _.
Arguments requests {T} _.

(** [cached && cached.expires > Date.now()] *)
Definition cachedHit {T} (key : string) (now : Z) (c : gmap string (entry T)) : option T :=
  match c !! key with
  | Some cached => if bool_decide (expires cached > now) then Some (data cached) else None
  | None => None
  end.

(** [requestCache.forEach((v, k) => { if (v.expires < now) requestCache.delete(k) })] *)
Definition cleanup {T} (now : Z) (c : gmap string (entry T)) : gmap string (entry T) :=
  filter (fun kv => ¬ expires kv.2 < now) c.

(** The [then] callback: [setAt] and [cleanupAt] are the two readings of
    the clock it makes. *)
Definition onFulfilled {T} (key : string) (ttlMs : Z) (value : T) (setAt cleanupAt : Z)
    (c : gmap string (entry T)) : gmap string (entry T) :=
  let c1 := <[key := {| data := value; expires := setAt + ttlMs |}]> c in
  if bool_decide (100 < size c1)%nat then cleanup cleanupAt c1 else c1.

(** One call whose promise settles before any other call touches the
    cache; [now] is the reading of the clock at the call. *)
Definition memoizedRequest {T} (key : string) (ttlMs : Z) (requestFn : nat → settled T)
    (now setAt cleanupAt : Z) (s : state T) : settled T * state T :=
  match cachedHit key now (requestCache s) with
  | Some value => (Fulfilled value, s)
  | None =>
      match requestFn (requests s) with
      | Fulfilled value =>
          (Fulfilled value,
           {| requestCache := onFulfilled key ttlMs value setAt cleanupAt (requestCache s);
              requests := S (requests s) |})
      | RejectedWith reason =>
          (RejectedWith reason,
           {| requestCache := requestCache s; requests := S (requests s) |})
      end
  end.

End Memo.

(** ** The projects router (tRPC procedures over the database)

    A query of the code is the list operation it denotes: [where] is
    [filter], [limit] and [offset] are [take] and [drop], [insert] appends a
    row.  The ids the database generates for new rows are arguments, and the
    calls of [ctx.auditLog] are recorded in the order they are made.
    [deleteProject] is the procedure [delete]. *)

Module ProjectsRouter.

Inductive job_type :=
  FULL_SCAN | INCREMENTAL_SYNC | GOOGLE_SUBMISSION | INDEXNOW_SUBMISSION | STATUS_CHECK.

#[global] Instance job_type_eq_dec : EqDecision job_type.
Proof. solve_decision. Defined.

Record project_row := {
  pr_id : string;
  pr_organizationId : string;
  pr_name : string;
  pr_domain : string;
  pr_sitemapUrl : string
}.

Record job_row := {
  j_id : string;
  j_projectId : string;
  j_type : job_type;
  j_status : job_status;
  j_totalItems : Z
}.

Record audit_call := {
  action : string;
  entityType : string;
  entityId : string
}.

Record db := {
  projects_t : list project_row;
  jobs_t : list job_row;
  urls_t : list url_row;
  audit_t : list audit_call
}.

Inductive error_code := NOT_FOUND | CONFLICT | INTERNAL_SERVER_ERROR.

Inductive outcome (A : Type) :=
  | Returns (a : A)
  | Throws (code : error_code) (message : string).
Arguments Returns {A} _.
Arguments Throws {A} _ _.

(** [and(eq(projects.id, id), eq(projects.organizationId, organizationId))] *)
Definition owned (organizationId id : string) (p : project_row) : Prop :=
  pr_id p = id ∧ pr_organizationId p = organizationId.

#[global] Instance owned_dec organizationId id p : Decision (owned organizationId id p).
Proof. unfold owned. apply _. Defined.

Definition insertJob (j : job_row) (d : db) : db :=
  {| projects_t := projects_t d; jobs_t := jobs_t d ++ [j]; urls_t := urls_t d;
     audit_t := audit_t d |}.

Definition auditLog (a e i : string) (d : db) : db :=
  {| projects_t := projects_t d; jobs_t := jobs_t d; urls_t := urls_t d;
     audit_t := audit_t d ++ [{| action := a; entityType := e; entityId := i |}] |}.

Record createInput := {
  c_name : string;
  c_domain : string;
  c_sitemapUrl : string
}.

Definition create (organizationId : string) (input : createInput)
    (newProjectId newJobId : string) (d : db) : outcome project_row * db :=
  match filter (fun p => pr_organizationId p = organizationId ∧ pr_domain p = c_domain input)
               (projects_t d) with
  | _ :: _ => (Throws CONFLICT "A project with this domain already exists", d)
  | [] =>
      let newProject :=
        {| pr_id := newProjectId; pr_organizationId := organizationId;
           pr_name := c_name input; pr_domain := c_domain input;
           pr_sitemapUrl := c_sitemapUrl input |} in
      let d1 := {| projects_t := projects_t d ++ [newProject]; jobs_t := jobs_t d;
                   urls_t := urls_t d; audit_t := audit_t d |} in
      let d2 := insertJob {| j_id := newJobId; j_projectId := newProjectId;
                             j_type := FULL_SCAN; j_status := PENDING;
                             j_totalItems := 0 |} d1 in
      (Returns newProject, auditLog "project.created" "project" newProjectId d2)
  end.

(** [createProjectSchema.partial()]: every field may be absent. *)
Record updateInput := {
  up_name : option string;
  up_domain : option string;
  up_sitemapUrl : option string
}.

Definition setFields (updates : updateInput) (p : project_row) : project_row :=
  {| pr_id := pr_id p; pr_organizationId := pr_organizationId p;
     pr_name := default (pr_name p) (up_name updates);
     pr_domain := default (pr_domain p) (up_domain updates);
     pr_sitemapUrl := default (pr_sitemapUrl p) (up_sitemapUrl updates) |}.

Definition update (organizationId id : string) (updates : updateInput) (d : db)
    : outcome project_row * db :=
  match filter (owned organizationId id) (projects_t d) with
  | [] => (Throws NOT_FOUND "Project not found", d)
  | p :: _ =>
      let d1 := {| projects_t :=
                     map (fun p => if decide (owned organizationId id p)
                                   then setFields updates p else p) (projects_t d);
                   jobs_t := jobs_t d; urls_t := urls_t d; audit_t := audit_t d |} in
      (Returns (setFields updates p), auditLog "project.updated" "project" id d1)
  end.

(** The rows of [jobs] and [urls] that reference a deleted project go with
    it ([onDelete: 'cascade']). *)
Definition deleteProject (organizationId id : string) (d : db) : outcome bool * db :=
  match filter (owned organizationId id) (projects_t d) with
  | [] => (Throws NOT_FOUND "Project not found", d)
  | _ :: _ =>
      let d1 := {| projects_t := filter (fun p => ¬ owned organizationId id p) (projects_t d);
                   jobs_t := filter (fun j => j_projectId j ≠ id) (jobs_t d);
                   urls_t := filter (fun u => u_projectId u ≠ id) (urls_t d);
                   audit_t := audit_t d |} in
      (Returns true, auditLog "project.deleted" "project" id d1)
  end.

(** [sql`${jobs.status} IN ('PENDING', 'PROCESSING')`] *)
Definition inProgress (j : job_row) : Prop :=
  j_status j = PENDING ∨ j_status j = PROCESSING.

#[global] Instance inProgress_dec j : Decision (inProgress j).
Proof. unfold inProgress. apply _. Defined.

Definition triggerScan (organizationId projectId : string) (type : job_type)
    (newJobId : string) (d : db) : outcome job_row * db :=
  match filter (owned organizationId projectId) (projects_t d) with
  | [] => (Throws NOT_FOUND "Project not found", d)
  | _ :: _ =>
      match filter (fun j => j_projectId j = projectId ∧ j_type j = type ∧ inProgress j)
                   (jobs_t d) with
      | _ :: _ => (Throws CONFLICT "A scan job is already in progress for this project", d)
      | [] =>
          let newJob := {| j_id := newJobId; j_projectId := projectId; j_type := type;
                           j_status := PENDING; j_totalItems := 0 |} in
          (Returns newJob, auditLog "job.triggered" "job" newJobId (insertJob newJob d))
      end
  end.

Definition submitUrls (organizationId projectId : string) (urlIds : list string)
    (engines : list search_engine) (newJobId : string) (d : db)
    : outcome (string * Z) * db :=
  match filter (owned organizationId projectId) (projects_t d) with
  | [] => (Throws NOT_FOUND "Project not found", d)
  | _ :: _ =>
      let queuedCount := Z.of_nat (length urlIds) * Z.of_nat (length engines) in
      let job := {| j_id := newJobId; j_projectId := projectId; j_type := GOOGLE_SUBMISSION;
                    j_status := PENDING; j_totalItems := queuedCount |} in
      (Returns (newJobId, queuedCount),
       auditLog "submission.queued" "job" newJobId (insertJob job d))
  end.

(** One call of a mutation of the router by a member of an organization. *)
Inductive mutation :=
  | Create (input : createInput) (newProjectId newJobId : string)
  | Update (id : string) (updates : updateInput)
  | Delete (id : string)
  | TriggerScan (projectId : string) (type : job_type) (newJobId : string)
  | SubmitUrls (projectId : string) (urlIds : list string) (engines : list search_engine)
      (newJobId : string).

Definition mutate (organizationId : string) (m : mutation) (d : db) : db :=
  match m with
  | Create input newProjectId newJobId => (create organizationId input newProjectId newJobId d).2
  | Update id updates => (update organizationId id updates d).2
  | Delete id => (deleteProject organizationId id d).2
  | TriggerScan projectId type newJobId => (triggerScan organizationId projectId type newJobId d).2
  | SubmitUrls projectId urlIds engines newJobId =>
      (submitUrls organizationId projectId urlIds engines newJobId d).2
  end.

Inductive sort_column := ByLoc | ByLastmod | ByGoogleStatus | ByCreatedAt.
Inductive sort_order := Asc | Desc.

(** [urls[input.sortBy]]: the table [urls] has the columns [loc], [lastmod]
    and [googleStatus] and none called [createdAt], which is the default of
    [sortBy]. *)
Inductive url_column := Loc | Lastmod | GoogleStatus.

Definition columnOf (sortBy : sort_column) : option url_column :=
  match sortBy with
  | ByLoc => Some Loc
  | ByLastmod => Some Lastmod
  | ByGoogleStatus => Some GoogleStatus
  | ByCreatedAt => None
  end.

Record listUrlsInput := {
  l_projectId : string;
  l_status : option indexing_status;
  l_search : option string;
  l_page : Z;
  l_pageSize : Z;
  l_sortBy : sort_column;
  l_sortOrder : sort_order
}.

Record pagination := {
  page : Z;
  pageSize : Z;
  total : Z;
  totalPages : Z
}.

(** [Math.ceil(a / b)] for whole numbers and a positive [b]. *)
Definition ceilDiv (a b : Z) : Z := - ((- a) / b).

Section Database.
(** The pattern match [ILIKE] and the ordering of the database, and the
    message of the error that the query raises when it is asked to order by
    a column that is not there. *)
Variable ilike : string → string → bool.
Variable orderBy : url_column → sort_order → list url_row → list url_row.
Variable queryError : string.

Definition conditions (input : listUrlsInput) (u : url_row) : Prop :=
  u_projectId u = l_projectId input
  ∧ (match l_status input with
     | Some status => u_googleStatus u = Some status
     | None => True
     end)
  ∧ (match l_search input with
     | Some search =>
         if Str.truthy search then ilike (u_loc u) ("%" ++ search ++ "%") = true else True
     | None => True
     end).

#[global] Instance conditions_dec input u : Decision (conditions input u).
Proof.
  unfold conditions. destruct (l_status input), (l_search input) as [s|];
    try destruct (Str.truthy s); apply _.
Defined.

(** The project is looked up, the rows are counted, and the page is
    selected.  An error that is not a [TRPCError] reaches the caller with
    the code INTERNAL_SERVER_ERROR. *)
Definition listUrls (organizationId : string) (input : listUrlsInput) (d : db)
    : outcome (list url_row * pagination) :=
  match filter (owned organizationId (l_projectId input)) (projects_t d) with
  | [] => Throws NOT_FOUND "Project not found"
  | _ :: _ =>
      let offset := (l_page input - 1) * l_pageSize input in
      let rows := filter (conditions input) (urls_t d) in
      let total := Z.of_nat (length rows) in
      match columnOf (l_sortBy input) with
      | None => Throws INTERNAL_SERVER_ERROR queryError
      | Some column =>
          let urlList :=
            take (Z.to_nat (l_pageSize input))
                 (drop (Z.to_nat offset) (orderBy column (l_sortOrder input) rows)) in
          Returns (urlList,
                   {| page := l_page input; pageSize := l_pageSize input; total := total;
                      totalPages := ceilDiv total (l_pageSize input) |})
      end
  end.

End Database.

End ProjectsRouter.

(** ** The proxy layer of the browser services (fetchWithSmartProxy, v5.0)

    The network answers a fetch according to the number of fetches made
    before it and its URL; the caller's abort signal is read as a function
    of the number of fetches that have settled.  The body of a response is
    taken to be readable. *)

Module SmartProxy.

Record strategy := {
  name : string;
  supportsBody : bool;
  fn : string → string
}.

(** What a rejected [fetch] throws: the abort reason ['TIMEOUT'], an error
    named ['AbortError'], or any other error. *)
Inductive thrown :=
  | TIMEOUT
  | AbortError
  | OtherError (message : string).

Record response := {
  status : Z;
  ok : bool;
  text : string;
  (** [response.headers.get('x-google-original-status')] is set *)
  originalStatus : bool
}.

Inductive fetched :=
  | Responds (r : response)
  | Rejects (e : thrown).

Record world := {
  fetch : nat → string → fetched;
  aborted : nat → bool
}.

(** What [fetchWithSmartProxy] throws: the abort error of a fetch, the
    [DOMException] it makes itself, [Error("Network Timeout")], the error
    of a proxy fetch, or the final network error. *)
Inductive error :=
  | UserAbort
  | DOMAborted
  | NetworkTimeout
  | FetchError (message : string)
  | CouldNotReach (targetUrl : string).

Inductive outcome :=
  | Returns (r : response)
  | Throws (e : error).

Section Strategies.
Variable encodeURIComponent : string → string.

Definition PROXY_STRATEGIES : list strategy :=
  [ {| name := "CorsProxy.io"; supportsBody := true;
       fn := fun url => "https://corsproxy.io/?" +:+ encodeURIComponent url |};
    {| name := "CodeTabs"; supportsBody := true;
       fn := fun url => "https://api.codetabs.com/v1/proxy?quest=" +:+ encodeURIComponent url |};
    {| name := "AllOrigins"; supportsBody := false;
       fn := fun url => "https://api.allorigins.win/raw?url=" +:+ encodeURIComponent url |} ].

(** [options.method === 'POST' || options.method === 'PUT'] *)
Definition isBodyRequest (method : option string) : bool :=
  bool_decide (method = Some "POST" ∨ method = Some "PUT").

(** [response.status === 429 || (response.status === 403 && !header)] *)
Definition proxyRefused (r : response) : bool :=
  (status r =? 429) || ((status r =? 403) && negb (originalStatus r)).

(** The proxy rotation, from the [n]-th fetch on. *)
Fixpoint rotate (w : world) (body : bool) (targetUrl : string) (strategies : list strategy)
    (n : nat) (log : list string) (lastError : option error) : outcome * list string :=
  match strategies with
  | [] => (Throws (default (CouldNotReach targetUrl) lastError), log)
  | strategy :: rest =>
      if body && negb (supportsBody strategy) then
        rotate w body targetUrl rest n log lastError
      else if aborted w n then (Throws DOMAborted, log)
      else
        let proxyUrl := fn strategy targetUrl in
        match fetch w n proxyUrl with
        | Responds r =>
            if proxyRefused r then
              rotate w body targetUrl rest (S n) (log ++ [proxyUrl]) lastError
            else (Returns r, log ++ [proxyUrl])
        | Rejects AbortError =>
            if aborted w (S n) then (Throws UserAbort, log ++ [proxyUrl])
            else rotate w body targetUrl rest (S n) (log ++ [proxyUrl]) (Some NetworkTimeout)
        | Rejects TIMEOUT =>
            rotate w body targetUrl rest (S n) (log ++ [proxyUrl]) (Some NetworkTimeout)
        | Rejects (OtherError message) =>
            rotate w body targetUrl rest (S n) (log ++ [proxyUrl]) (Some (FetchError message))
        end
  end.

Definition fetchWithSmartProxy (w : world) (targetUrl : string) (method : option string)
    : outcome * list string :=
  let proxies := rotate w (isBodyRequest method) targetUrl PROXY_STRATEGIES 1 [targetUrl] None in
  match fetch w 0 targetUrl with
  | Responds r => if status r =? 0 then proxies else (Returns r, [targetUrl])
  | Rejects AbortError => if aborted w 1 then (Throws UserAbort, [targetUrl]) else proxies
  | Rejects _ => proxies
  end.

End Strategies.

End SmartProxy.

(** ** The browser indexing service with the circuit breaker
       (services/indexingService.ts, the version with [CHUNK_SIZE = 5])

    The second version of [IndexingService.submitGoogleUrls] has no retry:
    every URL costs one call of [fetchWithSmartProxy], the URLs of a chunk
    of five are submitted together, and any 403 or 429 that is not ok ends
    the call after its chunk.  As in [IndexingService], the replies are
    indexed by the number of calls started before, and the user raises no
    abort signal. *)

Module CircuitBreaker.

Import IndexingService.

(** What [fetchWithSmartProxy] hands back: a response with its status, or an
    exception, other than an abort, with its message. *)
Inductive proxy_reply :=
| Responds (status : Z)
| Throws (message : string).

Definition google_api := nat → string → proxy_reply.

Record url_result := {
  r_success : bool;
  r_fatal : bool;
  r_msg : option string
}.

(** The body of [chunk.map(async (url) => ...)] after the call returned. *)
Definition resultOf (reply : proxy_reply) : url_result :=
  match reply with
  | Responds status =>
      if res_ok status then {| r_success := true; r_fatal := false; r_msg := None |}
      else if status =? 403 then
        {| r_success := false; r_fatal := true;
           r_msg := Some "403 Forbidden (Verify GSC Owner)" |}
      else if status =? 429 then
        {| r_success := false; r_fatal := true;
           r_msg := Some "429 Quota Exceeded (200/Day Limit Reached)" |}
      else
        {| r_success := false; r_fatal := false;
           r_msg := Some (String.append "HTTP " (pretty status)) |}
  | Throws message =>
      {| r_success := false; r_fatal := false;
         r_msg := Some (if Str.truthy message then message else "Network Error") |}
  end.

(** The replies that end the whole call. *)
Definition isFatal (reply : proxy_reply) : bool :=
  negb (r_success (resultOf reply)) && r_fatal (resultOf reply).

(** [chunk.map(...)] followed by [Promise.all]: the calls of a chunk are
    started one after the other, before any reply is awaited, and the
    results come in the order of the chunk. *)
Fixpoint startChunk (api : google_api) (chunk : list string) (s : net)
    : list url_result * net :=
  match chunk with
  | [] => ([], s)
  | url :: rest =>
      let r := resultOf (api (length (requests s)) url) in
      let '(rs, s1) := startChunk api rest (send url s) in
      (r :: rs, s1)
  end.

Record google_summary := {
  submitted : nat;
  errors : nat;
  errorDetails : list string;
  abort : bool
}.

Definition pushDetail (m : option string) (details : list string) : list string :=
  match m with
  | Some x => if Str.truthy x && negb (bool_decide (x ∈ details)) then details ++ [x]
              else details
  | None => details
  end.

(** One step of [results.forEach]; the field [abort] holds [fatalError]. *)
Definition tally (acc : google_summary) (r : url_result) : google_summary :=
  if r_success r then
    {| submitted := S (submitted acc); errors := errors acc;
       errorDetails := errorDetails acc; abort := abort acc |}
  else
    {| submitted := submitted acc; errors := S (errors acc);
       errorDetails := pushDetail (r_msg r) (errorDetails acc);
       abort := abort acc || r_fatal r |}.

(** The [for] loop over the chunks: 600 ms between chunks, and a return
    after the first chunk with a fatal result. *)
Fixpoint submitChunks (api : google_api) (chunkList : list (list string))
    (acc : google_summary) (s : net) : google_summary * net :=
  match chunkList with
  | [] => (acc, s)
  | chunk :: rest =>
      let '(results, s1) := startChunk api chunk s in
      let acc1 := foldl tally acc results in
      if abort acc1 then (acc1, s1)
      else submitChunks api rest acc1 (match rest with [] => s1 | _ => sleep 600 s1 end)
  end.

Definition CHUNK_SIZE : nat := 5.

Definition submitGoogleUrls (api : google_api) (urls : list string) (s : net)
  : google_summary * net :=
  submitChunks api (chunks (length urls) CHUNK_SIZE urls)
    {| submitted := 0; errors := 0; errorDetails := []; abort := false |} s.

(** Phase B of [handleStartScan] over this service: batches of 10, left at
    the first batch that asks to abort. *)
Fixpoint googleBatches (api : google_api) (batches : list (list string))
    (acc : phase_b) (s : net) : phase_b * net :=
  match batches with
  | [] => (acc, s)
  | batch :: rest =>
      let '(res, s1) := submitGoogleUrls api batch s in
      let acc1 := {| gSubmitted := (gSubmitted acc + submitted res)%nat;
                     gErrors := (gErrors acc + errors res)%nat;
                     logIds := logIds acc |} in
      if abort res then
        ({| gSubmitted := gSubmitted acc1; gErrors := gErrors acc1;
            logIds := logIds acc1 ++ ["g_abort"] |}, s1)
      else googleBatches api rest acc1 s1
  end.

Definition googlePhase (api : google_api) (allLocs : list string) (s : net)
  : phase_b * net :=
  let '(b, s1) :=
    googleBatches api (chunks (length allLocs) 10 allLocs)
      {| gSubmitted := 0; gErrors := 0; logIds := ["goog_start"] |} s in
  ({| gSubmitted := gSubmitted b; gErrors := gErrors b;
      logIds := logIds b ++ ["done"] |}, s1).

(** No call of the log was answered by a fatal reply. *)
Definition clean (api : google_api) (reqs : list string) : Prop :=
  ∀ n url, reqs !! n = Some url → isFatal (api n url) = false.

(** The log ends with a chunk of at most five calls, and no call before that
    chunk was answered by a fatal reply. *)
Definition fatal_in_last_chunk (api : google_api) (reqs : list string) : Prop :=
  ∃ pre chunk, reqs = pre ++ chunk ∧ clean api pre ∧ (length chunk ≤ CHUNK_SIZE)%nat.

End CircuitBreaker.

(** * Scenarios and auxiliary predicates *)

Section IndexingService_google_data.
Import IndexingService.

(** The first request is answered 403 with an ownership message, as in
    scenario S4. *)
Definition ownership403 : google_api :=
  fun n _ => if (n =? 0)%nat then Reply 403 "Permission denied: ownership" else Reply 200 "".

(** The same for the service with the circuit breaker: the first call is
    answered 403, the others 200. *)
Definition forbiddenFirst : CircuitBreaker.google_api :=
  fun n _ => if (n =? 0)%nat then CircuitBreaker.Responds 403 else CircuitBreaker.Responds 200.

End IndexingService_google_data.

Section IndexNow_batches_data.
Import IndexNowAdaptive.

(** The URLs of the scenario: [n] distinct locations. *)
Definition sampleUrls (n : nat) : list string :=
  map (fun i => String.append "http://t/" (pretty i)) (seq 0 n).

(** An endpoint that rejects a batch of 40 with 422 and accepts anything
    else. *)
Definition rejects40 : indexnow_api :=
  fun _ urls => if (length urls =? 40)%nat then Reply 422 "Unprocessable" else Reply 200 "".


End IndexNow_batches_data.

Section Google_quota_data.
Import GoogleWorker.

(** Rows and payloads of the scenarios. *)
Definition sampleRow (id loc : string) : url_row :=
  {| u_id := id; u_projectId := "p"; u_sitemapId := None; u_loc := loc;
     u_locHash := loc; u_lastmod := None; u_changefreq := None; u_priority := None;
     u_googleStatus := Some DISCOVERED; u_googleSubmittedAt := None;
     u_bingStatus := Some DISCOVERED; u_bingSubmittedAt := None; u_firstSeenAt := 0 |}.

Definition fiveUrls : list url_row :=
  [sampleRow "1" "http://t/a"; sampleRow "2" "http://t/b"; sampleRow "3" "http://t/c";
   sampleRow "4" "http://t/d"; sampleRow "5" "http://t/e"].

(** [used = 198] for project [p] on day 0. *)
Definition used198 : db :=
  {| urls_t := fiveUrls; submissions_t := [];
     quota_t := {[ ("p", GOOGLE, 0) := 198 ]} |}.

Definition payloadOf (job : string) (ids : list string) : GoogleSubmitterPayload :=
  {| projectId := "p"; jobId := job; urlIds := ids; action := "URL_UPDATED" |}.

Definition always200 : google_api := fun _ _ => Resolved 200.

Definition always403 : google_api :=
  fun _ _ => Rejected (Some 403) "Permission denied: ownership".

End Google_quota_data.

Section Quota_increments_data.


(** An endpoint that rejects everything. *)
Definition engines_down : IndexNowWorker.indexnow_api :=
  fun _ _ _ => IndexNowWorker.Response 500 "down".

Definition indexnowDb : IndexNowWorker.db :=
  {| IndexNowWorker.urls_t := fiveUrls; IndexNowWorker.submissions_t := [];
     IndexNowWorker.quota_t := ∅ |}.

Definition indexnowPayload : IndexNowWorker.IndexNowPayload :=
  {| IndexNowWorker.projectId := "p"; IndexNowWorker.jobId := "j";
     IndexNowWorker.urlIds := ["1"; "2"; "3"] |}.

(** The rows a job appended to [submissions] that are COMPLETED. *)
Definition completedRows (before after : list submission_row) : nat :=
  length (filter (fun r => s_status r = COMPLETED) (drop (length before) after)).

End Quota_increments_data.

Section Upsert_examples_data.
Import UrlStore.

(** Stand-ins for the digest and the identifier generator in the examples. *)
Definition digestOf (s : string) : string := String.append "sha256:" s.
Definition idOf (n : nat) : string := String.append "id-" (pretty n).

(** Stand-ins for the date parser and the number column: one text is no
    date, and the number 10 does not fit [decimal(2,1)]. *)
Definition sampleDate (text : string) : option string :=
  if decide (text = "not a date") then None else Some text.
Definition sampleDecimal (number : string) : option string :=
  if decide (number = "10") then None else Some number.

Definition entryOf (l : string) (m : option string) : ParsedUrl :=
  {| loc := l; lastmod := m; changefreq := None; priority := None |}.

Definition twoEntries : list ParsedUrl :=
  [entryOf "http://t/x" (Some "2024-02-02"); entryOf "http://t/y" None].

(** The table before the scan: [x] is known since time 3. *)
Definition knownX : list url_row :=
  [{| u_id := "id-x"; u_projectId := "p"; u_sitemapId := None; u_loc := "http://t/x";
      u_locHash := digestOf "http://t/x"; u_lastmod := Some "2024-01-01";
      u_changefreq := None; u_priority := None; u_googleStatus := Some SUBMITTED;
      u_googleSubmittedAt := Some 4; u_bingStatus := Some DISCOVERED;
      u_bingSubmittedAt := None; u_firstSeenAt := 3 |}].

End Upsert_examples_data.

Section Project_counters_data.
Import UrlStore.

Definition statusRow (id : string) (st : option indexing_status) : url_row :=
  {| u_id := id; u_projectId := "p"; u_sitemapId := None; u_loc := id;
     u_locHash := id; u_lastmod := None; u_changefreq := None; u_priority := None;
     u_googleStatus := st; u_googleSubmittedAt := None;
     u_bingStatus := Some DISCOVERED; u_bingSubmittedAt := None; u_firstSeenAt := 0 |}.

Definition threeStatuses : list url_row :=
  [statusRow "1" (Some SUBMITTED); statusRow "2" (Some DISCOVERED);
   statusRow "3" (Some INDEXED)].

Definition projectP : project_row :=
  {| p_id := "p"; p_domain := "t"; p_sitemapUrl := "http://t/sm.xml";
     p_totalUrls := 0; p_indexedUrls := 0; p_pendingUrls := 0; p_errorUrls := 0;
     p_lastScanAt := None; p_updatedAt := 0 |}.

Definition projectP_after : project_row :=
  {| p_id := "p"; p_domain := "t"; p_sitemapUrl := "http://t/sm.xml";
     p_totalUrls := 3; p_indexedUrls := 1; p_pendingUrls := 1; p_errorUrls := 0;
     p_lastScanAt := Some 5; p_updatedAt := 5 |}.

End Project_counters_data.

Section Streamer_run_data.
Import SitemapStreamer.

(** What every call of the recursive function guarantees, given enough
    fuel for the sitemaps still unvisited. *)
Definition returns_once (w : web) (fuel : nat)
    (rec : string → streamer → option (outcome * streamer)) : Prop :=
  ∀ url s, fetched_once s → (unvisited w s < fuel)%nat →
    ∃ o s', rec url s = Some (o, s') ∧ fetched_once s' ∧
            visitedSitemaps s ⊆ visitedSitemaps s'.

End Streamer_run_data.

Section Scan_scenarios_data.


(** Scenario S2: [sm1] and [sm2] are indexes that reference each other. *)
Definition indexEvents (child : string) : list Scanner.sax_event :=
  [Scanner.OpenTag "sitemapindex"; Scanner.OpenTag "sitemap"; Scanner.OpenTag "loc";
   Scanner.TextNode child; Scanner.CloseTag "loc"; Scanner.CloseTag "sitemap";
   Scanner.CloseTag "sitemapindex"].

Definition cyclicServer : Scanner.sitemap_web :=
  fun u => if decide (u = "http://t/sm1") then Some (indexEvents "http://t/sm2")
           else if decide (u = "http://t/sm2") then Some (indexEvents "http://t/sm1")
           else None.

Definition indexDoc (child : string) : Dom.node :=
  Dom.Element "sitemapindex" []
    [Dom.Element "sitemap" [] [Dom.Element "loc" [] [Dom.Text child]]].

Definition pageOf (doc : Dom.node) : SitemapStreamer.page :=
  {| SitemapStreamer.ok := true; SitemapStreamer.xmlText := "<xml/>";
     SitemapStreamer.xmlDoc := doc |}.

Definition cyclicWeb : SitemapStreamer.web :=
  {[ "http://t/sm1" := pageOf (indexDoc "http://t/sm2");
     "http://t/sm2" := pageOf (indexDoc "http://t/sm1") ]}.

(** A stand-in for the check of [new URL(url)]: the sample URLs are
    accepted when they start with a scheme of the web. *)
Definition absoluteUrl (url : string) : bool :=
  String.prefix "http://" url || String.prefix "https://" url.

Definition freshStreamer : SitemapStreamer.streamer :=
  {| SitemapStreamer.visitedSitemaps := ∅; SitemapStreamer.fetches := [];
     SitemapStreamer.urlFound := [] |}.

(** A chain of thirteen sitemaps: [sm0] to [sm11] are indexes, each with
    the next one as its only child, and [sm12] is a urlset of one URL. *)
Definition chainUrl (n : nat) : string := String.append "http://t/sm" (pretty n).

Definition leafEvents : list Scanner.sax_event :=
  [Scanner.OpenTag "urlset"; Scanner.OpenTag "url"; Scanner.OpenTag "loc";
   Scanner.TextNode "http://t/page"; Scanner.CloseTag "loc"; Scanner.CloseTag "url";
   Scanner.CloseTag "urlset"].

Definition chainServer : Scanner.sitemap_web :=
  fun u => if decide (u = chainUrl 12) then Some leafEvents
           else (fun n => indexEvents (chainUrl (S n)))
                  <$> head (filter (fun n => chainUrl n = u) (seq 0 12)).

End Scan_scenarios_data.

Section Feeds_data.
Import Dom SitemapStreamer.

(** The link elements the feed branch looks at: children of an [item] or of
    an [entry], in document order. *)
Definition feedLinkElements (doc : node) : list node :=
  map snd (filter (fun e : option string * node =>
                     tagOf e.2 = Some "link" ∧ (e.1 = Some "item" ∨ e.1 = Some "entry"))
             (elementsUnder None doc)).

(** No element of the document has the tag [t]. *)
Definition noElement (t : string) (doc : node) : Prop :=
  ∀ e, e ∈ elementsUnder None doc → tagOf e.2 ≠ Some t.

Definition rssDoc : node :=
  Element "rss" [("version", "2.0")]
    [Element "channel" []
       [Element "title" [] [Text "News"];
        Element "link" [] [Text "http://t/"];
        Element "item" [] [Element "title" [] [Text "One"];
                           Element "link" [] [Text " http://t/one "]];
        Element "item" [] [Element "link" [] [Text "http://t/two"]]]].

Definition atomDoc : node :=
  Element "feed" []
    [Element "title" [] [Text "News"];
     Element "entry" [] [Element "link" [("rel", "alternate"); ("href", "http://t/e1")] []];
     Element "entry" [] [Element "link" [] []]].

Definition rssEvents : list Scanner.sax_event :=
  [Scanner.OpenTag "rss"; Scanner.OpenTag "channel";
   Scanner.OpenTag "item"; Scanner.OpenTag "link"; Scanner.TextNode "http://t/one";
   Scanner.CloseTag "link"; Scanner.CloseTag "item";
   Scanner.CloseTag "channel"; Scanner.CloseTag "rss"].

Definition feedWeb : web :=
  {[ "http://t/rss" := pageOf rssDoc; "http://t/atom" := pageOf atomDoc ]}.

End Feeds_data.

Section Bus_example_data.
Import EventBus.

(** A serialisation for the example. *)
Definition showMessage (m : WSMessage) : string :=
  String.append (type m) (String.append " " (payload m)).

(** Sockets 1 (open) and 2 (closed) subscribed to project [proj] of [org]. *)
Definition twoSockets : instance :=
  {| connections := {[ "org:proj" := {[ 1%nat; 2%nat ]} ]};
     readyState := {[ 1%nat := OPEN; 2%nat := CLOSED ]};
     sent := []; published := [] |}.

Definition logMessage : WSMessage := {| type := "LOG"; payload := "scan started" |}.

End Bus_example_data.

Section Vault_data.

(** Stand-ins for the primitives, to run the vault on an example: the key
    is a prefix of passphrase and salt, the ciphertext is the plaintext and
    the tag is key, IV and ciphertext in a row. *)
Definition plainScrypt (password saltBytes : string) (n : nat) : string :=
  Vault.copyInto n (String.append password saltBytes).

Definition plainSeal (key ivBytes p : string) : string * string :=
  (p, String.append key (String.append ivBytes p)).

Definition plainOpen (key ivBytes c t : string) : option string :=
  if decide (t = String.append key (String.append ivBytes c)) then Some c else None.

Definition passphrase : option string := Some "0123456789abcdef0123456789abcdef".

End Vault_data.

(** * Auxiliary definitions of the further properties *)

Section IndexingService_timers_data.

(** The longest time [attemptUrl] can spend in its timers when it is
    started with [retries] attempts and a first pause of [backoff]: every
    attempt but the last may be followed by a pause, and a pause is at most
    one and a half times the one before. *)
Fixpoint sleepBound (retries : nat) (backoff : Z) : Z :=
  match retries with
  | O => 0
  | S k =>
      match k with
      | O => 0
      | S _ => backoff + sleepBound k (backoff * 3 / 2)
      end
  end.

End IndexingService_timers_data.

Section Streamer_outcome_data.
Import SitemapStreamer.

(** The page of [url] cannot be read: the fetch throws or answers with a
    status that is not ok, or the body is empty and does not parse. *)
Definition unreadable (w : web) (url : string) : bool :=
  match w !! url with
  | None => true
  | Some p =>
      negb (ok p)
      || (bool_decide (is_Some (Dom.querySelector (Dom.Tag "parsererror") (xmlDoc p)))
          && negb (0 <? String.length (Str.trim (xmlText p)))%nat)
  end.

(** What every call of the recursive function guarantees about its outcome
    and about the counts it reports through [onUrlFound]. *)
Definition reports_all (w : web)
    (rec : string → streamer → option (outcome * streamer)) : Prop :=
  ∀ url s o s', rec url s = Some (o, s') →
    visitedSitemaps s ⊆ visitedSitemaps s' ∧
    ((∃ x, x ∈ visitedSitemaps s) → o ≠ Throws) ∧
    match o with
    | Ok urls =>
        sum_list (urlFound s') = (sum_list (urlFound s) + length urls)%nat ∧
        Forall (fun u => Str.truthy (loc u) = true) urls
    | Throws => unreadable w url = true ∧ urlFound s' = urlFound s
    end.

End Streamer_outcome_data.

Section Parser_round_trip_data.
Import UrlStore Scanner.

(** The events of [<tag>x</tag>] for an optional value. *)
Definition fieldEvents (tag : string) (v : option string) : list sax_event :=
  match v with
  | Some x => [OpenTag tag; TextNode x; CloseTag tag]
  | None => []
  end.

(** The events of one [<url>] element and of a whole [<urlset>] body. *)
Definition urlEvents (u : ParsedUrl) : list sax_event :=
  [OpenTag "url"; OpenTag "loc"; TextNode (loc u); CloseTag "loc"]
  ++ fieldEvents "lastmod" (lastmod u)
  ++ fieldEvents "changefreq" (changefreq u)
  ++ fieldEvents "priority" (priority u)
  ++ [CloseTag "url"].

Definition urlsetEvents (us : list ParsedUrl) : list sax_event :=
  OpenTag "urlset" :: flat_map urlEvents us ++ [CloseTag "urlset"].

(** The events of a [<sitemapindex>] body with the given children. *)
Definition sitemapEvents (child : string) : list sax_event :=
  [OpenTag "sitemap"; OpenTag "loc"; TextNode child; CloseTag "loc"; CloseTag "sitemap"].

Definition sitemapindexEvents (cs : list string) : list sax_event :=
  OpenTag "sitemapindex" :: flat_map sitemapEvents cs ++ [CloseTag "sitemapindex"].

(** A text that [trim] leaves as it is and that is not empty. *)
Definition trimmed (x : string) : Prop := Str.trim x = x ∧ Str.truthy x = true.

Definition trimmedField (v : option string) : Prop :=
  match v with Some x => trimmed x | None => True end.

Definition trimmedUrl (u : ParsedUrl) : Prop :=
  trimmed (loc u) ∧ trimmedField (lastmod u) ∧ trimmedField (changefreq u)
  ∧ trimmedField (priority u).

(** What the handlers keep true of the parser state. *)
Definition locsNonEmpty (p : parser) : Prop :=
  Forall (fun u => Str.truthy (loc u) = true) (urls p) ∧
  Forall (fun c => Str.truthy c = true) (childSitemaps p) ∧
  (∀ l, c_loc (currentUrl p) = Some l → Str.truthy l = true).

(** The scan after [k] more runs of the handler, the queue being served in
    order. *)
Fixpoint afterRuns (k : nat) (w : sitemap_web) (rootUrl : string) (s : scan) : scan :=
  match k, queue s with
  | S k', job :: rest => afterRuns k' w rootUrl (sitemapScannerWorker w rootUrl job rest s)
  | _, _ => s
  end.

Definition twoUrls : list ParsedUrl :=
  [{| loc := "http://t/a"; lastmod := Some "2024-01-01"; changefreq := None;
      priority := Some "0.8" |};
   {| loc := "http://t/b"; lastmod := None; changefreq := Some "daily"; priority := None |}].

End Parser_round_trip_data.

Section Upsert_rows_data.

(** A row as the batch upsert of sitemap [sid] of project [pid] inserts
    it and leaves it. *)
Definition discoveredBy (pid sid : string) (r : url_row) : Prop :=
  u_projectId r = pid ∧ u_sitemapId r = Some sid ∧
  u_googleStatus r = Some DISCOVERED ∧ u_bingStatus r = Some DISCOVERED ∧
  u_googleSubmittedAt r = None ∧ u_bingSubmittedAt r = None.

End Upsert_rows_data.

Section Bus_relay_data.
Import EventBus WebSocketServer.

(** What the broker hands to another instance: every published message
    whose channel matches [ws:*] is passed to the listener of [target]. *)
Definition relayTo (target : instance) (msgs : list (string * string)) : instance :=
  foldl (fun (acc : instance) (cm : string * string) =>
           if String.prefix "ws:" cm.1 then subscribeToRedis cm.2 cm.1 acc else acc)
        target msgs.

(** The instance has a connection registered for the key, open or not. *)
Definition hasLocalConnection (i : instance) (key : string) : Prop :=
  ∃ conns, connections i !! key = Some conns ∧ conns ≠ ∅.

(** No key of the [connections] map is left with an empty set. *)
Definition noEmptySet (i : instance) : Prop :=
  ∀ key conns, connections i !! key = Some conns → conns ≠ ∅.

(** An instance with no connection at all. *)
Definition idleInstance : instance :=
  {| connections := ∅; readyState := ∅; sent := []; published := [] |}.

Definition freshServer : server :=
  {| bus := idleInstance; isAlive := ∅; closed := []; pinged := []; terminated := [] |}.

(** A token check for the examples: the token names the user, of
    organisation [org]; the token [nobody] is of no user and the check of
    the token [broken] is rejected. *)
Definition tokenIsUser (tok : string) : verified :=
  if decide (tok = "broken") then Rejects
  else if decide (tok = "nobody") then NoUser
  else User {| id := tok; organizationId := "org" |}.

(** Sockets on which [send] works, and sockets on which it throws. *)
Definition sendWorks (ws : nat) : bool := false.
Definition sendFails (ws : nat) : bool := true.

Definition connectedText (projectId userId : string) : string :=
  String.append "CONNECTED " (String.append projectId (String.append " " userId)).

End Bus_relay_data.

Section Tokens_data.

(** Every character of the string is a hexadecimal digit. *)
Fixpoint allHex (s : string) : bool :=
  match s with
  | EmptyString => true
  | String c r => bool_decide (is_Some (Vault.nibble c)) && allHex r
  end.

(** A source of "random" bytes for the examples. *)
Fixpoint countingBytes (n : nat) : string :=
  match n with
  | O => EmptyString
  | S k => String (ascii_of_nat (17 * n)%nat) (countingBytes k)
  end.

End Tokens_data.

Section App_data.
Import App.

(** The chart the application starts a job with. *)
Definition startChart : list ChartDataPoint :=
  [{| name := "Start"; value := 0; secondary := 0 |}].

(** The chart after the calls of [appendChartData] with the given labels
    and numbers, oldest first. *)
Definition chartAfter (calls : list (string * Z * Z)) (chart : list ChartDataPoint)
  : list ChartDataPoint :=
  foldl (fun acc c => appendChartData c.1.1 c.1.2 c.2 acc) chart calls.

End App_data.

Section Router_data.
Import ProjectsRouter.

(** The jobs of a project and type that are pending or processing. *)
Definition activeJobs (projectId : string) (type : job_type) (jobs : list job_row)
  : list job_row :=
  filter (fun j => j_projectId j = projectId ∧ j_type j = type ∧ inProgress j) jobs.

(** The ids of the projects of an organization in one of two states of
    the database. *)
Definition ownIds (organizationId : string) (d d' : db) : list string :=
  map pr_id (filter (fun p => pr_organizationId p = organizationId)
               (projects_t d ++ projects_t d')).



End Router_data.

Section Proxy_data.
Import SmartProxy.

(** The proxy URLs a request may be sent to, in the order of the
    rotation. *)
Definition proxyUrls (body : bool) (targetUrl : string) (strategies : list strategy)
  : list string :=
  map (fun s => fn s targetUrl)
      (filter (fun s => ¬ (body && negb (supportsBody s))) strategies).

(** A network in which the browser refuses the direct request, the first
    proxy route relays a 429 of the target with a quota message, and every
    later fetch is answered 200.  The user raises no abort signal. *)
Definition quotaBehindProxy : world :=
  {| fetch := fun n _ =>
       match n with
       | 0%nat => Rejects (OtherError "Failed to fetch")
       | 1%nat => Responds {| status := 429; ok := false; text := "Quota exceeded";
                              originalStatus := true |}
       | _ => Responds {| status := 200; ok := true; text := "{}"; originalStatus := false |}
       end;
     aborted := fun _ => false |}.

End Proxy_data.

(** * Properties *)

(** ** Quota rows *)

Section Quota_facts.
Import Quota.

Lemma used_upsert q k d : used (upsert k d q) k = used q k + d.
Proof.
  unfold used, upsert. destruct (q !! k) as [u|] eqn:E.
  - by rewrite lookup_insert_eq.
  - rewrite lookup_insert_eq. simpl. lia.
Qed.

Lemma used_upsert_ne q k k' d : k ≠ k' → used (upsert k d q) k' = used q k'.
Proof.
  intros Hne. unfold used, upsert.
  destruct (q !! k); by rewrite lookup_insert_ne.
Qed.

Lemma used_upserts k deltas : ∀ q, used (upserts k deltas q) k = used q k + sumZ deltas.
Proof.
  induction deltas as [|d ds IH]; intros q; simpl.
  - lia.
  - unfold upserts in *. simpl. rewrite IH, used_upsert. lia.
Qed.

Lemma sumZ_perm l1 l2 : l1 ≡ₚ l2 → sumZ l1 = sumZ l2.
Proof. induction 1; simpl in *; lia. Qed.

Lemma sumZ_nonneg l : Forall (fun d => 0 <= d) l → 0 <= sumZ l.
Proof. induction 1; simpl; lia. Qed.

End Quota_facts.

(** ** Fatal replies in the browser indexing service *)

Section IndexingService_google.
Import IndexingService.

Lemma clean_nil api : clean api [].
Proof. intros n url H. by rewrite lookup_nil in H. Qed.

Lemma clean_snoc api reqs u :
  clean api reqs → isFatal (api (length reqs) u) = false → clean api (reqs ++ [u]).
Proof.
  intros Hc Hu n url Hn.
  destruct (decide (n < length reqs)%nat) as [Hlt|Hge].
  - rewrite lookup_app_l in Hn by done. by apply Hc.
  - rewrite lookup_app_r in Hn by lia.
    destruct (n - length reqs)%nat as [|m] eqn:E; simpl in Hn; [|by rewrite lookup_nil in Hn].
    inversion Hn; subst. replace n with (length reqs) by lia. done.
Qed.

Lemma fatal_last_only api reqs n url :
  fatal_last api reqs → reqs !! n = Some url → isFatal (api n url) = true →
  S n = length reqs.
Proof.
  intros (pre & u & -> & Hc & Hu) Hn Hf.
  rewrite length_app. simpl.
  destruct (decide (n < length pre)%nat) as [Hlt|Hge].
  - rewrite lookup_app_l in Hn by done. rewrite (Hc _ _ Hn) in Hf. discriminate.
  - apply lookup_lt_Some in Hn. rewrite length_app in Hn. simpl in Hn. lia.
Qed.

Lemma attemptUrl_fatal api url : ∀ retries backoff s r s',
  clean api (requests s) →
  attemptUrl retries backoff api url s = (r, s') →
  (r_fatal r = false ∧ clean api (requests s')) ∨
  (r_success r = false ∧ r_fatal r = true ∧
   (r_msg r = Some QuotaExceeded ∨ r_msg r = Some PermissionDenied) ∧
   fatal_last api (requests s')).
Proof.
  induction retries as [|k IH]; intros backoff s r s' Hc Hrun; simpl in Hrun.
  - inversion Hrun; subst. by left.
  - destruct (api (length (requests s)) url) as [status msg|] eqn:Hreply.
    + destruct (res_ok status) eqn:Hok.
      { inversion Hrun; subst. left. split; [done|]. simpl.
        apply clean_snoc; [done|]. rewrite Hreply. simpl. by rewrite Hok. }
      destruct (status =? 429) eqn:H429.
      { destruct (Str.includes (Str.toLowerCase msg) "quota") eqn:Hq.
        - inversion Hrun; subst. right. simpl. repeat split; [by left|].
          exists (requests s), url. repeat split; [done|].
          rewrite Hreply. simpl. by rewrite Hok, H429, Hq.
        - assert (Hc1 : clean api (requests s ++ [url])).
          { apply clean_snoc; [done|]. rewrite Hreply. simpl. by rewrite Hok, H429, Hq. }
          destruct (1 <? S k)%nat.
          + by apply IH in Hrun.
          + inversion Hrun; subst. by left. }
      destruct (status =? 403) eqn:H403.
      { destruct (Str.includes msg "permission" || Str.includes msg "ownership") eqn:Hp.
        - inversion Hrun; subst. right. simpl. repeat split; [by right|].
          exists (requests s), url. repeat split; [done|].
          rewrite Hreply. simpl. by rewrite Hok, H429, H403, Hp.
        - inversion Hrun; subst. left. split; [done|]. simpl.
          apply clean_snoc; [done|]. rewrite Hreply. simpl. by rewrite Hok, H429, H403, Hp. }
      inversion Hrun; subst. left. split; [done|]. simpl.
      apply clean_snoc; [done|]. rewrite Hreply. simpl. by rewrite Hok, H429, H403.
    + assert (Hc1 : clean api (requests s ++ [url])).
      { apply clean_snoc; [done|]. by rewrite Hreply. }
      destruct (1 <? S k)%nat.
      * by apply IH in Hrun.
      * inversion Hrun; subst. by left.
Qed.

#[local] Arguments attemptUrl : simpl never.

Lemma pushDetail_elem x details : x ∈ pushDetail (Some x) details.
Proof.
  unfold pushDetail. destruct (decide (x ∈ details)); [done|].
  apply elem_of_app. right. by apply list_elem_of_singleton.
Qed.

Lemma submitGoogleUrls_from_fatal api : ∀ urls acc s res s',
  clean api (requests s) → abort acc = false →
  submitGoogleUrls_from api urls acc s = (res, s') →
  (abort res = false ∧ clean api (requests s')) ∨
  (abort res = true ∧ fatal_last api (requests s') ∧
   (QuotaExceeded ∈ errorDetails res ∨ PermissionDenied ∈ errorDetails res)).
Proof.
  induction urls as [|url rest IH]; intros acc s res s' Hc Hacc Hrun; simpl in Hrun.
  - inversion Hrun; subst. by left.
  - destruct (attemptUrl 4 2000 api url s) as [r s1] eqn:Hat.
    apply attemptUrl_fatal in Hat; [|done].
    destruct Hat as [[Hnf Hc1] | (Hns & Hf & Hmsg & Hlast)].
    + destruct r as [sc ft m]. simpl in *. subst ft.
      destruct sc; simpl in Hrun; (apply IH in Hrun; [done| |done]); by destruct rest.
    + destruct r as [sc ft m]. simpl in *. subst sc ft.
      simpl in Hrun. inversion Hrun; subst. right. simpl.
      repeat split; [done|].
      destruct Hmsg as [-> | ->]; [left | right]; apply pushDetail_elem.
Qed.

Lemma googleBatches_fatal api : ∀ batches acc s b s',
  clean api (requests s) →
  googleBatches api batches acc s = (b, s') →
  (clean api (requests s') ∧ logIds b = logIds acc) ∨
  (fatal_last api (requests s') ∧ logIds b = (logIds acc ++ ["g_abort"])%list).
Proof.
  induction batches as [|batch rest IH]; intros acc s b s' Hc Hrun; simpl in Hrun.
  - inversion Hrun; subst. by left.
  - destruct (submitGoogleUrls api batch s) as [res s1] eqn:Hsub.
    unfold submitGoogleUrls in Hsub.
    apply submitGoogleUrls_from_fatal in Hsub; [|done..].
    destruct Hsub as [[Hna Hc1] | (Ha & Hlast & _)].
    + rewrite Hna in Hrun. by apply IH in Hrun.
    + rewrite Ha in Hrun. inversion Hrun; subst. by right.
Qed.

End IndexingService_google.

Section CircuitBreaker_google.
Import IndexingService.

Lemma chunks_at_most {A} size : ∀ fuel (xs : list A),
  Forall (fun c => (length c ≤ size)%nat) (chunks fuel size xs).
Proof.
  induction fuel as [|f IH]; intros [|x xs]; simpl; try by constructor.
  constructor; [|apply IH].
  change (length (take size (x :: xs)) ≤ size)%nat. rewrite length_take. lia.
Qed.

Lemma startChunk_requests api : ∀ chunk s rs s1,
  CircuitBreaker.startChunk api chunk s = (rs, s1) →
  requests s1 = requests s ++ chunk ∧
  (Forall (fun r => negb (CircuitBreaker.r_success r) && CircuitBreaker.r_fatal r = false) rs →
   CircuitBreaker.clean api (requests s) → CircuitBreaker.clean api (requests s1)).
Proof.
  induction chunk as [|url rest IH]; intros s rs s1 Hrun; simpl in Hrun.
  - inversion Hrun; subst. by rewrite app_nil_r.
  - destruct (CircuitBreaker.startChunk api rest (send url s)) as [rs' s'] eqn:Hrest.
    inversion Hrun; subst. apply IH in Hrest as (Hreq & Hclean).
    split; [rewrite Hreq; simpl; by rewrite <- app_assoc|].
    intros Hall Hc. apply Forall_cons in Hall as [Hhead Hall].
    apply Hclean; [done|]. simpl. intros n u Hn.
    destruct (decide (n < length (requests s))%nat) as [Hlt|Hge].
    + rewrite lookup_app_l in Hn by done. by apply Hc.
    + rewrite lookup_app_r in Hn by lia.
      destruct (n - length (requests s))%nat as [|m] eqn:E; simpl in Hn;
        [|by rewrite lookup_nil in Hn].
      inversion Hn; subst. replace n with (length (requests s)) by lia. exact Hhead.
Qed.

Lemma tally_abort : ∀ rs acc,
  CircuitBreaker.abort (foldl CircuitBreaker.tally acc rs) = false →
  CircuitBreaker.abort acc = false ∧
  Forall (fun r => negb (CircuitBreaker.r_success r) && CircuitBreaker.r_fatal r = false) rs.
Proof.
  induction rs as [|r rs IH]; intros acc Hab; simpl in Hab; [by split|].
  apply IH in Hab as [Hacc Hall]. unfold CircuitBreaker.tally in Hacc.
  destruct (CircuitBreaker.r_success r) eqn:Hs; simpl in Hacc.
  - split; [done|]. constructor; [by rewrite Hs|done].
  - apply orb_false_iff in Hacc as [Ha Hf]. split; [done|].
    constructor; [by rewrite Hs, Hf|done].
Qed.

Lemma fatal_in_last_chunk_bound api reqs n url :
  CircuitBreaker.fatal_in_last_chunk api reqs → reqs !! n = Some url →
  CircuitBreaker.isFatal (api n url) = true →
  (length reqs ≤ n + CircuitBreaker.CHUNK_SIZE)%nat.
Proof.
  intros (pre & chunk & -> & Hc & Hlen) Hn Hf. rewrite length_app.
  destruct (decide (n < length pre)%nat) as [Hlt|Hge]; [|lia].
  rewrite lookup_app_l in Hn by done. rewrite (Hc _ _ Hn) in Hf. discriminate.
Qed.

Lemma submitChunks_fatal api : ∀ chunkList acc s res s',
  Forall (fun c => (length c ≤ CircuitBreaker.CHUNK_SIZE)%nat) chunkList →
  CircuitBreaker.clean api (requests s) →
  CircuitBreaker.submitChunks api chunkList acc s = (res, s') →
  (CircuitBreaker.abort res = CircuitBreaker.abort acc
   ∧ (CircuitBreaker.abort acc = false → CircuitBreaker.clean api (requests s')))
  ∨ (CircuitBreaker.abort res = true ∧ CircuitBreaker.fatal_in_last_chunk api (requests s')).
Proof.
  induction chunkList as [|chunk rest IH]; intros acc s res s' Hlen Hc Hrun; simpl in Hrun.
  - inversion Hrun; subst. by left.
  - apply Forall_cons in Hlen as [Hlen Hrest].
    destruct (CircuitBreaker.startChunk api chunk s) as [rs s1] eqn:Hstart.
    apply startChunk_requests in Hstart as (Hreq & Hclean).
    destruct (CircuitBreaker.abort (foldl CircuitBreaker.tally acc rs)) eqn:Hab.
    + inversion Hrun; subst. right. split; [done|].
      exists (requests s), chunk. by rewrite Hreq.
    + apply tally_abort in Hab as Hab'. destruct Hab' as [Hacc Hall].
      assert (Hc1 : CircuitBreaker.clean api (requests s1)) by by apply Hclean.
      apply IH in Hrun; [|done|by destruct rest].
      destruct Hrun as [[Hres Hcl] | Hfatal]; [|by right].
      left. rewrite Hres, Hab, Hacc. split; [done|]. intros _. by apply Hcl.
Qed.

Lemma breaker_batches_fatal api : ∀ batches acc s b s',
  CircuitBreaker.clean api (requests s) →
  CircuitBreaker.googleBatches api batches acc s = (b, s') →
  (CircuitBreaker.clean api (requests s') ∧ logIds b = logIds acc) ∨
  (CircuitBreaker.fatal_in_last_chunk api (requests s') ∧ logIds b = (logIds acc ++ ["g_abort"])%list).
Proof.
  induction batches as [|batch rest IH]; intros acc s b s' Hc Hrun; simpl in Hrun.
  - inversion Hrun; subst. by left.
  - destruct (CircuitBreaker.submitGoogleUrls api batch s) as [res s1] eqn:Hsub.
    unfold CircuitBreaker.submitGoogleUrls in Hsub.
    apply submitChunks_fatal in Hsub; [|apply chunks_at_most|done].
    destruct Hsub as [[Hna Hc1] | [Ha Hlast]].
    + simpl in Hna. rewrite Hna in Hrun. apply IH in Hrun; [done|by apply Hc1].
    + rewrite Ha in Hrun. inversion Hrun; subst. by right.
Qed.

End CircuitBreaker_google.

Section Fatal_replies.
Import IndexingService.

(** C2 (as amended): in the Google phase of the browser application
    ([handleStartScan] over [IndexingService.submitGoogleUrls]) a fatal reply
    ends the phase; a request is here one call of [fetchWithSmartProxy].
    With the retrying service ([CHUNK_SIZE = 1]) a reply that is a 429 whose
    message contains "quota" in any letter case, or a 403 whose message
    contains "permission" or "ownership", is the reply to the last call of
    the phase: no call follows it.  With the circuit-breaker service
    ([CHUNK_SIZE = 5]) any 403 or 429 is fatal and the phase ends with the
    chunk of five calls it belongs to: at most four calls follow it, those
    started together with it.  In both the phase then logs the abort and the
    job is closed by the same "done" entry as a job without errors; it is not
    marked FAILED. *)
Theorem googlePhase_fatal_reply_is_last :
  (∀ api allLocs b s' n url,
     googlePhase api allLocs {| requests := []; slept := 0 |} = (b, s') →
     requests s' !! n = Some url →
     isFatal (api n url) = true →
     S n = length (requests s') ∧ logIds b = ["goog_start"; "g_abort"; "done"])
  ∧ (∀ api allLocs b s' n url,
       CircuitBreaker.googlePhase api allLocs {| requests := []; slept := 0 |} = (b, s') →
       requests s' !! n = Some url →
       CircuitBreaker.isFatal (api n url) = true →
       (length (requests s') ≤ n + 5)%nat ∧ logIds b = ["goog_start"; "g_abort"; "done"]).
Proof.
  split.
  - unfold googlePhase. intros api allLocs b s' n url Hrun Hn Hf.
    destruct (googleBatches _ _ _ _) as [b0 s0] eqn:Hb. inversion Hrun; subst. simpl.
    apply googleBatches_fatal in Hb; [|apply clean_nil].
    destruct Hb as [[Hc _] | [Hlast Hlog]].
    + rewrite (Hc _ _ Hn) in Hf. discriminate.
    + split; [by eapply fatal_last_only|]. by rewrite Hlog.
  - unfold CircuitBreaker.googlePhase. intros api allLocs b s' n url Hrun Hn Hf.
    destruct (CircuitBreaker.googleBatches _ _ _ _) as [b0 s0] eqn:Hb.
    inversion Hrun; subst. simpl.
    apply breaker_batches_fatal in Hb;
      [|intros k u Hk; simpl in Hk; by rewrite lookup_nil in Hk].
    destruct Hb as [[Hc _] | [Hlast Hlog]].
    + rewrite (Hc _ _ Hn) in Hf. discriminate.
    + split; [by eapply fatal_in_last_chunk_bound|]. by rewrite Hlog.
Qed.

(** Scenario S4, an ownership 403 for the first of three URLs: the retrying
    service stops after one call.  The circuit breaker, whose five calls of
    the first chunk were started together, stops after five of seven. *)
Lemma googlePhase_fatal_witness :
  (let r := googlePhase ownership403 ["a"; "b"; "c"] {| requests := []; slept := 0 |} in
   S 0 = length (requests r.2) ∧ logIds r.1 = ["goog_start"; "g_abort"; "done"])
  ∧ (let r := CircuitBreaker.googlePhase forbiddenFirst ["a"; "b"; "c"; "d"; "e"; "f"; "g"]
                {| requests := []; slept := 0 |} in
     requests r.2 = ["a"; "b"; "c"; "d"; "e"]
     ∧ (length (requests r.2) ≤ 0 + 5)%nat
     ∧ logIds r.1 = ["goog_start"; "g_abort"; "done"]).
Proof.
  split.
  - apply (proj1 googlePhase_fatal_reply_is_last ownership403 ["a"; "b"; "c"] _ _ 0%nat "a");
      reflexivity.
  - cbv zeta. split; [reflexivity|].
    apply (proj2 googlePhase_fatal_reply_is_last forbiddenFirst
             ["a"; "b"; "c"; "d"; "e"; "f"; "g"] _ _ 0%nat "a"); reflexivity.
Defined.

End Fatal_replies.

(** ** IndexNow batches *)

Section IndexNow_batches.
Import IndexNowAdaptive.

#[local] Arguments attemptFuel : simpl never.







(** The queue worker posts the whole [urlList] at every attempt. *)
Lemma pRetryPost_posts_whole_list api endpoint urlList : ∀ retries posted0 r posted1,
  IndexNowWorker.pRetryPost retries api endpoint urlList posted0 = (r, posted1) →
  ∃ k, (1 ≤ k ≤ S retries)%nat ∧ posted1 = posted0 ++ replicate k urlList.
Proof.
  induction retries as [|n IH]; intros posted0 r posted1 Hrun; simpl in Hrun.
  - exists 1%nat. split; [lia|].
    destruct (api _ _ _) as [status txt|m]; [destruct (IndexNowWorker.res_ok status)|];
      by inversion Hrun.
  - destruct (api _ _ _) as [status txt|m]; [destruct (IndexNowWorker.res_ok status)|].
    + exists 1%nat. split; [lia|]. by inversion Hrun.
    + apply IH in Hrun as (k & Hk & ->). exists (S k). split; [lia|].
      by rewrite <- app_assoc.
    + apply IH in Hrun as (k & Hk & ->). exists (S k). split; [lia|].
      by rewrite <- app_assoc.
Qed.

(** The version that retries sends the whole batch at every attempt, at
    most three times. *)
Lemma attemptLoop_posts_whole_batch api urls : ∀ retries s r s',
  IndexNowRetry.attemptLoop retries api urls s = (r, s') →
  ∃ k, (1 ≤ k ≤ S retries)%nat ∧ posted s' = posted s ++ replicate k urls.
Proof.
  induction retries as [|n IH]; intros s r s' Hrun; simpl in Hrun.
  - exists 1%nat. split; [lia|].
    destruct (api _ _) as [status txt|]; [|by inversion Hrun].
    destruct (_ || _ || _); [by inversion Hrun|].
    destruct (_ || _); by inversion Hrun.
  - destruct (api _ _) as [status txt|].
    + destruct (_ || _ || _); [exists 1%nat; split; [lia|]; by inversion Hrun|].
      destruct (_ || _).
      * apply IH in Hrun as (k & Hk & ->). exists (S k). split; [lia|].
        simpl. by rewrite <- app_assoc.
      * exists 1%nat. split; [lia|]. by inversion Hrun.
    + apply IH in Hrun as (k & Hk & ->). exists (S k). split; [lia|].
      simpl. by rewrite <- app_assoc.
Qed.


(** Scenario S5 on the adaptive version: three requests (the batch, then
    its two halves), one second of waiting, [submitted = 40], [errors = 0]. *)
Example adaptive_S5 :
  attemptIndexNowBatch rejects40 (sampleUrls 40) {| posted := []; waited := 0 |}
  = Some ({| submitted := 40; errors := 0 |},
          {| posted := [sampleUrls 40; take 20 (sampleUrls 40); drop 20 (sampleUrls 40)];
             waited := 1000 |}).
Proof. vm_compute. reflexivity. Qed.



End IndexNow_batches.

(** ** Google submission jobs and the daily quota *)

Section Google_quota.
Import GoogleWorker.

Lemma submitAll_length api : ∀ urlRecords sent results n,
  submitAll api urlRecords sent = (results, n) → length results = length urlRecords.
Proof.
  induction urlRecords as [|r rest IH]; intros sent results n Hrun; simpl in Hrun.
  - by inversion Hrun.
  - destruct (submitSingleUrl api r sent) as [res n1].
    destruct (submitAll api rest n1) as [more n2] eqn:Hmore.
    inversion Hrun; subst. simpl. f_equal. by eapply IH.
Qed.

Lemma selectByIds_length ids t :
  NoDup (map u_id t) → (length (selectByIds ids t) ≤ length ids)%nat.
Proof.
  intros Hnd. unfold selectByIds. rewrite length_map.
  rewrite <- (length_map u_id (filter _ t)).
  apply submseteq_length, NoDup_submseteq.
  - apply (sublist_NoDup _ (map u_id t)); [exact Hnd|].
    apply (fmap_sublist u_id), sublist_filter.
  - intros x (r & -> & Hr)%list_elem_of_fmap. by apply list_elem_of_filter in Hr as [? _].
Qed.

Lemma slice0_length {A} (xs : list A) e : 0 < e → (Z.of_nat (length (slice0 xs e)) <= e).
Proof.
  intros He. unfold slice0. replace (e <? 0) with false by (symmetry; apply Z.ltb_ge; lia).
  rewrite length_take. lia.
Qed.

(** The two ways [submitAndRecord] ends: with no result it throws at the
    insertion of the submission records and leaves the tables; otherwise it
    writes the records, the statuses and the quota row and returns. *)
Lemma submitAndRecord_cases api today now p urlsToSubmit d :
  let run := submitAll api (selectByIds urlsToSubmit (urls_t d)) 0%nat in
  let successfulIds := map urlId (filter (fun r => success r = true) run.1) in
  (run.1 = [] ∧
   submitAndRecord api today now p urlsToSubmit d
   = (Threw "values() must be called with at least one value", d, run.2))
  ∨ (run.1 ≠ [] ∧
     submitAndRecord api today now p urlsToSubmit d
     = (Returned (successCountOf run.1) (failCountOf run.1),
        {| urls_t := if decide (successfulIds = []) then urls_t d
                     else map (markSubmitted now successfulIds) (urls_t d);
           submissions_t := submissions_t d ++ map (toSubmission (projectId p)) run.1;
           quota_t := Quota.upsert (projectId p, GOOGLE, today)
                        (Z.of_nat (successCountOf run.1)) (quota_t d) |},
        run.2)).
Proof.
  cbv zeta. unfold submitAndRecord.
  destruct (submitAll api (selectByIds urlsToSubmit (urls_t d)) 0%nat) as [[|r0 rs] sent];
    cbn [fst snd]; [by left|by right].
Qed.

(** A job that runs alone never records more successes than the quota left
    when it started: with [used ≤ 200] before, [used ≤ 200] after. *)
Lemma googleJob_alone_keeps_quota api credential today now p d o d' n :
  NoDup (map u_id (urls_t d)) →
  googleSubmitterWorker api credential today now p d = (o, d', n) →
  Quota.used (quota_t d) (projectId p, GOOGLE, today) <= DAILY_QUOTA →
  Quota.used (quota_t d') (projectId p, GOOGLE, today) <= DAILY_QUOTA.
Proof.
  intros Hnd Hrun Hle. unfold googleSubmitterWorker in Hrun.
  destruct credential; simpl in Hrun; [|by inversion Hrun; subst].
  unfold checkQuota in Hrun.
  destruct (_ <=? 0) eqn:Hrem; [by inversion Hrun; subst|].
  apply Z.leb_gt in Hrem.
  destruct (submitAndRecord_cases api today now p
              (slice0 (urlIds p) (DAILY_QUOTA - Quota.used (quota_t d) (projectId p, GOOGLE, today)))
              d) as [[_ Hthrew]|[_ Hret]]; cbv zeta in *;
    [rewrite Hthrew in Hrun; by inversion Hrun; subst|].
  rewrite Hret in Hrun. clear Hret.
  destruct (submitAll _ _ _) as [results sent] eqn:Hall. cbn [fst snd] in Hrun.
  inversion Hrun; subst. simpl. rewrite used_upsert.
  apply submitAll_length in Hall.
  pose proof (selectByIds_length
                (slice0 (urlIds p) (DAILY_QUOTA - Quota.used (quota_t d) (projectId p, GOOGLE, today)))
                (urls_t d) Hnd) as Hsel.
  pose proof (slice0_length (urlIds p) _ Hrem) as Hsl.
  pose proof (length_filter (fun r => success r = true) results) as Hf.
  unfold successCountOf. lia.
Qed.

Lemma googleJob_keeps_ids api credential today now p d :
  map u_id (urls_t (googleSubmitterWorker api credential today now p d).1.2)
  = map u_id (urls_t d).
Proof.
  unfold googleSubmitterWorker. destruct credential; simpl; [|done].
  destruct (checkQuota d p today) as [msg|ids]; [done|].
  destruct (submitAndRecord_cases api today now p ids d) as [[_ ->]|[_ ->]]; [done|].
  cbv zeta. cbn [fst snd urls_t].
  case_decide; [done|]. rewrite map_map. apply map_ext.
  intros r. unfold markSubmitted. by case_decide.
Qed.

(** Jobs of one project handled one after the other never take the row of
    the day above the quota. *)
Lemma googleJobs_in_turn_keep_quota today now pid : ∀ jobs d,
  NoDup (map u_id (urls_t d)) →
  Forall (fun job => projectId job.2 = pid) jobs →
  Quota.used (quota_t d) (pid, GOOGLE, today) <= DAILY_QUOTA →
  Quota.used (quota_t (runInTurn today now jobs d)) (pid, GOOGLE, today) <= DAILY_QUOTA.
Proof.
  induction jobs as [|[api p] jobs IH]; intros d Hnd Hpid Hle; [done|].
  apply Forall_cons in Hpid as [Hp Hpid]. simpl in Hp. subst pid.
  unfold runInTurn. simpl. apply IH; [|done|].
  - by rewrite googleJob_keeps_ids.
  - destruct (googleSubmitterWorker api true today now p d) as [[o d'] n] eqn:Hrun.
    by eapply googleJob_alone_keeps_quota.
Qed.

(** With the quota used up the job throws before any request. *)
Lemma googleJob_exhausted api today now p d :
  DAILY_QUOTA <= Quota.used (quota_t d) (projectId p, GOOGLE, today) →
  googleSubmitterWorker api true today now p d
  = (Threw "Daily Google Indexing API quota exhausted", d, 0%nat).
Proof.
  intros H. unfold googleSubmitterWorker, checkQuota. simpl.
  by replace (_ <=? 0) with true by (symmetry; apply Z.leb_le; lia).
Qed.

(** Scenario S3: [used = 198], five ids; two URLs are submitted, the row
    ends at 200, the other three stay DISCOVERED and the job returns. *)
Example google_S3 :
  let r := googleSubmitterWorker always200 true 0 7 (payloadOf "j" ["1"; "2"; "3"; "4"; "5"]) used198 in
  r.1.1 = Returned 2 0 ∧ r.2 = 2%nat ∧
  Quota.used (quota_t r.1.2) ("p", GOOGLE, 0) = 200 ∧
  map u_googleStatus (urls_t r.1.2)
  = [Some SUBMITTED; Some SUBMITTED; Some DISCOVERED; Some DISCOVERED; Some DISCOVERED].
Proof. vm_compute. done. Qed.

(** C1, at the failing input: two jobs of project [p] run on the worker at
    the same time ([concurrency: 5]); both read [used = 198] before either
    writes.  Each submits its two URLs, all four succeed, and the row ends at
    202: 202 successful submissions in the day. *)
Theorem google_quota_exceeded_by_overlapping_jobs :
  ∃ d', twoJobsInterleaved always200 always200 0 7
          (payloadOf "j1" ["1"; "2"]) (payloadOf "j2" ["3"; "4"]) used198
        = Some (Returned 2 0, Returned 2 0, d', 4%nat)
      ∧ Quota.used (quota_t d') ("p", GOOGLE, 0) = 202
      ∧ DAILY_QUOTA < Quota.used (quota_t d') ("p", GOOGLE, 0).
Proof. eexists. split; [vm_compute; reflexivity|]. by vm_compute. Qed.

(** C2, counterexample: the queue worker, when the first reply is a 403
    that mentions ownership (a reply the browser service treats as fatal).
    The same URL is requested three more times, the second URL is then
    requested four times, and the handler returns: eight requests, two FAILED
    submissions, no exception. *)
Lemma worker_goes_on_after_permission_denied :
  let r := googleSubmitterWorker always403 true 0 7 (payloadOf "j" ["1"; "2"]) used198 in
  IndexingService.isFatal (IndexingService.Reply 403 "Permission denied: ownership") = true ∧
  r.1.1 = Returned 0 2 ∧ r.2 = 8%nat ∧
  map s_status (submissions_t r.1.2) = [FAILED; FAILED].
Proof. vm_compute. done. Qed.

End Google_quota.

(** ** What the jobs add to the quota row *)

Section Quota_increments.

Lemma completed_of_results pid results :
  length (filter (fun r => s_status r = COMPLETED) (map (GoogleWorker.toSubmission pid) results))
  = GoogleWorker.successCountOf results.
Proof.
  unfold GoogleWorker.successCountOf.
  induction results as [|r rs IH]; [done|].
  simpl. rewrite !filter_cons. simpl.
  destruct (GoogleWorker.success r); simpl; repeat case_decide; simpl; congruence.
Qed.

(** C3, counterexample: an IndexNow job for three ids that no engine
    accepts records three FAILED submissions, no success, and still adds 3
    to the quota row. *)
Lemma indexnow_quota_counts_requested_ids :
  let r := IndexNowWorker.indexNowSubmitterWorker engines_down (Some "t") (Some "key") 0 7
             indexnowPayload indexnowDb in
  IndexNowWorker.acceptedCount r.1.1 indexnowDb r.1.2 = 0%nat ∧
  map s_status (IndexNowWorker.submissions_t r.1.2) = [FAILED; FAILED; FAILED] ∧
  Quota.used (IndexNowWorker.quota_t r.1.2) ("p", INDEXNOW, 0) = 3.
Proof. vm_compute. done. Qed.

(** C3 (as amended): a job that throws leaves the tables as they were;
    otherwise the quota row changes by the UPSERT [used = used + delta] alone,
    where a Google job adds the number of its successful submissions (the
    COMPLETED rows it wrote) and an IndexNow job adds the number of requested
    ids, [urlIds.length], whatever the engines answered; no delta is negative,
    so [used] never decreases, and jobs whose statements add [deltas] leave
    the initial value plus their sum in whatever order the statements are
    executed. *)
Theorem quota_used_grows_by_job_deltas :
  (∀ api credential today now p d o d' n,
     GoogleWorker.googleSubmitterWorker api credential today now p d = (o, d', n) →
     (∃ message, o = GoogleWorker.Threw message ∧ d' = d) ∨
     ∃ delta : nat,
       GoogleWorker.quota_t d'
       = Quota.upsert (GoogleWorker.projectId p, GOOGLE, today) (Z.of_nat delta)
           (GoogleWorker.quota_t d)
       ∧ delta = completedRows (GoogleWorker.submissions_t d) (GoogleWorker.submissions_t d')
       ∧ o = GoogleWorker.Returned delta
               (length (GoogleWorker.submissions_t d') - length (GoogleWorker.submissions_t d) - delta))
  ∧ (∀ api project credential today now p d o d' posts,
       IndexNowWorker.indexNowSubmitterWorker api project credential today now p d
       = (o, d', posts) →
       (∃ message, o = IndexNowWorker.Threw message ∧ d' = d) ∨
       IndexNowWorker.quota_t d'
       = Quota.upsert (IndexNowWorker.projectId p, INDEXNOW, today)
           (Z.of_nat (length (IndexNowWorker.urlIds p))) (IndexNowWorker.quota_t d))
  ∧ (∀ q k (delta : nat),
       Quota.used q k <= Quota.used (Quota.upsert k (Z.of_nat delta) q) k
       ∧ Quota.used (Quota.upsert k (Z.of_nat delta) q) k = Quota.used q k + Z.of_nat delta)
  ∧ (∀ q k deltas order,
       order ≡ₚ deltas →
       Quota.used (Quota.upserts k order q) k = Quota.used q k + Quota.sumZ deltas).
Proof.
  split; [|split; [|split]].
  - intros api credential today now p d o d' n Hrun.
    unfold GoogleWorker.googleSubmitterWorker in Hrun.
    destruct credential; simpl in Hrun; [|left; eexists; by inversion Hrun].
    destruct (GoogleWorker.checkQuota d p today) as [msg|ids];
      [left; eexists; by inversion Hrun|].
    destruct (submitAndRecord_cases api today now p ids d) as [[_ Hthrew]|[_ Hret]];
      cbv zeta in *; [left; eexists; rewrite Hthrew in Hrun; by inversion Hrun|].
    right. rewrite Hret in Hrun. clear Hret.
    destruct (GoogleWorker.submitAll _ _ _) as [results sent] eqn:Hall.
    cbn [fst snd] in Hrun. inversion Hrun; subst; clear Hrun. simpl.
    exists (GoogleWorker.successCountOf results).
    assert (Hc : completedRows (GoogleWorker.submissions_t d)
                   (GoogleWorker.submissions_t d ++
                    map (GoogleWorker.toSubmission (GoogleWorker.projectId p)) results)
                 = GoogleWorker.successCountOf results).
    { unfold completedRows. rewrite drop_app_length. apply completed_of_results. }
    split; [done|]. split; [by rewrite Hc|].
    f_equal. rewrite length_app, length_map.
    unfold GoogleWorker.successCountOf, GoogleWorker.failCountOf.
    pose proof (length_filter (fun r => GoogleWorker.success r = true) results).
    assert (length (filter (fun r => GoogleWorker.success r = true) results)
            + length (filter (fun r => GoogleWorker.success r = false) results)
            = length results)%nat.
    { clear. induction results as [|r rs IH]; [done|].
      rewrite !filter_cons.
      destruct (GoogleWorker.success r); repeat case_decide; simpl; try congruence; lia. }
    lia.
  - intros api project credential today now p d o d' posts Hrun.
    unfold IndexNowWorker.indexNowSubmitterWorker in Hrun.
    destruct project as [domain|]; [|left; eexists; by inversion Hrun].
    destruct credential as [key|]; [|left; eexists; by inversion Hrun].
    cbv zeta in Hrun.
    destruct (filter (fun r => u_id r ∈ IndexNowWorker.urlIds p) (IndexNowWorker.urls_t d))
      as [|r0 rs]; [left; eexists; by inversion Hrun|].
    right. by inversion Hrun.
  - intros q k delta. rewrite used_upsert. split; [lia|done].
  - intros q k deltas order Hp. rewrite used_upserts. f_equal. by apply sumZ_perm.
Qed.

Lemma quota_used_grows_witness :
  Quota.used (Quota.upserts ("p", GOOGLE, 0) [3; 1; 2] {[ ("p", GOOGLE, 0) := 10 ]}) ("p", GOOGLE, 0)
  = Quota.used ({[ ("p", GOOGLE, 0) := 10 ]} : quota_table) ("p", GOOGLE, 0) + Quota.sumZ [1; 2; 3].
Proof.
  destruct quota_used_grows_by_job_deltas as (_ & _ & _ & H).
  apply H. apply (Permutation_cons_append [1; 2] 3).
Defined.

End Quota_increments.
(** ** Idempotence of the batch upsert *)

Section Upsert_twice.
Import UrlStore.

Variable sha256 : string → string.
Variable uuid : nat → string.
Variable newDate : string → option string.
Variable parseFloat : string → string.
Variable decimal21 : string → option string.

Lemma upsertRow_hit id now v t :
  vkey v ∈ map key t →
  map key (upsertRow id now v t) = map key t ∧
  map kept (upsertRow id now v t) = map kept t.
Proof.
  induction t as [|r rest IH]; simpl; intros Hin.
  - by apply elem_of_nil in Hin.
  - destruct (decide (key r = (v_projectId v, v_locHash v))) as [Heq|Hne]; simpl.
    + done.
    + apply elem_of_cons in Hin as [Hin|Hin]; [by symmetry in Hin|].
      destruct (IH Hin) as [-> ->]. done.
Qed.

Lemma upsertRow_miss id now v t :
  vkey v ∉ map key t → upsertRow id now v t = t ++ [inserted id now v].
Proof.
  induction t as [|r rest IH]; simpl; intros Hnin; [done|].
  apply not_elem_of_cons in Hnin as [Hne Hnin].
  rewrite decide_False by (by intros Heq; apply Hne).
  by rewrite IH.
Qed.

Lemma upsertRow_keys id now v t :
  map key (upsertRow id now v t)
  = map key t ++ (if decide (vkey v ∈ map key t) then [] else [vkey v]).
Proof.
  case_decide as Hin.
  - destruct (upsertRow_hit id now v t Hin) as [-> _]. by rewrite app_nil_r.
  - rewrite upsertRow_miss by done. by rewrite map_app.
Qed.

Lemma upsertRow_NoDup id now v t :
  NoDup (map key t) → NoDup (map key (upsertRow id now v t)).
Proof.
  intros Hnd. rewrite upsertRow_keys. case_decide as Hin.
  - by rewrite app_nil_r.
  - apply NoDup_app. split; [done|]. split; [|apply NoDup_singleton].
    intros k Hk Hk'%list_elem_of_singleton. by subst.
Qed.

Lemma insert_keys_grow now : ∀ rows t k,
  k ∈ map key t → k ∈ map key (applyRows uuid now rows t).
Proof.
  induction rows as [|v vs IH]; intros t k Hk; simpl; [done|].
  apply IH. rewrite upsertRow_keys. apply elem_of_app. by left.
Qed.

Lemma insert_values_present now : ∀ rows t v,
  v ∈ rows → vkey v ∈ map key (applyRows uuid now rows t).
Proof.
  induction rows as [|w vs IH]; intros t v Hv; simpl.
  - by apply elem_of_nil in Hv.
  - apply elem_of_cons in Hv as [->|Hv]; [|by apply IH].
    apply insert_keys_grow. rewrite upsertRow_keys. case_decide as Hin.
    + by rewrite app_nil_r.
    + apply elem_of_app. right. by apply list_elem_of_singleton.
Qed.

Lemma insert_NoDup now : ∀ rows t,
  NoDup (map key t) → NoDup (map key (applyRows uuid now rows t)).
Proof.
  induction rows as [|v vs IH]; intros t Hnd; simpl; [done|].
  by apply IH, upsertRow_NoDup.
Qed.

Lemma insert_all_hit now : ∀ rows t,
  (∀ v, v ∈ rows → vkey v ∈ map key t) →
  map key (applyRows uuid now rows t) = map key t ∧
  map kept (applyRows uuid now rows t) = map kept t.
Proof.
  induction rows as [|v vs IH]; intros t Hall; simpl; [done|].
  destruct (upsertRow_hit (uuid (length t)) now v t) as [Hk Hf].
  { apply Hall. by left. }
  destruct (IH (upsertRow (uuid (length t)) now v t)) as [-> ->].
  { intros w Hw. rewrite Hk. apply Hall. by right. }
  done.
Qed.

Lemma toValues_key pid sid e v :
  toValues sha256 newDate parseFloat decimal21 pid sid e = Some v →
  vkey v = (pid, sha256 (loc e)) ∧ v_projectId v = pid ∧ v_sitemapId v = sid.
Proof.
  unfold toValues.
  destruct (lastmodOf newDate e), (changefreqOf e), (priorityOf parseFloat decimal21 e);
    try done.
  by intros [= <-].
Qed.

(** The rows of an accepted statement are those of its entries, in order. *)
Lemma accepted_rows pid sid (batch : list ParsedUrl) rows :
  mapM id (map (toValues sha256 newDate parseFloat decimal21 pid sid) batch) = Some rows →
  Forall2 (fun e v => toValues sha256 newDate parseFloat decimal21 pid sid e = Some v)
    batch rows.
Proof.
  intros H%mapM_Some_1. revert rows H.
  induction batch as [|e es IH]; intros rows H; inversion H; subst; constructor; auto.
Qed.

Lemma accepted_keys pid sid (batch : list ParsedUrl) rows :
  Forall2 (fun e v => toValues sha256 newDate parseFloat decimal21 pid sid e = Some v)
    batch rows →
  map vkey rows = map (fun e => (pid, sha256 (loc e))) batch.
Proof.
  induction 1 as [|e v es vs He _ IH]; [done|]. simpl.
  apply toValues_key in He as (-> & _). by rewrite IH.
Qed.

(** What a statement does when it is accepted, and when it is. *)
Lemma insert_statement now pid sid (batch : list ParsedUrl) t :
  match insertOnConflictUpdate uuid now
          (map (toValues sha256 newDate parseFloat decimal21 pid sid) batch) t with
  | Some t' =>
      ∃ rows,
        Forall2 (fun e v => toValues sha256 newDate parseFloat decimal21 pid sid e = Some v)
          batch rows ∧
        NoDup (map (fun e => sha256 (loc e)) batch) ∧
        t' = applyRows uuid now rows t
  | None =>
      ¬ (Forall (fun e => is_Some (toValues sha256 newDate parseFloat decimal21 pid sid e))
           batch
         ∧ NoDup (map (fun e => sha256 (loc e)) batch))
  end.
Proof.
  unfold insertOnConflictUpdate.
  assert (Hhash : ∀ l : list ParsedUrl,
            NoDup (map (fun e => (pid, sha256 (loc e))) l)
            ↔ NoDup (map (fun e => sha256 (loc e)) l)).
  { intros l. rewrite <- (map_map (fun e => sha256 (loc e)) (fun h => (pid, h))).
    split; [apply NoDup_fmap_1|apply NoDup_fmap_2]. by intros x y [= ->]. }
  destruct (mapM id _) as [rows|] eqn:Hrows.
  - apply accepted_rows in Hrows. pose proof (accepted_keys _ _ _ _ Hrows) as Hkeys.
    case_decide as Hnd.
    + exists rows. split; [done|]. split; [|done]. apply Hhash. by rewrite <- Hkeys.
    + intros [_ Hnd']. apply Hnd. rewrite Hkeys. by apply Hhash.
  - intros [Hall _]. apply mapM_None_1 in Hrows. apply Exists_exists in Hrows as (x & Hx & Hnone).
    apply list_elem_of_fmap in Hx as (e & -> & He).
    rewrite Forall_forall in Hall. destruct (Hall e He) as [v Hv].
    cbn in Hnone. congruence.
Qed.

Lemma upsertBatches_step clock pid sid total f k processed e rest0 t reported :
  let rest := e :: rest0 in
  upsertBatches sha256 uuid newDate parseFloat decimal21 (S f) clock pid sid total k
    processed rest t reported
  = match insertOnConflictUpdate uuid (clock k)
            (map (toValues sha256 newDate parseFloat decimal21 pid sid) (take BATCH_SIZE rest))
            t with
    | None => (Throws, t, reported)
    | Some t' =>
        upsertBatches sha256 uuid newDate parseFloat decimal21 f clock pid sid total (S k)
          (processed + length (take BATCH_SIZE rest)) (drop BATCH_SIZE rest) t'
          (reported ++ [progressOf (processed + length (take BATCH_SIZE rest)) total])
    end.
Proof. done. Qed.

Lemma accepted_present pid sid (batch : list ParsedUrl) rows e :
  Forall2 (fun e v => toValues sha256 newDate parseFloat decimal21 pid sid e = Some v)
    batch rows →
  e ∈ batch → (pid, sha256 (loc e)) ∈ map vkey rows.
Proof.
  intros Hrows He. rewrite (accepted_keys _ _ _ _ Hrows).
  apply list_elem_of_fmap. by exists e.
Qed.

Lemma insert_keys_present now rows t k :
  k ∈ map vkey rows → k ∈ map key (applyRows uuid now rows t).
Proof. intros (v & -> & Hv)%list_elem_of_fmap. by apply insert_values_present. Qed.

(** The loop over the batches, from any point of its run. *)
Lemma upsertBatches_props clock pid sid total : ∀ fuel k processed rest t reported,
  (length rest ≤ fuel)%nat →
  NoDup (map key t) →
  let r := upsertBatches sha256 uuid newDate parseFloat decimal21 fuel clock pid sid total k
             processed rest t reported in
  NoDup (map key r.1.2) ∧
  (∀ x, x ∈ map key t → x ∈ map key r.1.2) ∧
  (r.1.1 = Done → ∀ e, e ∈ rest → (pid, sha256 (loc e)) ∈ map key r.1.2).
Proof.
  induction fuel as [|f IH]; intros k processed rest t reported Hlen Hnd.
  - destruct rest; [|simpl in Hlen; lia]. simpl. repeat split; [done..|].
    intros _ e He. by apply elem_of_nil in He.
  - destruct rest as [|e0 rest0].
    { simpl. repeat split; [done..|]. intros _ e He. by apply elem_of_nil in He. }
    cbv zeta. rewrite upsertBatches_step. cbv zeta.
    pose proof (insert_statement (clock k) pid sid (take BATCH_SIZE (e0 :: rest0)) t) as Hst.
    destruct (insertOnConflictUpdate _ _ _ _) as [t1|]; [|by cbn].
    destruct Hst as (rows & Hrows & _ & ->).
    destruct (IH (S k) (processed + length (take BATCH_SIZE (e0 :: rest0)))%nat
                (drop BATCH_SIZE (e0 :: rest0)) (applyRows uuid (clock k) rows t)
                (reported ++ [progressOf (processed + length (take BATCH_SIZE (e0 :: rest0)))
                                total]))
      as (Hnd' & Hgrow & Hpres).
    { rewrite length_drop. simpl in *. unfold BATCH_SIZE. lia. }
    { by apply insert_NoDup. }
    split; [done|]. split.
    + intros x Hx. apply Hgrow. by apply insert_keys_grow.
    + intros Hdone e He.
      rewrite <- (take_drop BATCH_SIZE (e0 :: rest0)) in He.
      apply elem_of_app in He as [He|He]; [|by apply Hpres].
      apply Hgrow, insert_keys_present. by eapply accepted_present.
Qed.

Lemma upsertBatches_all_hit clock pid sid total : ∀ fuel k processed rest t reported,
  (∀ e, e ∈ rest → (pid, sha256 (loc e)) ∈ map key t) →
  let r := upsertBatches sha256 uuid newDate parseFloat decimal21 fuel clock pid sid total k
             processed rest t reported in
  map key r.1.2 = map key t ∧ map kept r.1.2 = map kept t.
Proof.
  induction fuel as [|f IH]; intros k processed rest t reported Hall.
  - by destruct rest.
  - destruct rest as [|e0 rest0]; [done|].
    cbv zeta. rewrite upsertBatches_step. cbv zeta.
    pose proof (insert_statement (clock k) pid sid (take BATCH_SIZE (e0 :: rest0)) t) as Hst.
    destruct (insertOnConflictUpdate _ _ _ _) as [t1|]; [|by cbn].
    destruct Hst as (rows & Hrows & _ & ->).
    destruct (insert_all_hit (clock k) rows t) as [Hk Hf].
    { intros v Hv.
      assert (Hvk : vkey v ∈ map vkey rows) by (apply list_elem_of_fmap; by exists v).
      rewrite (accepted_keys _ _ _ _ Hrows) in Hvk.
      apply list_elem_of_fmap in Hvk as (e & -> & He). apply Hall.
      rewrite <- (take_drop BATCH_SIZE (e0 :: rest0)). apply elem_of_app. by left. }
    destruct (IH (S k) (processed + length (take BATCH_SIZE (e0 :: rest0)))%nat
                (drop BATCH_SIZE (e0 :: rest0)) (applyRows uuid (clock k) rows t)
                (reported ++ [progressOf (processed + length (take BATCH_SIZE (e0 :: rest0)))
                                total]))
      as [Hk' Hf'].
    { intros e He. rewrite Hk. apply Hall.
      rewrite <- (take_drop BATCH_SIZE (e0 :: rest0)). apply elem_of_app. by right. }
    split; congruence.
Qed.

(** The loop ends without an exception when every entry can be stored and
    no batch proposes the same hash twice. *)
Lemma upsertBatches_done clock pid sid total : ∀ fuel k processed rest t reported,
  Forall (fun e => is_Some (toValues sha256 newDate parseFloat decimal21 pid sid e)) rest →
  (∀ j, NoDup (map (fun e => sha256 (loc e)) (take BATCH_SIZE (drop (j * BATCH_SIZE) rest)))) →
  (upsertBatches sha256 uuid newDate parseFloat decimal21 fuel clock pid sid total k
     processed rest t reported).1.1 = Done.
Proof.
  induction fuel as [|f IH]; intros k processed rest t reported Hall Hnd.
  - by destruct rest.
  - destruct rest as [|e0 rest0]; [done|].
    rewrite upsertBatches_step. cbv zeta.
    pose proof (insert_statement (clock k) pid sid (take BATCH_SIZE (e0 :: rest0)) t) as Hst.
    destruct (insertOnConflictUpdate _ _ _ _) as [t1|].
    + apply IH.
      * rewrite <- (take_drop BATCH_SIZE (e0 :: rest0)) in Hall.
        by apply Forall_app in Hall as [_ ?].
      * intros j. specialize (Hnd (S j)). rewrite drop_drop.
        by replace (BATCH_SIZE + j * BATCH_SIZE)%nat with (S j * BATCH_SIZE)%nat by lia.
    + exfalso. apply Hst. split.
      * rewrite <- (take_drop BATCH_SIZE (e0 :: rest0)) in Hall.
        by apply Forall_app in Hall as [? _].
      * exact (Hnd 0%nat).
Qed.

Lemma filter_no_match (t : list url_row) (k : string * string) :
  k ∉ map key t → filter (fun r => key r = k) t = [].
Proof.
  induction t as [|r rest IH]; simpl; intros Hnin; [done|].
  apply not_elem_of_cons in Hnin as [Hne Hnin].
  rewrite filter_cons, decide_False by (by intros Heq; apply Hne).
  by apply IH.
Qed.

Lemma one_row_per_key (t : list url_row) (k : string * string) :
  NoDup (map key t) → k ∈ map key t →
  length (filter (fun r => key r = k) t) = 1%nat.
Proof.
  induction t as [|r rest IH]; simpl; intros Hnd Hin.
  - by apply elem_of_nil in Hin.
  - apply NoDup_cons in Hnd as [Hr Hnd]. rewrite filter_cons.
    destruct (decide (key r = k)) as [Heq|Hne].
    + simpl. f_equal. subst k. by rewrite filter_no_match.
    + apply elem_of_cons in Hin as [Hin|Hin]; [by symmetry in Hin|]. by apply IH.
Qed.

(** C4 (as amended): the batch upsert run twice with the same entries, on
    a table that respects the unique index (projectId, locHash), when every
    entry can be stored (its lastmod is a valid date, its changefreq has at
    most 20 characters, its priority fits [decimal(2,1)]) and no batch of 500
    holds two entries with the same SHA-256 of [loc].  Both runs then end
    without an exception; afterwards the index is still respected, every
    entry has exactly one row under (projectId, SHA-256(loc)), and the second
    run left id, loc, locHash, the statuses and firstSeenAt of every row as
    the first run had left them (it added no row and could change only
    sitemapId, lastmod, changefreq and priority). *)
Theorem batch_upsert_twice_is_idempotent clock1 clock2 pid sid entries t0 :
  NoDup (map key t0) →
  Forall (fun e => is_Some (toValues sha256 newDate parseFloat decimal21 pid sid e)) entries →
  (∀ j, NoDup (map (fun e => sha256 (loc e))
                 (take BATCH_SIZE (drop (j * BATCH_SIZE) entries)))) →
  let r1 := batchUpsertUrls sha256 uuid newDate parseFloat decimal21 clock1 pid sid entries t0 in
  let t1 := r1.1.2 in
  let r2 := batchUpsertUrls sha256 uuid newDate parseFloat decimal21 clock2 pid sid entries t1 in
  let t2 := r2.1.2 in
  r1.1.1 = Done ∧ r2.1.1 = Done ∧
  NoDup (map key t2) ∧
  (∀ e, e ∈ entries →
        length (filter (fun r => key r = (pid, sha256 (loc e))) t2) = 1%nat) ∧
  map kept t2 = map kept t1 ∧
  map u_firstSeenAt t2 = map u_firstSeenAt t1.
Proof.
  intros Hnd Hstore Hbatch. cbv zeta. unfold batchUpsertUrls.
  pose proof (upsertBatches_done clock1 pid sid (length entries) (length entries)
                0%nat 0%nat entries t0 [] Hstore Hbatch) as Hdone1.
  destruct (upsertBatches_props clock1 pid sid (length entries) (length entries)
              0%nat 0%nat entries t0 [] (le_n _) Hnd) as (Hnd1 & _ & Hpres1).
  cbv zeta in Hpres1. specialize (Hpres1 Hdone1).
  set (t1 := (upsertBatches sha256 uuid newDate parseFloat decimal21 (length entries) clock1
                pid sid (length entries) 0 0 entries t0 []).1.2) in *.
  pose proof (upsertBatches_done clock2 pid sid (length entries) (length entries)
                0%nat 0%nat entries t1 [] Hstore Hbatch) as Hdone2.
  destruct (upsertBatches_all_hit clock2 pid sid (length entries) (length entries)
              0%nat 0%nat entries t1 [] Hpres1) as [Hk2 Hf2].
  cbv zeta in Hk2, Hf2.
  set (t2 := (upsertBatches sha256 uuid newDate parseFloat decimal21 (length entries) clock2
                pid sid (length entries) 0 0 entries t1 []).1.2) in *.
  assert (Hnd2 : NoDup (map key t2)) by (by rewrite Hk2).
  split; [done|]. split; [done|]. split; [done|]. split; [|split; [done|]].
  - intros e He. apply one_row_per_key; [done|]. rewrite Hk2. by apply Hpres1.
  - assert (Hproj : ∀ t, map u_firstSeenAt t = map (fun x => x.2) (map kept t)).
    { intros t. rewrite map_map. done. }
    by rewrite !Hproj, Hf2.
Qed.

End Upsert_twice.

Section Upsert_examples.
Import UrlStore.

Lemma batch_upsert_twice_witness :
  let r1 := batchUpsertUrls digestOf idOf sampleDate id sampleDecimal (fun _ => 10) "p" "s"
              twoEntries knownX in
  let t1 := r1.1.2 in
  let r2 := batchUpsertUrls digestOf idOf sampleDate id sampleDecimal (fun _ => 20) "p" "s"
              twoEntries t1 in
  let t2 := r2.1.2 in
  r1.1.1 = Done ∧ r2.1.1 = Done ∧
  NoDup (map key t2) ∧
  (∀ e, e ∈ twoEntries →
        length (filter (fun r => key r = ("p", digestOf (loc e))) t2) = 1%nat) ∧
  map kept t2 = map kept t1 ∧
  map u_firstSeenAt t2 = map u_firstSeenAt t1.
Proof.
  apply (batch_upsert_twice_is_idempotent digestOf idOf sampleDate id sampleDecimal
           (fun _ => 10) (fun _ => 20) "p" "s" twoEntries knownX).
  - simpl. apply NoDup_singleton.
  - repeat constructor; by eexists.
  - intros [|j].
    + vm_compute. repeat (constructor; [set_solver|]). constructor.
    + rewrite drop_ge by (simpl; unfold BATCH_SIZE; lia). constructor.
Defined.

(** The rows after the two runs: [x] keeps its id, its status and its first
    sighting at time 3 and takes the new lastmod; [y] was first seen by the
    first run, at time 10. *)
Example batch_upsert_twice_rows :
  let t1 := (batchUpsertUrls digestOf idOf sampleDate id sampleDecimal (fun _ => 10) "p" "s"
               twoEntries knownX).1.2 in
  let t2 := (batchUpsertUrls digestOf idOf sampleDate id sampleDecimal (fun _ => 20) "p" "s"
               twoEntries t1).1.2 in
  map (fun r => (u_id r, u_loc r, u_lastmod r, u_googleStatus r, u_firstSeenAt r)) t2
  = [("id-x", "http://t/x", Some "2024-02-02", Some SUBMITTED, 3);
     ("id-1", "http://t/y", None, Some DISCOVERED, 10)].
Proof. vm_compute. reflexivity. Qed.

(** C4, counterexample: a sitemap that lists the same location twice.  The
    one statement of its batch proposes the key twice and is refused, so both
    runs throw and no row is written: the location has no row where the claim
    says exactly one.  The same happens for an entry whose lastmod is no
    date. *)
Lemma batch_upsert_throws_on_a_repeated_loc :
  let twice := [entryOf "http://t/x" None; entryOf "http://t/x" None] in
  let r1 := batchUpsertUrls digestOf idOf sampleDate id sampleDecimal (fun _ => 10) "p" "s"
              twice [] in
  let r2 := batchUpsertUrls digestOf idOf sampleDate id sampleDecimal (fun _ => 20) "p" "s"
              twice r1.1.2 in
  let undated := batchUpsertUrls digestOf idOf sampleDate id sampleDecimal (fun _ => 10)
                   "p" "s" [entryOf "http://t/y" (Some "not a date")] [] in
  r1.1.1 = Throws ∧ r2.1.1 = Throws ∧ r2.1.2 = [] ∧
  length (filter (fun r => key r = ("p", digestOf "http://t/x")) r2.1.2) = 0%nat ∧
  undated.1.1 = Throws ∧ undated.1.2 = [].
Proof. by vm_compute. Qed.

End Upsert_examples.

(** ** Cached counters of a project *)

Section Project_counters.
Import UrlStore.

Lemma member2 (x a b : indexing_status) : x ∈ [a; b] ↔ x = a ∨ x = b.
Proof. rewrite !elem_of_cons, elem_of_nil. tauto. Qed.

Lemma member3 (x a b c : indexing_status) : x ∈ [a; b; c] ↔ x = a ∨ x = b ∨ x = c.
Proof. rewrite !elem_of_cons, elem_of_nil. tauto. Qed.

Lemma countWhere_spec pid statuses t (Q : url_row → Prop) `{!∀ r, Decision (Q r)} :
  (∀ r, statusIn (u_googleStatus r) statuses = true ↔ Q r) →
  countWhere pid statuses t
  = Z.of_nat (length (filter (fun r => u_projectId r = pid ∧ Q r) t)).
Proof.
  intros HQ. unfold countWhere. do 2 f_equal.
  apply list_filter_iff. intros r. by rewrite HQ.
Qed.

Lemma statusIn_cases s statuses :
  statusIn s statuses = true ↔ ∃ x, s = Some x ∧ x ∈ statuses.
Proof.
  destruct s as [x|]; simpl.
  - rewrite bool_decide_eq_true. split; [by exists x|]. by intros (? & [= <-] & ?).
  - split; [done|]. by intros (? & ? & ?).
Qed.

(** C7, counterexample: with one SUBMITTED, one DISCOVERED and one INDEXED
    row the recomputation writes [pending = 1]; the rows whose status is
    DISCOVERED, QUEUED or SUBMITTED are two. *)
Lemma submitted_rows_are_not_pending :
  map p_pendingUrls (updateProjectStats 5 "p" threeStatuses [projectP]) = [1]
  ∧ countWhere "p" [DISCOVERED; QUEUED; SUBMITTED] threeStatuses = 2.
Proof. by vm_compute. Qed.

(** Rows of other projects are not touched, and no row is added or lost. *)
Lemma project_counters_other_rows now pid t projects :
  map p_id (updateProjectStats now pid t projects) = map p_id projects ∧
  ∀ p0, p0 ∈ projects → p_id p0 ≠ pid → p0 ∈ updateProjectStats now pid t projects.
Proof.
  split.
  - unfold updateProjectStats. rewrite map_map. apply map_ext.
    intros p. by case_decide.
  - intros p0 Hin Hne. unfold updateProjectStats.
    apply list_elem_of_fmap. exists p0. by rewrite decide_False.
Qed.

(** C7 (as amended): the recomputation writes, on the row of the project,
    [total] = number of its url rows, [indexed] = rows with googleStatus
    INDEXED, [pending] = rows with googleStatus DISCOVERED or QUEUED,
    [error] = rows with googleStatus ERROR_4XX, ERROR_5XX or CRAWL_ERROR. *)
Theorem project_counters_recomputed now pid t projects i p0 p :
  projects !! i = Some p0 →
  p_id p0 = pid →
  updateProjectStats now pid t projects !! i = Some p →
  p_totalUrls p = Z.of_nat (length (filter (fun r => u_projectId r = pid) t)) ∧
  p_indexedUrls p
  = Z.of_nat (length (filter (fun r =>
      u_projectId r = pid ∧ u_googleStatus r = Some INDEXED) t)) ∧
  p_pendingUrls p
  = Z.of_nat (length (filter (fun r =>
      u_projectId r = pid ∧
      (u_googleStatus r = Some DISCOVERED ∨ u_googleStatus r = Some QUEUED)) t)) ∧
  p_errorUrls p
  = Z.of_nat (length (filter (fun r =>
      u_projectId r = pid ∧
      (u_googleStatus r = Some ERROR_4XX ∨ u_googleStatus r = Some ERROR_5XX
       ∨ u_googleStatus r = Some CRAWL_ERROR)) t)).
Proof.
  intros Hp0 Hid Hp. unfold updateProjectStats in Hp.
  change (map ?f ?l) with (f <$> l) in Hp.
  rewrite list_lookup_fmap, Hp0 in Hp. simpl in Hp. inversion Hp; subst; clear Hp.
  rewrite decide_True by done. simpl. split; [done|].
  split; [|split]; apply countWhere_spec; intros r; rewrite statusIn_cases.
  - split.
    + intros (x & -> & Hx). apply list_elem_of_singleton in Hx. by subst.
    + intros ->. exists INDEXED. split; [done|]. by apply list_elem_of_singleton.
  - split.
    + intros (x & -> & Hx). apply member2 in Hx. destruct Hx as [-> | ->]; tauto.
    + intros [-> | ->]; eexists; (split; [done|]); apply member2; tauto.
  - split.
    + intros (x & -> & Hx). apply member3 in Hx. destruct Hx as [-> | [-> | ->]]; tauto.
    + intros [-> | [-> | ->]]; eexists; (split; [done|]); apply member3; tauto.
Qed.

Lemma project_counters_witness :
  p_totalUrls projectP_after
  = Z.of_nat (length (filter (fun r => u_projectId r = "p") threeStatuses)) ∧
  p_indexedUrls projectP_after
  = Z.of_nat (length (filter (fun r =>
      u_projectId r = "p" ∧ u_googleStatus r = Some INDEXED) threeStatuses)) ∧
  p_pendingUrls projectP_after
  = Z.of_nat (length (filter (fun r =>
      u_projectId r = "p" ∧
      (u_googleStatus r = Some DISCOVERED ∨ u_googleStatus r = Some QUEUED)) threeStatuses)) ∧
  p_errorUrls projectP_after
  = Z.of_nat (length (filter (fun r =>
      u_projectId r = "p" ∧
      (u_googleStatus r = Some ERROR_4XX ∨ u_googleStatus r = Some ERROR_5XX
       ∨ u_googleStatus r = Some CRAWL_ERROR)) threeStatuses)).
Proof.
  apply (project_counters_recomputed 5 "p" threeStatuses [projectP] 0%nat projectP);
    reflexivity.
Defined.

End Project_counters.

(** ** Termination of a scan and the number of fetches *)

Section Scanner_queue.
Import Scanner.

Variable w : sitemap_web.
Variable rootUrl : string.

#[local] Arguments targetOf : simpl never.
#[local] Arguments fetchAndParseSitemap : simpl never.

Lemma runsOfQueue_app q1 q2 :
  runsOfQueue w rootUrl (q1 ++ q2)
  = (runsOfQueue w rootUrl q1 + runsOfQueue w rootUrl q2)%nat.
Proof.
  unfold runsOfQueue. induction q1 as [|j q IH]; simpl; [done|]. rewrite IH. lia.
Qed.

Lemma runsOfQueue_children job sid k cs :
  (MAX_RECURSION_DEPTH - depth job = S k)%nat →
  runsOfQueue w rootUrl (map (childJob job sid) cs)
  = foldr (fun c acc => (runsBelow k w rootUrl (targetOf rootUrl (Some c)) + acc)%nat) 0%nat cs.
Proof.
  intros Hk. unfold runsOfQueue.
  induction cs as [|c cs IH]; [done|].
  cbn [map foldr]. rewrite IH. unfold runsOf. cbn [depth sitemapUrl childJob].
  replace (MAX_RECURSION_DEPTH - S (depth job))%nat with k by lia. done.
Qed.

(** Handling a job replaces it in the queue by jobs that need one run less
    in total. *)
Lemma handle_runs job rest s :
  runsOfQueue w rootUrl (job :: rest)
  = S (runsOfQueue w rootUrl (queue (sitemapScannerWorker w rootUrl job rest s))).
Proof.
  unfold sitemapScannerWorker.
  change (runsOfQueue w rootUrl (job :: rest))
    with (runsOf w rootUrl job + runsOfQueue w rootUrl rest)%nat.
  unfold runsOf.
  destruct (MAX_RECURSION_DEPTH - depth job)%nat as [|k] eqn:Hk; simpl runsBelow.
  - replace (depth job <? MAX_RECURSION_DEPTH)%nat with false
      by (symmetry; apply Nat.ltb_ge; lia).
    destruct (fetchAndParseSitemap w _); simpl; rewrite ?andb_false_r, ?app_nil_r; lia.
  - replace (depth job <? MAX_RECURSION_DEPTH)%nat with true
      by (symmetry; apply Nat.ltb_lt; lia).
    destruct (fetchAndParseSitemap w _) as [r|]; simpl; [|lia].
    rewrite andb_true_r. case_bool_decide as Hc.
    + rewrite runsOfQueue_app, (runsOfQueue_children _ _ k) by done. lia.
    + rewrite Hc, app_nil_r. simpl. lia.
Qed.

(** The queue empties after exactly as many runs as [runsOfQueue] counts,
    each run fetching one sitemap. *)
Lemma drain_terminates : ∀ fuel s,
  (runsOfQueue w rootUrl (queue s) ≤ fuel)%nat →
  ∃ s', drain fuel w rootUrl s = Some s' ∧ queue s' = [] ∧
        length (fetched s') = (length (fetched s) + runsOfQueue w rootUrl (queue s))%nat.
Proof.
  induction fuel as [|f IH]; intros s Hle.
  - destruct (queue s) as [|job rest] eqn:Hq.
    + exists s. simpl. rewrite Hq. split; [done|]. split; [done|]. simpl. lia.
    + rewrite (handle_runs job rest s) in Hle. lia.
  - simpl. destruct (queue s) as [|job rest] eqn:Hq.
    + exists s. split; [done|]. split; [done|]. simpl. lia.
    + pose proof (handle_runs job rest s) as Hrun.
      destruct (IH (sitemapScannerWorker w rootUrl job rest s)) as (s' & Hd & Hq' & Hlen); [lia|].
      exists s'. split; [done|]. split; [done|].
      rewrite Hlen, Hrun.
      assert (length (fetched (sitemapScannerWorker w rootUrl job rest s)) = S (length (fetched s))) as ->.
      { unfold sitemapScannerWorker. destruct (fetchAndParseSitemap w _); simpl;
          rewrite length_app; simpl; lia. }
      lia.
Qed.

End Scanner_queue.

Section Streamer_run.
Import SitemapStreamer.

Variable w : web.

Lemma unvisited_mono (s s' : streamer) :
  visitedSitemaps s ⊆ visitedSitemaps s' → (unvisited w s' ≤ unvisited w s)%nat.
Proof. intros Hsub. unfold unvisited. apply subseteq_size. set_solver. Qed.

Lemma caught_state s : (caught s).2 = s.
Proof. unfold caught. by destruct (_ =? _)%nat. Qed.

Lemma found_state batch s :
  visitedSitemaps (found batch s) = visitedSitemaps s ∧
  fetches (found batch s) = fetches s.
Proof. by destruct batch. Qed.

Lemma eachChild_returns fuel rec :
  returns_once w fuel rec →
  ∀ childNodes allUrls s, fetched_once s → (unvisited w s < fuel)%nat →
    ∃ o s', eachChild rec childNodes allUrls s = Some (o, s') ∧ fetched_once s' ∧
            visitedSitemaps s ⊆ visitedSitemaps s'.
Proof.
  intros Hrec. induction childNodes as [|n rest IH]; intros allUrls s Hinv Hfuel; simpl.
  - by exists (Ok allUrls), s.
  - destruct (Str.truthy _); [|by apply IH].
    destruct (Hrec (Str.trim (Dom.textContent n)) s Hinv Hfuel)
      as (o & s1 & -> & Hinv1 & Hsub1).
    destruct o as [children|].
    + destruct (IH (allUrls ++ children) s1 Hinv1) as (o2 & s2 & -> & Hinv2 & Hsub2).
      { pose proof (unvisited_mono s s1 Hsub1). lia. }
      exists o2, s2. split; [done|]. split; [done|]. set_solver.
    + by exists Throws, s1.
Qed.

Lemma fetchSitemapRecursive_returns :
  ∀ fuel, returns_once w fuel (fetchSitemapRecursive fuel w).
Proof.
  induction fuel as [|f IH]; intros url s Hinv Hfuel; [lia|].
  simpl. case_decide as Hvis; [by exists (Ok []), s|].
  set (s1 := {| visitedSitemaps := visitedSitemaps s ∪ {[url]};
                fetches := fetches s ++ [url]; urlFound := urlFound s |}).
  assert (Hinv1 : fetched_once s1).
  { destruct Hinv as [Hnd Hin]. split; simpl.
    - apply NoDup_app. split; [done|]. split; [|apply NoDup_singleton].
      intros u Hu Hu'%list_elem_of_singleton. subst. by apply Hvis, Hin.
    - intros u [Hu|Hu%list_elem_of_singleton]%elem_of_app; [|set_solver].
      apply elem_of_union_l. by apply Hin. }
  assert (Hsub1 : visitedSitemaps s ⊆ visitedSitemaps s1) by (simpl; set_solver).
  assert (Hcaught : ∀ s2, fetched_once s2 → visitedSitemaps s ⊆ visitedSitemaps s2 →
            ∃ o s', Some (caught s2) = Some (o, s') ∧ fetched_once s' ∧
                    visitedSitemaps s ⊆ visitedSitemaps s').
  { intros s2 Hinv2 Hsub2. exists (caught s2).1, (caught s2).2.
    split; [by destruct (caught s2)|]. by rewrite caught_state. }
  destruct (w !! url) as [p|] eqn:Hp; [|by apply Hcaught].
  destruct (negb (ok p)); [by apply Hcaught|].
  destruct (_ && _); [by apply Hcaught|].
  assert (Hfuel1 : (unvisited w s1 < f)%nat).
  { assert (unvisited w s1 < unvisited w s)%nat; [|lia].
    unfold unvisited. apply subset_size. simpl.
    assert (url ∈ dom w) by (apply elem_of_dom; eauto).
    set_solver. }
  case_bool_decide.
  { destruct (eachChild_returns f _ IH
                (Dom.querySelectorAll [Dom.Child "sitemap" "loc"] (xmlDoc p)) [] s1
                Hinv1 Hfuel1) as (o & s2 & -> & Hinv2 & Hsub2).
    destruct o as [urls|].
    - exists (Ok urls), s2. split; [done|]. split; [done|]. set_solver.
    - apply Hcaught; [done|]. set_solver. }
  assert (Hfound : ∀ batch, ∃ o s', Some (Ok batch, found batch s1) = Some (o, s') ∧
            fetched_once s' ∧ visitedSitemaps s ⊆ visitedSitemaps s').
  { intros batch. exists (Ok batch), (found batch s1).
    destruct (found_state batch s1) as [Hv Hf].
    split; [done|]. unfold fetched_once. rewrite Hv, Hf. done. }
  case_bool_decide; [by apply Hfound|].
  destruct (_ || _); [by apply Hfound|].
  by exists (Ok []), s1.
Qed.

(** A run of [streamParse] returns, and no sitemap is fetched twice in it. *)
Lemma streamParse_fetches_once wellFormed url visited found0 :
  ∃ o s', streamParse wellFormed w url {| visitedSitemaps := visited; fetches := [];
                                          urlFound := found0 |} = Some (o, s')
          ∧ NoDup (fetches s').
Proof.
  unfold streamParse. cbv zeta. cbn [fetches urlFound].
  destruct (wellFormed url); [|eexists _, _; split; [done|]; apply NoDup_nil_2].
  destruct (fetchSitemapRecursive_returns (S (size w)) url
              {| visitedSitemaps := ∅; fetches := []; urlFound := found0 |})
    as (o & s' & Hrun & [Hnd _] & _).
  - split; simpl; [apply NoDup_nil_2|]. intros u Hu. by apply elem_of_nil in Hu.
  - unfold unvisited. simpl. rewrite difference_empty_L, size_dom. lia.
  - by exists o, s'.
Qed.

End Streamer_run.

Section Scan_scenarios.

(** C5, counterexample: on the cyclic pair the queue worker handles eleven
    jobs (depths 0 to 10) and fetches [sm1] six times and [sm2] five times. *)
Lemma worker_refetches_cyclic_sitemaps :
  Scanner.fetched <$> Scanner.scanProject cyclicServer "http://t/sm1" "p" "j"
  = Some ["http://t/sm1"; "http://t/sm2"; "http://t/sm1"; "http://t/sm2";
          "http://t/sm1"; "http://t/sm2"; "http://t/sm1"; "http://t/sm2";
          "http://t/sm1"; "http://t/sm2"; "http://t/sm1"].
Proof. vm_compute. reflexivity. Qed.

(** Scenario S2 on the streamer: each index is fetched once and the run
    ends with no URL. *)
Example streamer_S2 :
  (fun r => (r.1, SitemapStreamer.fetches r.2))
    <$> SitemapStreamer.streamParse absoluteUrl cyclicWeb "http://t/sm1" freshStreamer
  = Some (SitemapStreamer.Ok [], ["http://t/sm1"; "http://t/sm2"]).
Proof. vm_compute. reflexivity. Qed.

(** On the chain the queue worker stops below depth 10: it fetches [sm0] to
    [sm10] and never reaches the urlset. *)
Example worker_stops_at_depth_10 :
  Scanner.fetched <$> Scanner.scanProject chainServer (chainUrl 0) "p" "j"
  = Some (map chainUrl (seq 0 11)).
Proof. vm_compute. reflexivity. Qed.

(** C5 (as amended): a run of the streamer over any finite web of sitemaps,
    cyclic or not and of any depth, returns and fetches no sitemap twice (it
    records the visited URLs and has no depth cap); a scan by the queue worker
    over any server returns too, with an empty queue, after one fetch per job
    (children are enqueued only below depth 10; it keeps no visited set). *)
Theorem scans_terminate :
  (∀ wellFormed (w : SitemapStreamer.web) url visited found0,
     ∃ o s', SitemapStreamer.streamParse wellFormed w url
               {| SitemapStreamer.visitedSitemaps := visited;
                  SitemapStreamer.fetches := [];
                  SitemapStreamer.urlFound := found0 |} = Some (o, s')
             ∧ NoDup (SitemapStreamer.fetches s'))
  ∧ (∀ (w : Scanner.sitemap_web) rootUrl pid jid,
       ∃ s', Scanner.scanProject w rootUrl pid jid = Some s'
             ∧ Scanner.queue s' = []
             ∧ length (Scanner.fetched s')
               = Scanner.runsBelow Scanner.MAX_RECURSION_DEPTH w rootUrl rootUrl).
Proof.
  split.
  - intros wellFormed w url visited found0. apply streamParse_fetches_once.
  - intros w rootUrl pid jid. unfold Scanner.scanProject.
    destruct (drain_terminates w rootUrl
                (Scanner.runsOfQueue w rootUrl [Scanner.rootJob pid jid])
                {| Scanner.queue := [Scanner.rootJob pid jid]; Scanner.fetched := [];
                   Scanner.status := PENDING |}) as (s' & Hd & Hq & Hlen); [done|].
    exists s'. split; [done|]. split; [done|].
    rewrite Hlen. simpl. unfold Scanner.runsOf. simpl. lia.
Qed.

End Scan_scenarios.

(** ** RSS and Atom feeds *)

Section Feeds.
Import Dom SitemapStreamer.

Lemma filter_tag_none t (es : list (option string * node)) :
  (∀ e, e ∈ es → tagOf e.2 ≠ Some t) →
  filter (fun e => existsb (fun s => matches s e) [Tag t] = true) es = [].
Proof.
  induction es as [|e es IH]; intros Hno; [done|].
  rewrite filter_cons. simpl. rewrite orb_false_r.
  rewrite decide_False.
  - apply IH. intros x Hx. apply Hno. by right.
  - rewrite bool_decide_eq_true. apply Hno. by left.
Qed.

Lemma querySelectorAll_tag t doc :
  noElement t doc → querySelectorAll [Tag t] doc = [].
Proof. intros Hno. unfold querySelectorAll. by rewrite filter_tag_none. Qed.

Lemma querySelector_none t doc : noElement t doc → querySelector (Tag t) doc = None.
Proof. intros Hno. unfold querySelector. by rewrite querySelectorAll_tag. Qed.

Lemma querySelector_root t doc :
  tagOf doc = Some t → is_Some (querySelector (Tag t) doc).
Proof.
  destruct doc as [t' attrs kids|]; [|done]. intros [= ->].
  unfold querySelector, querySelectorAll. cbn [elementsUnder].
  rewrite filter_cons_True; [by eexists|].
  simpl. by rewrite bool_decide_true.
Qed.

Lemma feed_selector doc :
  querySelectorAll [Child "item" "link"; Child "entry" "link"] doc = feedLinkElements doc.
Proof.
  unfold querySelectorAll, feedLinkElements. f_equal.
  apply list_filter_iff. intros [parent n]. simpl.
  rewrite orb_false_r, orb_true_iff, !andb_true_iff, !bool_decide_eq_true. tauto.
Qed.

(** The location a link element yields: its text, trimmed, when that is
    not empty; otherwise its [href] attribute when present and not empty. *)
Lemma linkTarget_cases n u :
  linkTarget n = Some u ↔
  lastmod u = None ∧
  ((Str.truthy (Str.trim (textContent n)) = true ∧ loc u = Str.trim (textContent n)) ∨
   (Str.truthy (Str.trim (textContent n)) = false ∧ attribute "href" n = Some (loc u)
    ∧ Str.truthy (loc u) = true)).
Proof.
  unfold linkTarget. destruct u as [l m]. simpl.
  destruct (Str.truthy (Str.trim (textContent n))) eqn:Ht.
  - split.
    + intros [= <- <-]. split; [done|]. by left.
    + intros [-> [[_ ->] | [? _]]]; [done|discriminate].
  - destruct (attribute "href" n) as [h|].
    + destruct (Str.truthy h) eqn:Hh.
      * split.
        -- intros [= <- <-]. split; [done|]. right. by rewrite Hh.
        -- intros [-> [[? _] | (_ & [= ->] & _)]]; [discriminate|done].
      * split; [done|].
        intros [_ [[? _] | (_ & [= ->] & Hl)]]; [discriminate|congruence].
    + split; [done|]. intros [_ [[? _] | (_ & ? & _)]]; discriminate.
Qed.

(** C9, counterexample: the parser of the queue worker reports an RSS
    document as a URLSET with no URL. *)
Lemma worker_parser_does_not_read_feeds :
  Scanner.parseEvents rssEvents
  = Some {| Scanner.kind := Scanner.URLSET; Scanner.parsedUrls := [];
            Scanner.children := [] |}.
Proof. vm_compute. reflexivity. Qed.

(** It collects a URL only when a [url] element closes: a body without
    one gives no URL. *)
Lemma worker_parser_needs_url_elements events r :
  (∀ n, Scanner.CloseTag n ∈ events → Str.toLowerCase n ≠ "url") →
  Scanner.parseEvents events = Some r → Scanner.parsedUrls r = [].
Proof.
  intros Hno. unfold Scanner.parseEvents.
  assert (Hurls : ∀ p, Scanner.urls (foldl Scanner.onEvent p events) = Scanner.urls p).
  { revert Hno. induction events as [|e es IH]; intros Hno p; [done|].
    simpl. rewrite IH by (intros n Hn; apply Hno; by right).
    destruct e as [n|t|n|]; simpl; [done| |..|done].
    - unfold Scanner.onText. destruct (negb _); [done|].
      repeat case_decide; try done. by destruct (Scanner.isIndex p).
    - unfold Scanner.onCloseTag.
      destruct (decide (Str.toLowerCase n = "url")) as [Heq|Hne]; [|done].
      exfalso. apply (Hno n); [by left|done]. }
  destruct (Scanner.rejected _); [done|]. intros [= <-]. simpl. by rewrite Hurls.
Qed.

(** The kind it returns is never RSS. *)
Lemma worker_parser_kind events r :
  Scanner.parseEvents events = Some r → Scanner.kind r ≠ Scanner.RSS.
Proof.
  unfold Scanner.parseEvents. destruct (Scanner.rejected _); [done|].
  intros [= <-]. simpl. by destruct (Scanner.isIndex _).
Qed.

Lemma linkTarget_loc_of (n : node) :
  loc <$> linkTarget n
  = (let text := Str.trim (textContent n) in
     if Str.truthy text then Some text
     else match attribute "href" n with
          | Some href => if Str.truthy href then Some href else None
          | None => None
          end)
  ∧ (∀ u, linkTarget n = Some u → lastmod u = None).
Proof.
  unfold linkTarget. cbv zeta.
  destruct (Str.truthy (Str.trim (textContent n))); [split; [done|by intros u [= <-]]|].
  destruct (attribute "href" n) as [h|]; [|by split].
  destruct (Str.truthy h); [split; [done|by intros u [= <-]]|by split].
Qed.

Lemma linkTarget_locs (links : list node) :
  map loc (omap linkTarget links)
  = omap (fun n => let text := Str.trim (textContent n) in
                   if Str.truthy text then Some text
                   else match attribute "href" n with
                        | Some href => if Str.truthy href then Some href else None
                        | None => None
                        end) links
  ∧ Forall (fun u => lastmod u = None) (omap linkTarget links).
Proof.
  induction links as [|n links [IHl IHm]]; [by split|].
  destruct (linkTarget_loc_of n) as [Hl Hm].
  cbn [omap list_omap]. cbv zeta in Hl. rewrite <- Hl.
  destruct (linkTarget n) as [u|]; simpl.
  - fold (omap linkTarget links). rewrite IHl. split; [done|]. constructor; [by apply Hm|done].
  - by split.
Qed.

Lemma linkTarget_some (links : list node) :
  omap linkTarget links ≠ [] ↔
  ∃ n, n ∈ links ∧
       (Str.truthy (Str.trim (textContent n)) = true
        ∨ ∃ href, attribute "href" n = Some href ∧ Str.truthy href = true).
Proof.
  induction links as [|n links IH].
  - split; [done|]. intros (n & Hn & _). by apply elem_of_nil in Hn.
  - simpl. unfold linkTarget at 1. cbv zeta.
    destruct (Str.truthy (Str.trim (textContent n))) eqn:Ht.
    { split; [|done]. intros _. exists n. split; [by left|by left]. }
    destruct (attribute "href" n) as [h|] eqn:Hh.
    + destruct (Str.truthy h) eqn:Hth.
      { split; [|done]. intros _. exists n. split; [by left|]. right. by exists h. }
      rewrite IH. split.
      * intros (x & Hx & Hy). exists x. split; [by right|done].
      * intros (x & Hx & Hy). apply elem_of_cons in Hx as [-> | Hx]; [|by exists x].
        destruct Hy as [Hy | (h' & Hh' & Hy)]; [congruence|].
        rewrite Hh in Hh'. inversion Hh'; subst. congruence.
    + rewrite IH. split.
      * intros (x & Hx & Hy). exists x. split; [by right|done].
      * intros (x & Hx & Hy). apply elem_of_cons in Hx as [-> | Hx]; [|by exists x].
        destruct Hy as [Hy | (h' & Hh' & _)]; congruence.
Qed.

(** C9 (as amended): the streamer, on a page not yet visited whose document
    has the root element [rss] or [feed] and no [parsererror],
    [sitemapindex] or [urlset] element, fetches the page once and returns one
    URL, without [lastmod], for each [link] child of an [item] or [entry]
    element that yields one, in document order: the text of the link,
    trimmed, or, when that is empty, its [href] attribute when that is not
    empty.  The list is not empty exactly when some such link has a text or
    an [href]; its length is then reported.  No kind is returned.  There is
    a feed, the Atom document of [feedWeb], for which the list is not
    empty. *)
Theorem streamer_reads_feed_links :
  (∀ (w : web) url p s fuel,
     url ∉ visitedSitemaps s →
     w !! url = Some p →
     ok p = true →
     tagOf (xmlDoc p) = Some "rss" ∨ tagOf (xmlDoc p) = Some "feed" →
     noElement "parsererror" (xmlDoc p) →
     noElement "sitemapindex" (xmlDoc p) →
     noElement "urlset" (xmlDoc p) →
     ∃ urls s',
       fetchSitemapRecursive (S fuel) w url s = Some (Ok urls, s')
       ∧ map loc urls
         = omap (fun n => let text := Str.trim (textContent n) in
                          if Str.truthy text then Some text
                          else match attribute "href" n with
                               | Some href => if Str.truthy href then Some href else None
                               | None => None
                               end)
                (feedLinkElements (xmlDoc p))
       ∧ Forall (fun u => lastmod u = None) urls
       ∧ (urls ≠ [] ↔
          ∃ n, n ∈ feedLinkElements (xmlDoc p) ∧
               (Str.truthy (Str.trim (textContent n)) = true
                ∨ ∃ href, attribute "href" n = Some href ∧ Str.truthy href = true))
       ∧ fetches s' = fetches s ++ [url]
       ∧ urlFound s' = urlFound s ++ match urls with
                                     | [] => []
                                     | _ :: _ => [length urls]
                                     end)
  ∧ (∃ s', fetchSitemapRecursive 1 feedWeb "http://t/atom" freshStreamer
           = Some (Ok [{| loc := "http://t/e1"; lastmod := None |}], s')
         ∧ tagOf atomDoc = Some "feed"
         ∧ feedWeb !! "http://t/atom" = Some (pageOf atomDoc)).
Proof.
  split; [|eexists; split; [vm_compute; reflexivity|by split]].
  intros w url p s fuel Hvis Hp Hok Hroot Hpe Hsi Hus.
  exists (omap linkTarget (feedLinkElements (xmlDoc p))).
  destruct (linkTarget_locs (feedLinkElements (xmlDoc p))) as [Hlocs Hmod].
  pose proof (linkTarget_some (feedLinkElements (xmlDoc p))) as Hsome.
  simpl. rewrite decide_False by done. rewrite Hp, Hok. simpl.
  rewrite (querySelector_none "parsererror") by done.
  rewrite (querySelector_none "sitemapindex") by done.
  rewrite (querySelector_none "urlset") by done.
  rewrite !bool_decide_false by (by intros [? ?]). simpl.
  assert (bool_decide (is_Some (querySelector (Tag "rss") (xmlDoc p)))
          || bool_decide (is_Some (querySelector (Tag "feed") (xmlDoc p))) = true) as ->.
  { apply orb_true_iff. rewrite !bool_decide_eq_true.
    destruct Hroot as [Hr | Hr]; [left|right]; by apply querySelector_root. }
  unfold feedLinks. rewrite feed_selector.
  eexists. split; [done|]. split; [done|]. split; [done|]. split; [done|].
  destruct (omap linkTarget (feedLinkElements (xmlDoc p))); simpl; [|done].
  by rewrite app_nil_r.
Qed.

(** The Atom entry of [feedWeb] carries its address in [href]; the general
    statement, applied to it, gives the one URL of the feed. *)
Lemma streamer_reads_feed_links_witness :
  ∃ urls s', fetchSitemapRecursive 1 feedWeb "http://t/atom" freshStreamer
             = Some (Ok urls, s')
           ∧ map loc urls = ["http://t/e1"]
           ∧ urls ≠ []
           ∧ fetches s' = ["http://t/atom"]
           ∧ urlFound s' = [1%nat].
Proof.
  destruct (proj1 streamer_reads_feed_links feedWeb "http://t/atom" (pageOf atomDoc)
              freshStreamer 0%nat) as (urls & s' & Hrun & Hloc & _ & _ & Hf & Hu).
  - vm_compute. set_solver.
  - reflexivity.
  - reflexivity.
  - by right.
  - intros e He. vm_compute in He. set_solver.
  - intros e He. vm_compute in He. set_solver.
  - intros e He. vm_compute in He. set_solver.
  - exists urls, s'. split; [exact Hrun|].
    assert (Hl : map loc urls = ["http://t/e1"]) by (rewrite Hloc; vm_compute; reflexivity).
    split; [exact Hl|]. split; [by destruct urls|]. split; [exact Hf|].
    rewrite Hu. by destruct urls as [|u [|u' us]].
Defined.

(** An RSS and an Atom document, read by the streamer. *)
Example streamer_feeds :
  (fun r => r.1) <$> streamParse absoluteUrl feedWeb "http://t/rss" freshStreamer
  = Some (Ok [{| loc := "http://t/one"; lastmod := None |};
              {| loc := "http://t/two"; lastmod := None |}])
  ∧ (fun r => r.1) <$> streamParse absoluteUrl feedWeb "http://t/atom" freshStreamer
    = Some (Ok [{| loc := "http://t/e1"; lastmod := None |}]).
Proof. split; vm_compute; reflexivity. Qed.

End Feeds.

(** ** Deliveries to the local subscribers of a broadcast *)

Section Bus_deliveries.
Import EventBus.

Variable JSON_stringify : WSMessage → string.

Lemma channel_key key : Str.replace (String.append "ws:" key) "ws:" "" = key.
Proof. by destruct key. Qed.

Lemma channel_matches key : String.prefix "ws:" (String.append "ws:" key) = true.
Proof. by destruct key. Qed.

Lemma sendToOpen_frame data : ∀ sockets i,
  connections (sendToOpen data sockets i) = connections i ∧
  readyState (sendToOpen data sockets i) = readyState i ∧
  published (sendToOpen data sockets i) = published i.
Proof.
  induction sockets as [|ws rest IH]; intros i; [done|].
  simpl. destruct (isOpen i ws).
  - destruct (IH (wsSend ws data i)) as (-> & -> & ->). done.
  - apply IH.
Qed.

Lemma wsSend_deliveries x data ws d i :
  deliveries ws d (wsSend x data i)
  = (deliveries ws d i + (if decide ((x, data) = (ws, d)) then 1 else 0))%nat.
Proof.
  unfold deliveries, wsSend. simpl. rewrite filter_app, length_app, filter_cons, filter_nil.
  by destruct (decide ((x, data) = (ws, d))).
Qed.

(** A pass over distinct sockets sends [data] once to each open one and
    nothing else. *)
Lemma sendToOpen_deliveries data ws d : ∀ sockets i,
  NoDup sockets →
  deliveries ws d (sendToOpen data sockets i)
  = (deliveries ws d i +
     (if bool_decide (d = data ∧ ws ∈ sockets ∧ readyState i !! ws = Some OPEN)
      then 1 else 0))%nat.
Proof.
  induction sockets as [|x rest IH]; intros i Hnd.
  - simpl. rewrite bool_decide_false; [lia|]. intros (_ & Hin & _). by apply elem_of_nil in Hin.
  - apply NoDup_cons in Hnd as [Hx Hnd]. simpl.
    destruct (isOpen i x) eqn:Hopen; rewrite IH by done.
    + unfold isOpen in Hopen. apply bool_decide_eq_true in Hopen.
      rewrite wsSend_deliveries. cbn [readyState wsSend].
      destruct (decide ((x, data) = (ws, d))) as [[= -> ->]|Hne].
      * rewrite bool_decide_false by (by intros (_ & ? & _)).
        rewrite bool_decide_true; [lia|]. split; [done|]. split; [by left|done].
      * rewrite (bool_decide_ext _ (d = data ∧ ws ∈ x :: rest ∧ readyState i !! ws = Some OPEN));
          [lia|].
        rewrite elem_of_cons. split; [tauto|].
        intros (-> & [-> | Hin] & Ho); [done|tauto].
    + unfold isOpen in Hopen. apply bool_decide_eq_false in Hopen.
      rewrite (bool_decide_ext _ (d = data ∧ ws ∈ x :: rest ∧ readyState i !! ws = Some OPEN));
        [lia|].
      rewrite elem_of_cons. split; [tauto|].
      intros (-> & [-> | Hin] & Ho); [done|tauto].
Qed.

(** C10: with the broker delivering the instance's own publications back to
    its [ws:*] subscription, a broadcast reaches every open local subscriber
    of the key twice: once sent directly by [broadcastToProject], once more
    by the listener when the published message comes back. *)
Theorem local_subscriber_receives_broadcast_twice
    organizationId projectId message i conns ws :
  connections i !! keyOf organizationId projectId = Some conns →
  ws ∈ conns →
  readyState i !! ws = Some OPEN →
  published i = [] →
  let data := JSON_stringify message in
  let i1 := broadcastToProject JSON_stringify organizationId projectId message i in
  let i2 := brokerDelivers i1 in
  deliveries ws data i1 = S (deliveries ws data i) ∧
  published i1 = [(String.append "ws:" (keyOf organizationId projectId), data)] ∧
  deliveries ws data i2 = S (S (deliveries ws data i)) ∧
  published i2 = [].
Proof.
  intros Hc Hws Hopen Hpub. cbv zeta.
  unfold broadcastToProject. rewrite Hc.
  assert ((size conns =? 0)%nat = false) as ->.
  { apply Nat.eqb_neq. intros Hz%size_empty_iff. set_solver. }
  set (data := JSON_stringify message).
  set (key := keyOf organizationId projectId).
  destruct (sendToOpen_frame data (elements conns) i) as (Hconn & Hready & Hp).
  assert (Hin : ws ∈ elements conns) by (by apply elem_of_elements).
  assert (H1 : deliveries ws data (sendToOpen data (elements conns) i)
               = S (deliveries ws data i)).
  { rewrite sendToOpen_deliveries by apply NoDup_elements.
    rewrite bool_decide_true by done. lia. }
  split; [exact H1|]. cbn [published]. rewrite Hp, Hpub. split; [done|].
  unfold brokerDelivers. cbn [published connections readyState sent app foldl fst snd].
  rewrite channel_matches. unfold subscribeToRedis. rewrite channel_key.
  cbn [connections]. rewrite Hconn. fold key in Hc. rewrite Hc.
  set (i1 := {| connections := connections i;
                readyState := readyState (sendToOpen data (elements conns) i);
                sent := sent (sendToOpen data (elements conns) i); published := [] |}).
  destruct (sendToOpen_frame data (elements conns) i1) as (_ & _ & Hp2).
  split; [|exact Hp2].
  rewrite sendToOpen_deliveries by apply NoDup_elements.
  rewrite bool_decide_true.
  - change (deliveries ws data i1) with (deliveries ws data (sendToOpen data (elements conns) i)).
    rewrite H1. lia.
  - split; [done|]. split; [done|]. subst i1. simpl. by rewrite Hready.
Qed.

End Bus_deliveries.

Section Bus_example.
Import EventBus.

Lemma local_subscriber_receives_twice_witness :
  let data := showMessage logMessage in
  let i1 := broadcastToProject showMessage "org" "proj" logMessage twoSockets in
  let i2 := brokerDelivers i1 in
  deliveries 1 data i1 = S (deliveries 1 data twoSockets) ∧
  published i1 = [(String.append "ws:" (keyOf "org" "proj"), data)] ∧
  deliveries 1 data i2 = S (S (deliveries 1 data twoSockets)) ∧
  published i2 = [].
Proof.
  apply (local_subscriber_receives_broadcast_twice showMessage "org" "proj" logMessage
           twoSockets {[ 1%nat; 2%nat ]} 1%nat).
  - reflexivity.
  - set_solver.
  - reflexivity.
  - reflexivity.
Defined.

(** The whole log of the example: the open socket gets the message twice,
    the closed one never. *)
Example two_sockets_log :
  sent (brokerDelivers (broadcastToProject showMessage "org" "proj" logMessage twoSockets))
  = [(1%nat, "LOG scan started"); (1%nat, "LOG scan started")].
Proof. vm_compute. reflexivity. Qed.

End Bus_example.

(** ** Credential vault: what follows from the laws of the primitives *)

Section Vault_laws.
Import Vault.

Lemma nibble_hexDigit_high c : nibble (hexDigit (N_of_ascii c / 16)) = Some (N_of_ascii c / 16)%N.
Proof. by destruct c as [[] [] [] [] [] [] [] []]. Qed.

Lemma nibble_hexDigit_low c :
  nibble (hexDigit (N_of_ascii c mod 16)) = Some (N_of_ascii c mod 16)%N.
Proof. by destruct c as [[] [] [] [] [] [] [] []]. Qed.

Lemma fromHex_toHex b : fromHex (toHex b) = b.
Proof.
  induction b as [|c r IH]; [done|].
  cbn [toHex fromHex]. rewrite nibble_hexDigit_high, nibble_hexDigit_low, IH.
  f_equal. rewrite <- (ascii_N_embedding c) at 3. f_equal.
  symmetry. apply N.div_mod. done.
Qed.

Lemma toHex_truthy b : b ≠ EmptyString → Str.truthy (toHex b) = true.
Proof. by destruct b. Qed.

Variable scrypt : string → string → nat → string.
Variable gcmEncrypt : string → string → string → string * string.
Variable gcmDecrypt : string → string → string → string → option string.
Variable toBase64 fromBase64 : string → string.
Variable utf8Encode utf8Decode : string → string.

(** Decryption under the key and IV of the encryption, with the tag it
    produced, gives the plaintext back. *)
Hypothesis gcm_inverse : ∀ key ivBytes p,
  gcmDecrypt key ivBytes (gcmEncrypt key ivBytes p).1 (gcmEncrypt key ivBytes p).2 = Some p.

Hypothesis base64_inverse : ∀ b, fromBase64 (toBase64 b) = b.
Hypothesis utf8_inverse : ∀ s, utf8Decode (utf8Encode s) = s.

(** What [encryptCredentials] returns is decrypted to the plaintext when
    the salt is passed along. *)
Lemma vault_round_trip env saltBytes ivBytes x e :
  saltBytes ≠ EmptyString →
  encryptCredentials scrypt gcmEncrypt toBase64 utf8Encode env saltBytes ivBytes x = Some e →
  decryptCredentials scrypt gcmDecrypt fromBase64 utf8Encode utf8Decode env
    (encryptedData e) (iv e) (authTag e) (Some (salt e)) = Some x.
Proof.
  intros Hsalt. unfold encryptCredentials, decryptCredentials.
  destruct (getEncryptionKey env) as [password|]; [|done].
  destruct (gcmEncrypt _ _ _) as [c t] eqn:Henc. intros [= <-]. simpl.
  rewrite toHex_truthy by done. rewrite !fromHex_toHex, base64_inverse.
  pose proof (gcm_inverse (scrypt password saltBytes KEY_LENGTH) ivBytes (utf8Encode x)) as H.
  rewrite Henc in H. simpl in H. rewrite H. simpl. by rewrite utf8_inverse.
Qed.

Lemma fromHex_append b junk : fromHex (toHex b +:+ junk) = b +:+ fromHex junk.
Proof.
  induction b as [|c r IH]; [done|].
  change (toHex (String c r) +:+ junk)
    with (String (hexDigit (N_of_ascii c / 16))
            (String (hexDigit (N_of_ascii c mod 16)) (toHex r +:+ junk))).
  change (String c r +:+ fromHex junk) with (String c (r +:+ fromHex junk)).
  rewrite <- IH. cbn [fromHex].
  rewrite nibble_hexDigit_high, nibble_hexDigit_low.
  f_equal. rewrite <- (ascii_N_embedding c) at 3. f_equal.
  symmetry. apply N.div_mod. done.
Qed.

Lemma append_empty (s : string) : s +:+ EmptyString = s.
Proof.
  induction s as [|c r IH]; [done|].
  change (String c (r +:+ EmptyString) = String c r). by rewrite IH.
Qed.

(** C6 (as amended): [decryptCredentials], given the four fields that
    [encryptCredentials] returned for a plaintext [x], returns [x] (as far
    as GCM decryption undoes GCM encryption and the base64 and UTF-8 decoders
    undo the encoders).  It reads the stored fields through their decodings
    only: fields that decode to the same bytes decrypt to [x] as well, so
    that characters which are no hexadecimal digits, appended to the stored
    [iv], [authTag] and [salt], go unnoticed.  A stored [authTag] that
    decodes to 16 other bytes makes the decryption throw, as far as the
    decipher accepts a tag of 16 bytes only when it is the tag that
    encryption gives for the plaintext it returns, and the ciphertext
    determines the plaintext. *)
Theorem vault_decrypts_stored_fields_by_their_bytes env saltBytes ivBytes x e :
  saltBytes ≠ EmptyString →
  encryptCredentials scrypt gcmEncrypt toBase64 utf8Encode env saltBytes ivBytes x = Some e →
  decryptCredentials scrypt gcmDecrypt fromBase64 utf8Encode utf8Decode env
    (encryptedData e) (iv e) (authTag e) (Some (salt e)) = Some x
  ∧ (∀ data ivHex authTagHex saltHex,
       fromBase64 data = fromBase64 (encryptedData e) →
       fromHex ivHex = fromHex (iv e) →
       fromHex authTagHex = fromHex (authTag e) →
       fromHex saltHex = fromHex (salt e) →
       decryptCredentials scrypt gcmDecrypt fromBase64 utf8Encode utf8Decode env
         data ivHex authTagHex (Some saltHex) = Some x)
  ∧ (∀ junk, fromHex junk = EmptyString →
       decryptCredentials scrypt gcmDecrypt fromBase64 utf8Encode utf8Decode env
         (encryptedData e) (iv e +:+ junk) (authTag e +:+ junk) (Some (salt e +:+ junk))
       = Some x)
  ∧ ((∀ key ivBytes c t p,
        String.length t = AUTH_TAG_LENGTH →
        gcmDecrypt key ivBytes c t = Some p → gcmEncrypt key ivBytes p = (c, t)) →
     (∀ key ivBytes p p',
        (gcmEncrypt key ivBytes p).1 = (gcmEncrypt key ivBytes p').1 → p = p') →
     ∀ authTagHex,
       String.length (fromHex authTagHex) = AUTH_TAG_LENGTH →
       fromHex authTagHex ≠ fromHex (authTag e) →
       decryptCredentials scrypt gcmDecrypt fromBase64 utf8Encode utf8Decode env
         (encryptedData e) (iv e) authTagHex (Some (salt e)) = None).
Proof.
  intros Hsalt Henc.
  pose proof (vault_round_trip env saltBytes ivBytes x e Hsalt Henc) as Hrt.
  assert (Hbytes : ∀ data ivHex authTagHex saltHex,
    fromBase64 data = fromBase64 (encryptedData e) →
    fromHex ivHex = fromHex (iv e) →
    fromHex authTagHex = fromHex (authTag e) →
    fromHex saltHex = fromHex (salt e) →
    decryptCredentials scrypt gcmDecrypt fromBase64 utf8Encode utf8Decode env
      data ivHex authTagHex (Some saltHex) = Some x).
  { intros data ivHex authTagHex saltHex Hd Hi Ht Hs. rewrite <- Hrt.
    unfold encryptCredentials in Henc. unfold decryptCredentials.
    destruct (getEncryptionKey env) as [password|]; [|done].
    destruct (gcmEncrypt _ _ _) as [c t]. inversion Henc; subst e.
    cbn [encryptedData iv authTag salt] in *.
    rewrite Hd, Hi, Ht, Hs. rewrite toHex_truthy by done.
    assert (Str.truthy saltHex = true) as ->; [|done].
    destruct saltHex; [|done]. rewrite fromHex_toHex in Hs. by destruct saltBytes. }
  split; [done|]. split; [done|]. split.
  - intros junk Hjunk.
    assert (Hfield : ∀ b, fromHex (toHex b +:+ junk) = fromHex (toHex b)).
    { intros b. by rewrite fromHex_append, Hjunk, append_empty, fromHex_toHex. }
    unfold encryptCredentials in Henc.
    destruct (getEncryptionKey env) as [password|] eqn:Hkey; [|done].
    destruct (gcmEncrypt _ _ _) as [c t] eqn:Hc. inversion Henc; subst e.
    cbn [encryptedData iv authTag salt] in *.
    apply Hbytes; [done|apply Hfield..].
  - intros Hchecked Hinj authTagHex Hlen Hne.
    unfold encryptCredentials in Henc. unfold decryptCredentials.
    destruct (getEncryptionKey env) as [password|]; [|done].
    destruct (gcmEncrypt _ _ _) as [c t] eqn:Hc. inversion Henc; subst e.
    cbn [encryptedData iv authTag salt] in *.
    rewrite toHex_truthy by done. rewrite !fromHex_toHex, base64_inverse in *.
    destruct (gcmDecrypt _ _ _ _) as [p'|] eqn:Hdec; [|done].
    exfalso. apply Hchecked in Hdec; [|done].
    assert (p' = utf8Encode x) as ->.
    { apply (Hinj (scrypt password saltBytes KEY_LENGTH) ivBytes). by rewrite Hdec, Hc. }
    rewrite Hc in Hdec. by inversion Hdec.
Qed.

End Vault_laws.

Section Vault_example.
Import Vault.

Lemma plainOpen_inverse key ivBytes p :
  plainOpen key ivBytes (plainSeal key ivBytes p).1 (plainSeal key ivBytes p).2 = Some p.
Proof. unfold plainOpen, plainSeal. simpl. by rewrite decide_True. Qed.

(** The round trip on the stand-ins. *)
Example vault_round_trip_example e :
  encryptCredentials plainScrypt plainSeal id id passphrase "salt" "iv" "{}" = Some e →
  decryptCredentials plainScrypt plainOpen id id id passphrase
    (encryptedData e) (iv e) (authTag e) (Some (salt e)) = Some "{}".
Proof.
  apply (vault_round_trip plainScrypt plainSeal plainOpen id id id id);
    [apply plainOpen_inverse|done..].
Qed.

Lemma plainOpen_checked key ivBytes c t p :
  plainOpen key ivBytes c t = Some p → plainSeal key ivBytes p = (c, t).
Proof. unfold plainOpen, plainSeal. case_decide as Ht; [|done]. intros [= <-]. by rewrite Ht. Qed.

(** C6, counterexample: the stored [iv] and [authTag] with two characters
    appended are other texts, and the decryption still returns the
    plaintext: [Buffer.from(text, 'hex')] stops at the first character that
    is no hexadecimal digit. *)
Lemma vault_accepts_altered_iv_and_tag :
  ∃ e, encryptCredentials plainScrypt plainSeal id id passphrase "salt" "iv" "{}" = Some e
     ∧ iv e = "6976"
     ∧ fromHex "6976zz" = fromHex "6976"
     ∧ authTag e +:+ "zz" ≠ authTag e
     ∧ fromHex (authTag e +:+ "zz") = fromHex (authTag e)
     ∧ decryptCredentials plainScrypt plainOpen id id id passphrase
         (encryptedData e) "6976zz" (authTag e +:+ "zz") (Some (salt e)) = Some "{}".
Proof. eexists. split; [reflexivity|]. vm_compute. repeat split; congruence. Qed.

Lemma vault_decrypts_stored_fields_witness :
  ∃ e, encryptCredentials plainScrypt plainSeal id id passphrase "salt" "iv" "{}" = Some e
     ∧ decryptCredentials plainScrypt plainOpen id id id passphrase
         (encryptedData e) (iv e) (authTag e) (Some (salt e)) = Some "{}"
     ∧ decryptCredentials plainScrypt plainOpen id id id passphrase
         (encryptedData e) (iv e +:+ "zz") (authTag e +:+ "zz") (Some (salt e +:+ "zz"))
       = Some "{}"
     ∧ decryptCredentials plainScrypt plainOpen id id id passphrase
         (encryptedData e) (iv e) (toHex "0123456789abcdef") (Some (salt e)) = None.
Proof.
  eexists. split; [reflexivity|].
  destruct (vault_decrypts_stored_fields_by_their_bytes plainScrypt plainSeal plainOpen
              id id id id plainOpen_inverse (fun _ => eq_refl) (fun _ => eq_refl)
              passphrase "salt" "iv" "{}" _ ltac:(discriminate) eq_refl)
    as (Hrt & _ & Hjunk & Htag).
  split; [exact Hrt|]. split; [exact (Hjunk "zz" eq_refl)|].
  apply Htag.
  - intros key ivBytes c t p _. apply plainOpen_checked.
  - intros key ivBytes p p' Hp. exact Hp.
  - reflexivity.
  - vm_compute. discriminate.
Defined.

End Vault_example.

(** * Further properties of the code *)

(** ** google-submitter worker: requests, rows and errors of one job *)

Section Google_job.
Import GoogleWorker.

Lemma pRetry_replies api loc : ∀ retries sent,
  ∃ k, (1 ≤ k ≤ S retries)%nat ∧
       (pRetry retries api loc sent).2 = (sent + k)%nat ∧
       (pRetry retries api loc sent).1 = api (sent + k - 1)%nat loc ∧
       (∀ j, (j < k - 1)%nat → ∃ c m, api (sent + j)%nat loc = Rejected c m) ∧
       ((∃ c m, (pRetry retries api loc sent).1 = Rejected c m) → k = S retries).
Proof.
  induction retries as [|n IH]; intros sent; simpl.
  - exists 1%nat. replace (sent + 1 - 1)%nat with sent by lia.
    destruct (api sent loc) as [st|c m] eqn:Hreply; simpl;
      (split; [lia|]); (split; [lia|]); (split; [done|]); (split; [intros j Hj; lia|done]).
  - destruct (api sent loc) as [st|c m] eqn:Hreply; simpl.
    + exists 1%nat. replace (sent + 1 - 1)%nat with sent by lia.
      split; [lia|]. split; [lia|]. split; [done|]. split; [intros j Hj; lia|].
      intros (c & m & Hr). discriminate.
    + destruct (IH (S sent)) as (k & Hk & Hn & Hlast & Hrej & Hall).
      exists (S k). split; [lia|]. split; [lia|]. split.
      { rewrite Hlast. f_equal. lia. }
      split; [|intros Hr; f_equal; by apply Hall].
      intros [|j] Hj.
      * replace (sent + 0)%nat with sent by lia. eauto.
      * destruct (Hrej j) as (c' & m' & Hj'); [lia|].
        exists c', m'. rewrite <- Hj'. f_equal. lia.
Qed.

(** [submitSingleUrl] sends between one and four publish requests for
    its URL, all of them rejected except possibly the last; it reports a
    success with the status of the first request that resolves, and a
    failure, with the code and message of the fourth rejection, only when
    all four were rejected. *)
Theorem submitSingleUrl_retries_until_resolved api (urlRecord : string * string) sent :
  let r := submitSingleUrl api urlRecord sent in
  urlId r.1 = urlRecord.1 ∧
  ∃ k, (1 ≤ k ≤ 4)%nat ∧ r.2 = (sent + k)%nat ∧
       (∀ j, (j < k - 1)%nat → ∃ c m, api (sent + j)%nat urlRecord.2 = Rejected c m) ∧
       match api (sent + k - 1)%nat urlRecord.2 with
       | Resolved s => success r.1 = true ∧ responseCode r.1 = Some s ∧ error r.1 = None
       | Rejected c m =>
           k = 4%nat ∧ success r.1 = false ∧ responseCode r.1 = c ∧ error r.1 = Some m
       end.
Proof.
  cbv zeta. unfold submitSingleUrl.
  destruct (pRetry_replies api urlRecord.2 MAX_RETRIES sent) as (k & Hk & Hn & Hlast & Hrej & Hall).
  destruct (pRetry MAX_RETRIES api urlRecord.2 sent) as [reply n] eqn:Hrun.
  simpl in Hn, Hlast, Hall. subst n.
  destruct reply as [st|c m]; simpl; (split; [done|]); exists k;
    (split; [done|]); (split; [done|]); (split; [done|]); rewrite <- Hlast.
  - done.
  - split; [|done]. apply Hall. eauto.
Qed.

Lemma submitSingleUrl_requests api urlRecord sent :
  (sent + 1 ≤ (submitSingleUrl api urlRecord sent).2 ≤ sent + 4)%nat.
Proof.
  unfold submitSingleUrl.
  destruct (pRetry_replies api urlRecord.2 MAX_RETRIES sent) as (k & Hk & Hn & _).
  unfold MAX_RETRIES in *.
  destruct (pRetry 3 api urlRecord.2 sent) as [[st|c m] n]; simpl in *; lia.
Qed.

Lemma submitAll_requests api : ∀ urlRecords sent,
  (sent + length urlRecords ≤ (submitAll api urlRecords sent).2
   ≤ sent + 4 * length urlRecords)%nat.
Proof.
  induction urlRecords as [|r rest IH]; intros sent; simpl; [lia|].
  pose proof (submitSingleUrl_requests api r sent) as H1.
  destruct (submitSingleUrl api r sent) as [res n]. simpl in H1.
  pose proof (IH n) as H2.
  destruct (submitAll api rest n) as [more n']. simpl in *. lia.
Qed.

Lemma success_fail_counts results :
  (successCountOf results + failCountOf results = length results)%nat.
Proof.
  unfold successCountOf, failCountOf.
  induction results as [|r rs IH]; [done|].
  rewrite !filter_cons.
  destruct (success r); repeat case_decide; simpl; try congruence; lia.
Qed.

Lemma slice0_within {A} (xs : list A) e : (length (slice0 xs e) ≤ length xs)%nat.
Proof. unfold slice0. destruct (e <? 0); rewrite length_take; lia. Qed.

(** X1: a job that returns on a table with unique ids has attempted no
    more URLs than the quota left when it started and no more than it was
    asked for, has sent between one and four requests per attempted URL, and
    has added the number of its successes to the quota row. *)
Theorem google_job_stays_within_remaining_quota api today now p d :
  NoDup (map u_id (urls_t d)) →
  let used := Quota.used (quota_t d) (projectId p, GOOGLE, today) in
  let r := googleSubmitterWorker api true today now p d in
  ∀ successCount failCount,
    r.1.1 = Returned successCount failCount →
    Z.of_nat (successCount + failCount) <= DAILY_QUOTA - used ∧
    (successCount + failCount ≤ length (urlIds p))%nat ∧
    (successCount + failCount ≤ r.2 ≤ 4 * (successCount + failCount))%nat ∧
    Quota.used (quota_t r.1.2) (projectId p, GOOGLE, today) = used + Z.of_nat successCount.
Proof.
  intros Hnd. cbv zeta. intros sc fc.
  unfold googleSubmitterWorker, checkQuota. simpl.
  set (used := Quota.used (quota_t d) (projectId p, GOOGLE, today)).
  destruct (DAILY_QUOTA - used <=? 0) eqn:Hrem; [done|].
  apply Z.leb_gt in Hrem.
  set (ids := slice0 (urlIds p) (DAILY_QUOTA - used)).
  destruct (submitAndRecord_cases api today now p ids d) as [[_ ->]|[_ ->]]; [done|].
  pose proof (submitAll_requests api (selectByIds ids (urls_t d)) 0) as Hreq.
  destruct (submitAll api (selectByIds ids (urls_t d)) 0) as [results sent] eqn:Hall.
  simpl in *. intros [= <- <-].
  apply submitAll_length in Hall.
  pose proof (success_fail_counts results) as Hsum.
  pose proof (selectByIds_length ids (urls_t d) Hnd) as Hsel.
  pose proof (slice0_length (urlIds p) _ Hrem) as Hsl.
  pose proof (slice0_within (urlIds p) (DAILY_QUOTA - used)) as Hin.
  fold ids in Hsl, Hin. rewrite used_upsert. fold used.
  repeat split; lia.
Qed.

Lemma google_job_stays_within_quota_witness :
  let r := googleSubmitterWorker always200 true 0 7
             (payloadOf "j" ["1"; "2"; "3"; "4"; "5"]) used198 in
  Z.of_nat (2 + 0) <= DAILY_QUOTA - Quota.used (quota_t used198) ("p", GOOGLE, 0) ∧
  (2 + 0 ≤ 5)%nat ∧
  (2 + 0 ≤ r.2 ≤ 4 * (2 + 0))%nat ∧
  Quota.used (quota_t r.1.2) ("p", GOOGLE, 0)
  = Quota.used (quota_t used198) ("p", GOOGLE, 0) + Z.of_nat 2.
Proof.
  apply (google_job_stays_within_remaining_quota always200 0 7
           (payloadOf "j" ["1"; "2"; "3"; "4"; "5"]) used198).
  - vm_compute. repeat (constructor; [set_solver|]). constructor.
  - vm_compute. reflexivity.
Defined.

Lemma completed_ids pid results :
  map s_urlId (filter (fun s => s_status s = COMPLETED) (map (toSubmission pid) results))
  = map urlId (filter (fun r => success r = true) results).
Proof.
  induction results as [|r rs IH]; [done|].
  simpl. rewrite !filter_cons. simpl.
  destruct (success r); simpl; repeat case_decide; simpl; congruence.
Qed.

Lemma markSubmitted_none now (t : list url_row) : map (markSubmitted now []) t = t.
Proof.
  induction t as [|r t IH]; [done|]. cbn [map]. rewrite IH. f_equal.
Qed.

(** X2: the rows a job appends to [submissions] are Google rows of its
    project, and a row of [urls] is set to SUBMITTED (with the time of the
    job) exactly when the job appended a COMPLETED submission for its id;
    every other row, and every row of a job that throws, is left as it
    was. *)
Theorem google_job_marks_exactly_completed_urls api credential today now p d :
  let r := googleSubmitterWorker api credential today now p d in
  let written := drop (length (submissions_t d)) (submissions_t r.1.2) in
  let completed := map s_urlId (filter (fun s => s_status s = COMPLETED) written) in
  submissions_t r.1.2 = submissions_t d ++ written ∧
  Forall (fun s => s_engine s = GOOGLE ∧ s_projectId s = projectId p) written ∧
  urls_t r.1.2 = map (markSubmitted now completed) (urls_t d).
Proof.
  cbv zeta. unfold googleSubmitterWorker.
  assert (Hsame : submissions_t d = submissions_t d ++ drop (length (submissions_t d)) (submissions_t d)
                  ∧ Forall (fun s => s_engine s = GOOGLE ∧ s_projectId s = projectId p)
                      (drop (length (submissions_t d)) (submissions_t d))
                  ∧ urls_t d = map (markSubmitted now
                      (map s_urlId (filter (fun s => s_status s = COMPLETED)
                         (drop (length (submissions_t d)) (submissions_t d))))) (urls_t d)).
  { rewrite drop_all, app_nil_r. simpl. by rewrite markSubmitted_none. }
  destruct credential; simpl; [|done].
  destruct (checkQuota d p today) as [msg|ids]; [done|].
  destruct (submitAndRecord_cases api today now p ids d) as [[_ ->]|[_ ->]]; [done|].
  destruct (submitAll api (selectByIds ids (urls_t d)) 0) as [results sent]. simpl.
  rewrite drop_app_length. split; [done|]. split.
  - apply Forall_forall. intros s (r & -> & _)%list_elem_of_fmap. done.
  - rewrite completed_ids. case_decide as Hnone; [|done].
    by rewrite Hnone, markSubmitted_none.
Qed.

(** The handler throws exactly when the project has no Google
    credential, the quota row of the day has reached 200, or no row of [urls]
    is selected by the ids it keeps; it has then sent no request and written
    nothing. *)
Theorem google_job_throws_before_any_request api credential today now p d :
  let r := googleSubmitterWorker api credential today now p d in
  let used := Quota.used (quota_t d) (projectId p, GOOGLE, today) in
  ((∃ message, r.1.1 = Threw message)
   ↔ credential = false ∨ DAILY_QUOTA <= used
     ∨ selectByIds (slice0 (urlIds p) (DAILY_QUOTA - used)) (urls_t d) = [])
  ∧ ((∃ message, r.1.1 = Threw message) → r.1.2 = d ∧ r.2 = 0%nat).
Proof.
  cbv zeta. unfold googleSubmitterWorker, checkQuota.
  destruct credential; simpl.
  - destruct (_ <=? 0) eqn:Hrem.
    + apply Z.leb_le in Hrem. split; [|done]. split; [intros _; right; left; lia|eauto].
    + apply Z.leb_gt in Hrem.
      set (ids := slice0 _ _).
      pose proof (submitAll_length api (selectByIds ids (urls_t d)) 0%nat) as Hlen.
      destruct (submitAndRecord_cases api today now p ids d) as [[Hnone ->]|[Hsome ->]];
        cbv zeta in *;
        destruct (submitAll api (selectByIds ids (urls_t d)) 0%nat) as [results sent] eqn:Hall;
        cbn [fst snd] in *; specialize (Hlen results sent eq_refl).
      * subst results. destruct (selectByIds ids (urls_t d)) as [|u us] eqn:Hsel; [|done].
        simpl in Hall. injection Hall as <-.
        split; [|done]. split; [intros _; right; by right|eauto].
      * split; [split|]; [intros [m Hm]; discriminate| |intros [m Hm]; discriminate].
        intros [?|[?|Hsel]]; [done|lia|].
        rewrite Hsel in Hlen. by destruct results.
  - split; [|done]. split; [by left|eauto].
Qed.

End Google_job.

(** ** indexnow-submitter worker: posts and rows of one job *)

Section IndexNow_job.
Import IndexNowWorker.

Lemma engines_partition (results : list (string * (engine_result * list (list string)))) :
  map fst (filter (fun r => success r.2.1 = true) results)
  ++ map fst (filter (fun r => success r.2.1 = false) results)
  ≡ₚ map fst results.
Proof.
  induction results as [|r rs IH]; [done|].
  rewrite !filter_cons. destruct (success r.2.1); repeat case_decide; try congruence; simpl.
  - by f_equiv.
  - rewrite <- Permutation_middle. by f_equiv.
Qed.

Lemma submitToEngine_posts api endpoint urlList :
  ∃ k, (1 ≤ k ≤ 4)%nat ∧ (submitToEngine api endpoint urlList).2 = replicate k urlList.
Proof.
  unfold submitToEngine.
  destruct (pRetryPost MAX_RETRIES api endpoint urlList []) as [r posted1] eqn:Hrun.
  apply pRetryPost_posts_whole_list in Hrun as (k & Hk & ->).
  exists k. split; [unfold MAX_RETRIES in Hk; lia|done].
Qed.

(** X3: a job whose project and key exist posts before it writes: each
    of the four endpoints, in the order of [INDEXNOW_ENDPOINTS], is posted
    the whole list of selected locations between one and four times, also
    when that list is empty.  The job returns exactly when at least one row
    of [urls] is selected; the engines are then split between
    [successfulEngines] and [failedEngines] and [urlCount] is the number of
    requested ids, whatever the quota row holds (the handler never reads
    it).  When no row is selected it throws at the insertion of the
    submission records and leaves the tables as they were. *)
Theorem indexnow_job_posts_whole_list_to_each_endpoint api domain key today now p d :
  let r := indexNowSubmitterWorker api (Some domain) (Some key) today now p d in
  let records := filter (fun row => u_id row ∈ urlIds p) (urls_t d) in
  let urlList := map u_loc records in
  map fst r.2 = map fst INDEXNOW_ENDPOINTS ∧
  Forall (fun ep => ∃ k, (1 ≤ k ≤ 4)%nat ∧ ep.2 = replicate k urlList) r.2 ∧
  match r.1.1 with
  | Returned ret =>
      records ≠ [] ∧ urlCount ret = length (urlIds p) ∧
      successfulEngines ret ++ failedEngines ret ≡ₚ map fst INDEXNOW_ENDPOINTS
  | Threw message =>
      records = [] ∧ message = "values() must be called with at least one value" ∧
      r.1.2 = d
  end.
Proof.
  cbv zeta. unfold indexNowSubmitterWorker.
  set (records := filter (fun row => u_id row ∈ urlIds p) (urls_t d)).
  set (urlList := map u_loc records).
  set (results := map (fun ee : string * string => (ee.1, submitToEngine api ee.2 urlList))
                    INDEXNOW_ENDPOINTS).
  assert (Hnames : map fst results = map fst INDEXNOW_ENDPOINTS).
  { subst results. rewrite map_map. by apply map_ext. }
  assert (Hposts : map fst (map (fun r : string * (engine_result * list (list string)) =>
                                   (r.1, r.2.2)) results)
                   = map fst INDEXNOW_ENDPOINTS
                   ∧ Forall (fun ep : string * list (list string) =>
                               ∃ k, (1 ≤ k ≤ 4)%nat ∧ ep.2 = replicate k urlList)
                       (map (fun r : string * (engine_result * list (list string)) =>
                               (r.1, r.2.2)) results)).
  { split.
    - rewrite map_map. cbn [fst]. exact Hnames.
    - apply Forall_forall. intros ep (r & -> & Hr)%list_elem_of_fmap.
      subst results. apply list_elem_of_fmap in Hr as (ee & -> & _). cbn [fst snd].
      apply submitToEngine_posts. }
  destruct Hposts as [Hfst Hall].
  destruct records as [|r0 rs] eqn:Hrec; cbn [fst snd].
  - split; [done|]. split; [done|]. done.
  - split; [done|]. split; [done|]. split; [done|]. split; [done|].
    cbn [successfulEngines failedEngines]. rewrite <- Hnames. apply engines_partition.
Qed.

(** X4: a job that returns appends one submission row per selected url
    row, all with the same outcome: COMPLETED with code 200 when at least one
    engine accepted the list, FAILED with code 500 when none did.  The url
    rows are marked through [bingStatus] in the first case only, and
    [googleStatus] is never touched.  A job that throws has selected no row
    and has written nothing: no submission, no status and no quota row. *)
Theorem indexnow_job_rows_follow_any_success api domain key today now p d :
  let r := indexNowSubmitterWorker api (Some domain) (Some key) today now p d in
  let written := drop (length (submissions_t d)) (submissions_t r.1.2) in
  let records := filter (fun row => u_id row ∈ urlIds p) (urls_t d) in
  submissions_t r.1.2 = submissions_t d ++ written ∧
  map s_urlId written = map u_id records ∧
  map u_googleStatus (urls_t r.1.2) = map u_googleStatus (urls_t d) ∧
  match r.1.1 with
  | Returned ret =>
      records ≠ [] ∧
      match successfulEngines ret with
      | [] =>
          Forall (fun s => s_status s = FAILED ∧ s_responseCode s = Some 500) written
          ∧ urls_t r.1.2 = urls_t d
      | _ :: _ =>
          Forall (fun s => s_status s = COMPLETED ∧ s_responseCode s = Some 200) written
          ∧ urls_t r.1.2 = map (markBingSubmitted now (urlIds p)) (urls_t d)
      end
  | Threw _ => records = [] ∧ r.1.2 = d
  end.
Proof.
  cbv zeta. unfold indexNowSubmitterWorker.
  set (records := filter (fun row => u_id row ∈ urlIds p) (urls_t d)).
  set (ok := map fst (filter _ _)).
  destruct records as [|r0 rs] eqn:Hrec; cbn [fst snd submissions_t urls_t].
  { rewrite drop_all, app_nil_r. done. }
  rewrite drop_app_length. split; [done|]. split; [by rewrite map_map|].
  split.
  - destruct (bool_decide (ok ≠ [])); [|done].
    rewrite map_map. apply map_ext. intros row. unfold markBingSubmitted. by case_decide.
  - split; [done|]. cbn [successfulEngines].
    destruct ok as [|e es].
    + rewrite bool_decide_false by (by intros H). split; [|done].
      apply Forall_forall. by intros s (row & -> & _)%list_elem_of_fmap.
    + rewrite bool_decide_true by done. split; [|done].
      apply Forall_forall. by intros s (row & -> & _)%list_elem_of_fmap.
Qed.

End IndexNow_job.

(** ** Browser indexing service: what a call accounts for *)

Section IndexingService_counts.
Import IndexingService.

Lemma sleepBound_mono : ∀ retries b b', 0 <= b <= b' → sleepBound retries b <= sleepBound retries b'.
Proof.
  induction retries as [|k IH]; intros b b' Hb; [done|].
  destruct k as [|k']; [done|].
  change (b + sleepBound (S k') (b * 3 / 2) <= b' + sleepBound (S k') (b' * 3 / 2)).
  assert (0 <= b * 3 / 2 <= b' * 3 / 2).
  { split; [apply Z.div_pos; lia|apply Z.div_le_mono; lia]. }
  pose proof (IH (b * 3 / 2) (b' * 3 / 2)). lia.
Qed.

Lemma sleepBound_nonneg : ∀ retries b, 0 <= b → 0 <= sleepBound retries b.
Proof.
  induction retries as [|k IH]; intros b Hb; [done|].
  destruct k as [|k']; [done|].
  change (0 <= b + sleepBound (S k') (b * 3 / 2)).
  assert (0 <= b * 3 / 2) by (apply Z.div_pos; lia).
  pose proof (IH (b * 3 / 2)). lia.
Qed.

Lemma sleepBound_step k b :
  (0 < k)%nat → sleepBound (S k) b = b + sleepBound k (b * 3 / 2).
Proof. by destruct k; [lia|]. Qed.

Lemma attemptUrl_requests api url : ∀ retries backoff s r s',
  (0 < retries)%nat → 0 <= backoff →
  attemptUrl retries backoff api url s = (r, s') →
  r_msg r ≠ Some MaxRetriesExceeded ∧ (r_success r = true ↔ r_msg r = None) ∧
  ∃ k, (1 ≤ k ≤ retries)%nat ∧ requests s' = requests s ++ replicate k url ∧
       slept s <= slept s' <= slept s + sleepBound retries backoff.
Proof.
  induction retries as [|k IH]; intros backoff s r s' Hpos Hb Hrun; [lia|].
  pose proof (sleepBound_nonneg (S k) backoff Hb) as Hnn.
  assert (Hone : ∀ m, (r_msg m ≠ Some MaxRetriesExceeded ∧ (r_success m = true ↔ r_msg m = None)) →
            (m, send url s) = (r, s') →
            r_msg r ≠ Some MaxRetriesExceeded ∧ (r_success r = true ↔ r_msg r = None) ∧
            ∃ j, (1 ≤ j ≤ S k)%nat ∧ requests s' = requests s ++ replicate j url ∧
                 slept s <= slept s' <= slept s + sleepBound (S k) backoff).
  { intros m [Hm1 Hm2] [= <- <-]. split; [done|]. split; [done|].
    exists 1%nat. cbn [replicate send requests slept]. split; [lia|]. split; [done|]. lia. }
  assert (Hmore : ∀ backoff', backoff <= backoff' <= backoff * 3 / 2 →
            (1 <? S k)%nat = true →
            attemptUrl k backoff' api url (sleep backoff (send url s)) = (r, s') →
            r_msg r ≠ Some MaxRetriesExceeded ∧ (r_success r = true ↔ r_msg r = None) ∧
            ∃ j, (1 ≤ j ≤ S k)%nat ∧ requests s' = requests s ++ replicate j url ∧
                 slept s <= slept s' <= slept s + sleepBound (S k) backoff).
  { intros backoff' Hb' Hlt%Nat.ltb_lt Hrec.
    apply IH in Hrec as (Hm1 & Hm2 & j & Hj & Hreq & Hsl); [|lia..].
    split; [done|]. split; [done|]. exists (S j). split; [lia|].
    simpl in Hreq, Hsl. split; [by rewrite Hreq, <- app_assoc|].
    rewrite sleepBound_step by lia.
    pose proof (sleepBound_mono k backoff' (backoff * 3 / 2)). lia. }
  assert (Hgrow : backoff <= backoff * 3 / 2).
  { apply Z.div_le_lower_bound; lia. }
  cbn [attemptUrl] in Hrun.
  destruct (api (length (requests s)) url) as [status msg|].
  - destruct (res_ok status); [eapply Hone; [|exact Hrun]; by split|].
    destruct (status =? 429).
    { destruct (Str.includes (Str.toLowerCase msg) "quota");
        [eapply Hone; [|exact Hrun]; by split|].
      destruct (1 <? S k)%nat eqn:Hlt; [|eapply Hone; [|exact Hrun]; by split].
      apply (Hmore (backoff * 3 / 2)); [lia|done..]. }
    destruct (status =? 403).
    { destruct (_ || _); eapply Hone; [|exact Hrun| |exact Hrun]; by split. }
    eapply Hone; [|exact Hrun]; by split.
  - destruct (1 <? S k)%nat eqn:Hlt; [|eapply Hone; [|exact Hrun]; by split].
    apply (Hmore backoff); [lia|done..].
Qed.

(** X5: one URL of [submitGoogleUrls] costs between one and four requests,
    all for that URL, and at most 9.5 seconds of pauses (2 s, 3 s and 4.5 s);
    the result is a success exactly when it carries no message, and the
    message "Max Retries Exceeded" that follows the retry loop in the source
    is never returned. *)
Theorem attemptUrl_sends_at_most_four_requests api url s :
  let r := attemptUrl 4 2000 api url s in
  r_msg r.1 ≠ Some MaxRetriesExceeded ∧
  (r_success r.1 = true ↔ r_msg r.1 = None) ∧
  ∃ k, (1 ≤ k ≤ 4)%nat ∧ requests r.2 = requests s ++ replicate k url ∧
       slept s <= slept r.2 <= slept s + 9500.
Proof.
  cbv zeta. destruct (attemptUrl 4 2000 api url s) as [r s'] eqn:Hrun.
  apply attemptUrl_requests in Hrun; [|lia..]. exact Hrun.
Qed.

#[local] Arguments attemptUrl : simpl never.

Lemma pushDetail_NoDup m details : NoDup details → NoDup (pushDetail m details).
Proof.
  intros Hnd. destruct m as [x|]; [|done]. unfold pushDetail.
  case_decide as Hin; [done|].
  apply NoDup_app. split; [done|]. split; [|apply NoDup_singleton].
  intros y Hy Hy'%list_elem_of_singleton. by subst.
Qed.

Lemma pushDetail_length m details :
  (length details ≤ length (pushDetail m details) ≤ S (length details))%nat.
Proof.
  destruct m as [x|]; simpl; [|lia]. case_decide; [lia|].
  rewrite length_app. simpl. lia.
Qed.

Lemma submitGoogleUrls_from_counts api : ∀ urls acc s res s',
  NoDup (errorDetails acc) →
  (length (errorDetails acc) ≤ errors acc)%nat →
  submitGoogleUrls_from api urls acc s = (res, s') →
  ∃ (n : nat) (sent : list string),
    (n ≤ length urls)%nat ∧
    (submitted res + errors res = submitted acc + errors acc + n)%nat ∧
    (errors acc ≤ errors res)%nat ∧
    (abort res = false → abort acc = false → n = length urls) ∧
    (abort res = true → abort acc = true ∨ (errors acc < errors res)%nat) ∧
    NoDup (errorDetails res) ∧ (length (errorDetails res) ≤ errors res)%nat ∧
    requests s' = requests s ++ sent ∧ (n ≤ length sent ≤ 4 * n)%nat.
Proof.
  induction urls as [|url rest IH]; intros acc s res s' Hnd Hlen Hrun; simpl in Hrun.
  - inversion Hrun; subst. exists 0%nat, []. rewrite app_nil_r. simpl.
    repeat split; try done; try lia. intros ->. by left.
  - destruct (attemptUrl 4 2000 api url s) as [r s1] eqn:Hat.
    apply attemptUrl_requests in Hat as (_ & _ & k & Hk & Hreq & _); [|lia..].
    set (acc1 := if r_success r
                 then {| submitted := S (submitted acc); errors := errors acc;
                         errorDetails := errorDetails acc; abort := false |}
                 else {| submitted := submitted acc; errors := S (errors acc);
                         errorDetails := pushDetail (r_msg r) (errorDetails acc);
                         abort := false |}) in *.
    assert (Hacc1 : NoDup (errorDetails acc1) ∧
                    (length (errorDetails acc1) ≤ errors acc1)%nat ∧
                    (submitted acc1 + errors acc1 = S (submitted acc + errors acc))%nat ∧
                    (errors acc ≤ errors acc1)%nat ∧
                    (r_success r = false → errors acc < errors acc1)%nat ∧
                    abort acc1 = false).
    { subst acc1. destruct (r_success r); simpl.
      - repeat split; try done; lia.
      - pose proof (pushDetail_length (r_msg r) (errorDetails acc)).
        repeat split; try done; try lia. by apply pushDetail_NoDup. }
    destruct Hacc1 as (Hnd1 & Hlen1 & Hsum1 & Herr1 & Hfail1 & Hab1).
    destruct (negb (r_success r) && r_fatal r) eqn:Hfatal.
    + inversion Hrun; subst res s'. simpl.
      apply andb_true_iff in Hfatal as [Hns%negb_true_iff _].
      exists 1%nat, (replicate k url). rewrite length_replicate.
      repeat split; try done; try lia. intros _. right. by apply Hfail1.
    + apply IH in Hrun as (n & sent & Hn & Hsum & Herr & Hnoab & Hab & Hnd' & Hlen' & Hreq' & Hsent);
        [|done..].
      exists (S n), (replicate k url ++ sent).
      rewrite length_app, length_replicate. simpl.
      split; [lia|]. split; [lia|]. split; [lia|]. split; [|split; [|split; [done|split; [done|split]]]].
      * intros Hr _. f_equal. by apply Hnoab.
      * intros Hr. destruct (Hab Hr) as [Habs|Hlt]; [congruence|]. right. lia.
      * rewrite Hreq'. destruct rest; simpl; by rewrite Hreq, <- app_assoc.
      * lia.
Qed.

(** X6: [submitGoogleUrls] counts every URL it processed exactly once, as
    submitted or as an error; without an abort it processed all of them, an
    abort comes with at least one error, the error details hold no message
    twice and never more messages than errors, and the call sent between one
    and four requests per processed URL. *)
Theorem submitGoogleUrls_accounts_for_every_url api urls s :
  let r := submitGoogleUrls api urls s in
  (submitted r.1 + errors r.1 ≤ length urls)%nat ∧
  (abort r.1 = false → (submitted r.1 + errors r.1)%nat = length urls) ∧
  (abort r.1 = true → (1 ≤ errors r.1)%nat) ∧
  NoDup (errorDetails r.1) ∧
  (length (errorDetails r.1) ≤ errors r.1)%nat ∧
  ∃ sent, requests r.2 = requests s ++ sent ∧
          (submitted r.1 + errors r.1 ≤ length sent ≤ 4 * (submitted r.1 + errors r.1))%nat.
Proof.
  cbv zeta. unfold submitGoogleUrls.
  destruct (submitGoogleUrls_from api urls _ s) as [res s'] eqn:Hrun.
  apply submitGoogleUrls_from_counts in Hrun
    as (n & sent & Hn & Hsum & Herr & Hnoab & Hab & Hnd & Hlen & Hreq & Hsent);
    [|apply NoDup_nil_2|simpl; lia].
  simpl in *.
  split; [lia|]. split; [intros Hr; rewrite <- (Hnoab Hr); [lia|done]|].
  split; [intros Hr; destruct (Hab Hr); [done|lia]|].
  split; [done|]. split; [done|]. exists sent. split; [done|]. lia.
Qed.

End IndexingService_counts.

(** ** IndexNow in the browser: every URL of a batch is accounted for *)

Section IndexNow_counts.

Lemma attemptLoop_result api urls : ∀ retries s r s',
  IndexNowRetry.attemptLoop retries api urls s = (r, s') →
  ((IndexNowRetry.submitted r = length urls ∧ IndexNowRetry.errors r = 0%nat) ∨
   (IndexNowRetry.submitted r = 0%nat ∧ IndexNowRetry.errors r = length urls)) ∧
  ∃ k, (1 ≤ k ≤ S retries)%nat ∧
       IndexNowRetry.posted s' = IndexNowRetry.posted s ++ replicate k urls ∧
       IndexNowRetry.waited s' = IndexNowRetry.waited s + 3000 * (Z.of_nat k - 1).
Proof.
  induction retries as [|n IH]; intros s r s' Hrun; simpl in Hrun.
  - assert (Hend : ∀ m, ((IndexNowRetry.submitted m = length urls ∧ IndexNowRetry.errors m = 0%nat) ∨
                         (IndexNowRetry.submitted m = 0%nat ∧ IndexNowRetry.errors m = length urls)) →
              (m, IndexNowRetry.send urls s) = (r, s') →
              ((IndexNowRetry.submitted r = length urls ∧ IndexNowRetry.errors r = 0%nat) ∨
               (IndexNowRetry.submitted r = 0%nat ∧ IndexNowRetry.errors r = length urls)) ∧
              ∃ k, (1 ≤ k ≤ 1)%nat ∧
                   IndexNowRetry.posted s' = IndexNowRetry.posted s ++ replicate k urls ∧
                   IndexNowRetry.waited s' = IndexNowRetry.waited s + 3000 * (Z.of_nat k - 1)).
    { intros m Hm [= <- <-]. split; [done|]. exists 1%nat. simpl. split; [lia|]. split; [done|lia]. }
    destruct (api _ _) as [status txt|]; [|eapply Hend; [|exact Hrun]; by right].
    destruct (_ || _ || _); [eapply Hend; [|exact Hrun]; by left|].
    destruct (_ || _); eapply Hend; [|exact Hrun| |exact Hrun]; by right.
  - assert (Hend : ∀ m, ((IndexNowRetry.submitted m = length urls ∧ IndexNowRetry.errors m = 0%nat) ∨
                         (IndexNowRetry.submitted m = 0%nat ∧ IndexNowRetry.errors m = length urls)) →
              (m, IndexNowRetry.send urls s) = (r, s') →
              ((IndexNowRetry.submitted r = length urls ∧ IndexNowRetry.errors r = 0%nat) ∨
               (IndexNowRetry.submitted r = 0%nat ∧ IndexNowRetry.errors r = length urls)) ∧
              ∃ k, (1 ≤ k ≤ S (S n))%nat ∧
                   IndexNowRetry.posted s' = IndexNowRetry.posted s ++ replicate k urls ∧
                   IndexNowRetry.waited s' = IndexNowRetry.waited s + 3000 * (Z.of_nat k - 1)).
    { intros m Hm [= <- <-]. split; [done|]. exists 1%nat. simpl. split; [lia|]. split; [done|lia]. }
    assert (Hrec : IndexNowRetry.attemptLoop n api urls
                     (IndexNowRetry.sleep 3000 (IndexNowRetry.send urls s)) = (r, s') →
              ((IndexNowRetry.submitted r = length urls ∧ IndexNowRetry.errors r = 0%nat) ∨
               (IndexNowRetry.submitted r = 0%nat ∧ IndexNowRetry.errors r = length urls)) ∧
              ∃ k, (1 ≤ k ≤ S (S n))%nat ∧
                   IndexNowRetry.posted s' = IndexNowRetry.posted s ++ replicate k urls ∧
                   IndexNowRetry.waited s' = IndexNowRetry.waited s + 3000 * (Z.of_nat k - 1)).
    { intros Hr. apply IH in Hr as (Hm & k & Hk & Hp & Hw). split; [done|].
      exists (S k). simpl in Hp, Hw. split; [lia|].
      split; [by rewrite Hp, <- app_assoc|lia]. }
    destruct (api _ _) as [status txt|]; [|by apply Hrec].
    destruct (_ || _ || _); [eapply Hend; [|exact Hrun]; by left|].
    destruct (_ || _); [by apply Hrec|eapply Hend; [|exact Hrun]; by right].
Qed.

Lemma attemptIndexNowBatch_counts_batch api urls s :
  (IndexNowRetry.submitted (IndexNowRetry.attemptIndexNowBatch api urls s).1
   + IndexNowRetry.errors (IndexNowRetry.attemptIndexNowBatch api urls s).1)%nat = length urls.
Proof.
  unfold IndexNowRetry.attemptIndexNowBatch.
  destruct (IndexNowRetry.attemptLoop 2 api urls s) as [r s'] eqn:Hrun. simpl.
  apply attemptLoop_result in Hrun as [[[-> ->]|[-> ->]] _]; lia.
Qed.


Import IndexNowAdaptive.

#[local] Arguments attemptFuel : simpl never.



End IndexNow_counts.

(** ** The streamer: what a run throws and what it reports *)

Section Streamer_outcome.
Import SitemapStreamer.

Variable w : web.

Lemma sum_list_snoc (l : list nat) n : sum_list (l ++ [n]) = (sum_list l + n)%nat.
Proof. induction l as [|x l IH]; simpl; lia. Qed.

Lemma found_sum batch s :
  sum_list (urlFound (found batch s)) = (sum_list (urlFound s) + length batch)%nat.
Proof. destruct batch; simpl; [lia|]. by rewrite sum_list_snoc. Qed.

Lemma urlEntry_loc n u : urlEntry n = Some u → Str.truthy (loc u) = true.
Proof.
  unfold urlEntry. destruct (Str.trim <$> _) as [l|]; [|done].
  destruct (Str.truthy l) eqn:Hl; [|done]. by intros [= <-].
Qed.

Lemma linkTarget_loc n u : linkTarget n = Some u → Str.truthy (loc u) = true.
Proof.
  unfold linkTarget. destruct (Str.truthy (Str.trim _)) eqn:Ht; [by intros [= <-]|].
  destruct (Dom.attribute "href" n) as [h|]; [|done].
  destruct (Str.truthy h) eqn:Hh; [|done]. by intros [= <-].
Qed.

Lemma omap_locs {A} (f : A → option SitemapUrl) (l : list A) :
  (∀ x u, f x = Some u → Str.truthy (loc u) = true) →
  Forall (fun u => Str.truthy (loc u) = true) (omap f l).
Proof.
  intros Hf. apply Forall_forall. intros u (x & _ & Hx)%list_elem_of_omap. by eapply Hf.
Qed.

Lemma caught_nested (s : streamer) url x :
  x ∈ visitedSitemaps s → url ∉ visitedSitemaps s →
  caught {| visitedSitemaps := visitedSitemaps s ∪ {[url]};
            fetches := fetches s ++ [url]; urlFound := urlFound s |}
  = (Ok [], {| visitedSitemaps := visitedSitemaps s ∪ {[url]};
               fetches := fetches s ++ [url]; urlFound := urlFound s |}).
Proof.
  intros Hx Hurl. unfold caught. simpl.
  rewrite size_union by set_solver. rewrite size_singleton.
  destruct (size (visitedSitemaps s)) as [|n] eqn:Hsz; [|by destruct n].
  apply size_empty_iff in Hsz. set_solver.
Qed.

Lemma eachChild_reports rec :
  reports_all w rec →
  ∀ childNodes allUrls s o s',
    (∃ x, x ∈ visitedSitemaps s) →
    eachChild rec childNodes allUrls s = Some (o, s') →
    visitedSitemaps s ⊆ visitedSitemaps s' ∧
    ∃ urls, o = Ok (allUrls ++ urls) ∧
            sum_list (urlFound s') = (sum_list (urlFound s) + length urls)%nat ∧
            Forall (fun u => Str.truthy (loc u) = true) urls.
Proof.
  intros Hrec. induction childNodes as [|n rest IH]; intros allUrls s o s' Hne Hrun;
    simpl in Hrun.
  - inversion Hrun; subst. split; [done|]. exists []. rewrite app_nil_r. simpl.
    split; [done|]. split; [lia|done].
  - destruct (Str.truthy _); [|by apply IH].
    destruct (rec (Str.trim (Dom.textContent n)) s) as [[o1 s1]|] eqn:Hcall; [|done].
    destruct (Hrec _ _ _ _ Hcall) as (Hsub1 & Hnot & Hout).
    destruct o1 as [children|]; [|by destruct (Hnot Hne)].
    destruct Hout as [Hsum1 Hloc1].
    apply IH in Hrun as (Hsub2 & urls & -> & Hsum2 & Hloc2).
    + split; [set_solver|]. exists (children ++ urls).
      rewrite <- app_assoc. split; [done|]. rewrite length_app.
      split; [lia|]. by apply Forall_app.
    + destruct Hne as [x Hx]. exists x. set_solver.
Qed.

Lemma fetchSitemapRecursive_reports : ∀ fuel, reports_all w (fetchSitemapRecursive fuel w).
Proof.
  induction fuel as [|f IH]; intros url s o s' Hrun; [done|].
  simpl in Hrun. case_decide as Hvis.
  { inversion Hrun; subst. split; [done|]. split; [done|]. simpl. split; [lia|done]. }
  set (s1 := {| visitedSitemaps := visitedSitemaps s ∪ {[url]};
                fetches := fetches s ++ [url]; urlFound := urlFound s |}) in *.
  assert (Hsub1 : visitedSitemaps s ⊆ visitedSitemaps s1) by (simpl; set_solver).
  assert (Hcaught : unreadable w url = true → Some (caught s1) = Some (o, s') →
            visitedSitemaps s ⊆ visitedSitemaps s' ∧
            ((∃ x, x ∈ visitedSitemaps s) → o ≠ Throws) ∧
            match o with
            | Ok urls =>
                sum_list (urlFound s') = (sum_list (urlFound s) + length urls)%nat ∧
                Forall (fun u => Str.truthy (loc u) = true) urls
            | Throws => unreadable w url = true ∧ urlFound s' = urlFound s
            end).
  { intros Hbad Hc. assert (Hst : s' = s1).
    { pose proof (caught_state s1) as Hcs. destruct (caught s1). simpl in Hcs. congruence. }
    subst s'. split; [done|]. split.
    - intros [x Hx]. subst s1. rewrite (caught_nested s url x) in Hc by done. by inversion Hc.
    - destruct o as [urls|]; [|done].
      unfold caught in Hc. destruct (_ =? _)%nat; inversion Hc; subst. simpl. split; [lia|done]. }
  assert (Hfound : ∀ batch, Forall (fun u => Str.truthy (loc u) = true) batch →
            Some (Ok batch, found batch s1) = Some (o, s') →
            visitedSitemaps s ⊆ visitedSitemaps s' ∧
            ((∃ x, x ∈ visitedSitemaps s) → o ≠ Throws) ∧
            match o with
            | Ok urls =>
                sum_list (urlFound s') = (sum_list (urlFound s) + length urls)%nat ∧
                Forall (fun u => Str.truthy (loc u) = true) urls
            | Throws => unreadable w url = true ∧ urlFound s' = urlFound s
            end).
  { intros batch Hloc [= <- <-]. destruct (found_state batch s1) as [Hv _].
    rewrite Hv. split; [done|]. split; [done|]. by rewrite found_sum. }
  destruct (w !! url) as [p|] eqn:Hp;
    [|apply Hcaught; [|done]; unfold unreadable; by rewrite Hp].
  destruct (negb (ok p)) eqn:Hok;
    [apply Hcaught; [|done]; unfold unreadable; by rewrite Hp, Hok|].
  destruct (_ && _) eqn:Hparse;
    [apply Hcaught; [|done]; unfold unreadable; by rewrite Hp, Hok, Hparse|].
  clear Hcaught.
  case_bool_decide.
  { destruct (eachChild _ _ _ _) as [[o2 s2]|] eqn:Hloop; [|done].
    apply (eachChild_reports _ IH) in Hloop as (Hsub2 & urls & -> & Hsum & Hloc);
      [|exists url; simpl; set_solver].
    inversion Hrun; subst. split; [set_solver|]. split; [done|]. done. }
  case_bool_decide; [eapply Hfound; [|exact Hrun]; apply omap_locs, urlEntry_loc|].
  destruct (_ || _).
  - eapply Hfound; [|exact Hrun]. apply omap_locs, linkTarget_loc.
  - inversion Hrun; subst. split; [done|]. split; [done|]. simpl. split; [lia|done].
Qed.

Lemma unreadable_root_throws f url (s : streamer) :
  visitedSitemaps s = ∅ → unreadable w url = true →
  ∃ s', fetchSitemapRecursive (S f) w url s = Some (Throws, s') ∧
        fetches s' = fetches s ++ [url].
Proof.
  intros Hempty Hbad. simpl. rewrite Hempty.
  rewrite decide_False by set_solver.
  assert (Hc : ∀ fs uf, ∃ s', caught {| visitedSitemaps := ∅ ∪ {[url]}; fetches := fs;
                                         urlFound := uf |} = (Throws, s')
                              ∧ fetches s' = fs).
  { intros fs uf. unfold caught. cbn [visitedSitemaps].
    rewrite (size_union ∅ {[url]}) by set_solver.
    rewrite size_empty, size_singleton. simpl. by eexists. }
  unfold unreadable in Hbad.
  destruct (Hc (fetches s ++ [url]) (urlFound s)) as (s' & Hs' & Hf).
  exists s'. split; [|done].
  destruct (w !! url) as [p|]; [|by rewrite Hs'].
  destruct (negb (ok p)); [by rewrite Hs'|].
  simpl in Hbad. rewrite Hbad. by rewrite Hs'.
Qed.

(** X9: a run of [streamParse] throws exactly when [new URL] refuses the
    root address or the page of the root sitemap cannot be read (the fetch
    fails, the status is not ok, or the body is empty and does not parse).
    A refused address is thrown before any fetch; an unreadable root has been
    fetched once and nothing else has.  In both cases nothing was reported.
    A child sitemap that cannot be read never makes the run throw. *)
Theorem streamParse_throws_only_for_unreadable_root wellFormed url visited found0 :
  ∃ o s', streamParse wellFormed w url {| visitedSitemaps := visited; fetches := [];
                                          urlFound := found0 |} = Some (o, s')
          ∧ (o = Throws ↔ wellFormed url = false ∨ unreadable w url = true)
          ∧ (o = Throws →
               fetches s' = (if wellFormed url then [url] else []) ∧ urlFound s' = found0).
Proof.
  destruct (streamParse_fetches_once w wellFormed url visited found0) as (o & s' & Hrun & _).
  exists o, s'. split; [done|].
  unfold streamParse in Hrun. cbn [visitedSitemaps fetches urlFound] in Hrun.
  destruct (wellFormed url) eqn:Hurl.
  2: { inversion Hrun; subst. split; [split; [by left|done]|done]. }
  destruct (unreadable w url) eqn:Hbad.
  - destruct (unreadable_root_throws (size w) url
                {| visitedSitemaps := ∅; fetches := []; urlFound := found0 |})
      as (s2 & Hthrow & Hf); [done..|].
    rewrite Hthrow in Hrun. inversion Hrun; subst.
    split; [split; [by right|done]|]. intros _. split; [done|].
    apply fetchSitemapRecursive_reports in Hthrow as (_ & _ & _ & Hu). done.
  - apply fetchSitemapRecursive_reports in Hrun as (_ & _ & Hout).
    destruct o as [urls|]; [|destruct Hout; congruence].
    split; [split; [discriminate|intros [|]; discriminate]|discriminate].
Qed.

(** X10: when a run of [streamParse] returns, the counts it passed to
    [onUrlFound] add up to the number of URLs it returns, nested sitemaps
    included, and no returned URL has an empty [loc]. *)
Theorem streamParse_reports_every_url wellFormed url visited found0 :
  ∃ o s', streamParse wellFormed w url {| visitedSitemaps := visited; fetches := [];
                                          urlFound := found0 |} = Some (o, s')
          ∧ ∀ urls, o = Ok urls →
              sum_list (urlFound s') = (sum_list found0 + length urls)%nat ∧
              Forall (fun u => Str.truthy (loc u) = true) urls.
Proof.
  destruct (streamParse_fetches_once w wellFormed url visited found0) as (o & s' & Hrun & _).
  exists o, s'. split; [done|]. intros urls ->.
  unfold streamParse in Hrun. cbn [visitedSitemaps fetches urlFound] in Hrun.
  destruct (wellFormed url); [|done].
  by apply fetchSitemapRecursive_reports in Hrun as (_ & _ & Hout).
Qed.

End Streamer_outcome.

(** ** The parser of the queue worker *)

Section Scanner_parser.
Import UrlStore Scanner.

Lemma onEvent_rejected p e :
  rejected (onEvent p e) = match e with SaxError => true | _ => rejected p end.
Proof.
  destruct e as [n|t|n|]; simpl; try done.
  - unfold onText. destruct (negb _); [done|].
    repeat case_decide; try done. by destruct (isIndex p).
  - unfold onCloseTag. destruct (decide _); [|done]. by destruct (c_loc _).
Qed.

Lemma foldl_rejected : ∀ events p,
  rejected (foldl onEvent p events) = true ↔ rejected p = true ∨ SaxError ∈ events.
Proof.
  induction events as [|e es IH]; intros p; simpl.
  - split; [by left|]. intros [?|Hin]; [done|]. by apply elem_of_nil in Hin.
  - rewrite IH, onEvent_rejected. rewrite elem_of_cons. destruct e; naive_solver.
Qed.

(** The parser of the queue worker rejects a body exactly when the
    SAX stream raised an error somewhere in it; whatever was read before or
    after the error is dropped.  The same holds for [fetchAndParseSitemap]
    on a URL the server answers. *)
Theorem parser_rejects_exactly_on_sax_error events :
  (parseEvents events = None ↔ SaxError ∈ events) ∧
  (∀ (w : sitemap_web) url, w url = Some events →
     (fetchAndParseSitemap w url = None ↔ SaxError ∈ events)).
Proof.
  assert (H : parseEvents events = None ↔ SaxError ∈ events).
  { unfold parseEvents.
    pose proof (foldl_rejected events newParser) as Hr. simpl in Hr.
    destruct (rejected (foldl onEvent newParser events)).
    - split; [intros _|done]. destruct Hr as [Hr _]. by destruct (Hr eq_refl).
    - split; [done|]. intros Hin. destruct Hr as [_ Hr]. by specialize (Hr (or_intror Hin)). }
  split; [done|]. intros w url Hw. unfold fetchAndParseSitemap. by rewrite Hw.
Qed.

Lemma newParser_locs : locsNonEmpty newParser.
Proof. repeat split; try done. Qed.

Lemma onEvent_locs p e : locsNonEmpty p → locsNonEmpty (onEvent p e).
Proof.
  intros (Hu & Hc & Hl). destruct e as [n|t|n|]; simpl; [done| | |done].
  - unfold onText. destruct (Str.truthy (Str.trim t)) eqn:Ht; simpl; [|done].
    repeat case_decide; try done.
    destruct (isIndex p); (split; [done|split]); simpl; try done.
    + apply Forall_app. split; [done|]. by constructor.
    + by intros l [= <-].
  - unfold onCloseTag. destruct (decide _); [|by split].
    destruct (c_loc (currentUrl p)) as [l|] eqn:Hloc;
      [|split; [done|split; [done|]]; simpl; intros; congruence].
    split; [|by split]. simpl. apply Forall_app. split; [done|].
    constructor; [|done]. simpl. by apply Hl.
Qed.

Lemma foldl_locs : ∀ events p, locsNonEmpty p → locsNonEmpty (foldl onEvent p events).
Proof.
  induction events as [|e es IH]; intros p Hp; [done|]. simpl. by apply IH, onEvent_locs.
Qed.

Lemma onEvent_isIndex p e :
  isIndex (onEvent p e)
  = match e with
    | OpenTag n => if decide (Str.toLowerCase n = "sitemapindex") then true else isIndex p
    | _ => isIndex p
    end.
Proof.
  destruct e as [n|t|n|]; simpl; try done.
  - unfold onText. destruct (negb _); [done|].
    repeat case_decide; try done. by destruct (isIndex p) eqn:E.
  - unfold onCloseTag. destruct (decide _); [|done]. by destruct (c_loc _).
Qed.

Lemma foldl_isIndex : ∀ events p,
  isIndex (foldl onEvent p events) = true
  ↔ isIndex p = true ∨ ∃ n, OpenTag n ∈ events ∧ Str.toLowerCase n = "sitemapindex".
Proof.
  induction events as [|e es IH]; intros p; simpl.
  - split; [by left|]. intros [?|(n & Hin & _)]; [done|]. by apply elem_of_nil in Hin.
  - rewrite IH, onEvent_isIndex. clear IH. split.
    + intros [Hi|(n & Hin & Hn)].
      * destruct e as [n|t|n|]; try (by left).
        case_decide as Hn; [|by left]. right. exists n. split; [by left|done].
      * right. exists n. split; [by right|done].
    + intros [Hi|(n & Hin & Hn)].
      * left. destruct e as [n|t|n|]; try done. by case_decide.
      * apply elem_of_cons in Hin as [<-|Hin]; [|right; by exists n].
        left. by rewrite decide_True.
Qed.

(** In what the parser of the queue worker returns, every URL and
    every child sitemap has a [loc] that is not empty, and the kind is INDEX
    exactly when a [sitemapindex] element (in any letter case) was opened
    somewhere in the body. *)
Theorem parser_locs_are_never_empty events r :
  parseEvents events = Some r →
  Forall (fun u => Str.truthy (loc u) = true) (parsedUrls r) ∧
  Forall (fun c => Str.truthy c = true) (children r) ∧
  (kind r = INDEX ↔ ∃ n, OpenTag n ∈ events ∧ Str.toLowerCase n = "sitemapindex").
Proof.
  unfold parseEvents. destruct (rejected _); [done|]. intros [= <-]. simpl.
  destruct (foldl_locs events newParser newParser_locs) as (Hu & Hc & _).
  split; [done|]. split; [done|].
  pose proof (foldl_isIndex events newParser) as Hi. simpl in Hi.
  destruct (isIndex (foldl onEvent newParser events)).
  - split; [intros _|done]. destruct Hi as [Hi _]. by destruct (Hi eq_refl).
  - split; [done|]. intros Hn. destruct Hi as [_ Hi]. by specialize (Hi (or_intror Hn)).
Qed.

Lemma parser_locs_witness :
  Forall (fun u => Str.truthy (loc u) = true)
    [{| loc := "http://t/page"; lastmod := None; changefreq := None; priority := None |}] ∧
  Forall (fun c => Str.truthy c = true) [] ∧
  (URLSET = INDEX ↔ ∃ n, OpenTag n ∈ leafEvents ∧ Str.toLowerCase n = "sitemapindex").
Proof.
  apply (parser_locs_are_never_empty leafEvents
           {| kind := URLSET;
              parsedUrls := [{| loc := "http://t/page"; lastmod := None; changefreq := None;
                                priority := None |}];
              children := [] |}).
  reflexivity.
Defined.

End Scanner_parser.

Section Parser_round_trip.
Import UrlStore Scanner.

#[local] Arguments Str.trim : simpl never.
#[local] Arguments Str.truthy : simpl never.

Lemma onText_trimmed x p :
  trimmed x →
  onText x p =
    let c := currentUrl p in
    if decide (currentTag p = "loc") then
      if isIndex p then
        {| urls := urls p; childSitemaps := childSitemaps p ++ [x];
           currentUrl := c; currentTag := currentTag p; isIndex := isIndex p;
           rejected := rejected p |}
      else withCurrent {| c_loc := Some x; c_lastmod := c_lastmod c;
                          c_changefreq := c_changefreq c; c_priority := c_priority c |} p
    else if decide (currentTag p = "lastmod") then
      withCurrent {| c_loc := c_loc c; c_lastmod := Some x;
                     c_changefreq := c_changefreq c; c_priority := c_priority c |} p
    else if decide (currentTag p = "changefreq") then
      withCurrent {| c_loc := c_loc c; c_lastmod := c_lastmod c;
                     c_changefreq := Some x; c_priority := c_priority c |} p
    else if decide (currentTag p = "priority") then
      withCurrent {| c_loc := c_loc c; c_lastmod := c_lastmod c;
                     c_changefreq := c_changefreq c; c_priority := Some x |} p
    else p.
Proof. intros [Ht Hn]. unfold onText. by rewrite Ht, Hn. Qed.

Lemma urlEvents_fold us t u :
  trimmedUrl u →
  foldl onEvent {| urls := us; childSitemaps := []; currentUrl := emptyUrl; currentTag := t;
                   isIndex := false; rejected := false |} (urlEvents u)
  = {| urls := us ++ [u]; childSitemaps := []; currentUrl := emptyUrl; currentTag := "";
       isIndex := false; rejected := false |}.
Proof.
  destruct u as [l lm cf pr]. intros (Hl & Hlm & Hcf & Hpr). simpl in Hl, Hlm, Hcf, Hpr.
  unfold urlEvents.
  destruct lm as [lm|], cf as [cf|], pr as [pr|]; simpl in Hlm, Hcf, Hpr;
    cbn [fieldEvents app foldl onEvent UrlStore.loc UrlStore.lastmod UrlStore.changefreq
         UrlStore.priority];
    rewrite ?onText_trimmed by done; reflexivity.
Qed.

Lemma urlset_fold : ∀ us pre t,
  Forall trimmedUrl us →
  ∃ t', foldl onEvent {| urls := pre; childSitemaps := []; currentUrl := emptyUrl;
                         currentTag := t; isIndex := false; rejected := false |}
          (flat_map urlEvents us)
        = {| urls := pre ++ us; childSitemaps := []; currentUrl := emptyUrl; currentTag := t';
             isIndex := false; rejected := false |}.
Proof.
  induction us as [|u us IH]; intros pre t Hall.
  - exists t. by rewrite app_nil_r.
  - apply Forall_cons in Hall as [Hu Hall].
    cbn [flat_map]. rewrite foldl_app, urlEvents_fold by done.
    destruct (IH (pre ++ [u]) "" Hall) as [t' ->]. exists t'. by rewrite <- app_assoc.
Qed.

Lemma sitemapEvents_fold cs t c :
  trimmed c →
  foldl onEvent {| urls := []; childSitemaps := cs; currentUrl := emptyUrl; currentTag := t;
                   isIndex := true; rejected := false |} (sitemapEvents c)
  = {| urls := []; childSitemaps := cs ++ [c]; currentUrl := emptyUrl; currentTag := "";
       isIndex := true; rejected := false |}.
Proof.
  intros Hc. unfold sitemapEvents. cbn [foldl onEvent].
  rewrite ?onText_trimmed by done. reflexivity.
Qed.

Lemma sitemapindex_fold : ∀ cs pre t,
  Forall trimmed cs →
  ∃ t', foldl onEvent {| urls := []; childSitemaps := pre; currentUrl := emptyUrl;
                         currentTag := t; isIndex := true; rejected := false |}
          (flat_map sitemapEvents cs)
        = {| urls := []; childSitemaps := pre ++ cs; currentUrl := emptyUrl;
             currentTag := t'; isIndex := true; rejected := false |}.
Proof.
  induction cs as [|c cs IH]; intros pre t Hall.
  - exists t. by rewrite app_nil_r.
  - apply Forall_cons in Hall as [Hc Hall].
    cbn [flat_map]. rewrite foldl_app, sitemapEvents_fold by done.
    destruct (IH (pre ++ [c]) "" Hall) as [t' ->]. exists t'. by rewrite <- app_assoc.
Qed.

(** X11: the parser of the queue worker reads back what a sitemap holds:
    from the events of a [urlset] whose entries carry trimmed, non-empty
    texts it returns exactly these entries, in order, with the kind URLSET
    and no child; from the events of a [sitemapindex] it returns exactly the
    child locations, in order, with the kind INDEX and no URL. *)
Theorem parser_reads_back_urlset_and_index us cs :
  Forall trimmedUrl us → Forall trimmed cs →
  parseEvents (urlsetEvents us)
  = Some {| kind := URLSET; parsedUrls := us; children := [] |} ∧
  parseEvents (sitemapindexEvents cs)
  = Some {| kind := INDEX; parsedUrls := []; children := cs |}.
Proof.
  intros Hus Hcs. unfold parseEvents, urlsetEvents, sitemapindexEvents. split.
  - cbn [foldl]. rewrite foldl_app.
    change (onEvent newParser (OpenTag "urlset"))
      with {| urls := []; childSitemaps := []; currentUrl := emptyUrl; currentTag := "urlset";
              isIndex := false; rejected := false |}.
    destruct (urlset_fold us [] "urlset" Hus) as [t' ->]. reflexivity.
  - cbn [foldl]. rewrite foldl_app.
    change (onEvent newParser (OpenTag "sitemapindex"))
      with {| urls := []; childSitemaps := []; currentUrl := emptyUrl;
              currentTag := "sitemapindex"; isIndex := true; rejected := false |}.
    destruct (sitemapindex_fold cs [] "sitemapindex" Hcs) as [t' ->]. reflexivity.
Qed.

Lemma parser_reads_back_witness :
  parseEvents (urlsetEvents twoUrls)
  = Some {| kind := URLSET; parsedUrls := twoUrls; children := [] |} ∧
  parseEvents (sitemapindexEvents ["http://t/sm1"; "http://t/sm2"])
  = Some {| kind := INDEX; parsedUrls := []; children := ["http://t/sm1"; "http://t/sm2"] |}.
Proof.
  apply (parser_reads_back_urlset_and_index twoUrls ["http://t/sm1"; "http://t/sm2"]).
  - repeat constructor.
  - repeat constructor.
Defined.

End Parser_round_trip.

(** ** The queue of a scan *)

Section Scanner_depth.
Import Scanner.

Variable w : sitemap_web.
Variable rootUrl : string.

Lemma handler_keeps_depth pid jid job rest s :
  Forall (fun j => (depth j ≤ MAX_RECURSION_DEPTH)%nat ∧ projectId j = pid ∧ jobId j = jid)
    (job :: rest) →
  Forall (fun j => (depth j ≤ MAX_RECURSION_DEPTH)%nat ∧ projectId j = pid ∧ jobId j = jid)
    (queue (sitemapScannerWorker w rootUrl job rest s)).
Proof.
  intros [(Hd & Hp & Hj) Hrest]%Forall_cons. unfold sitemapScannerWorker.
  destruct (fetchAndParseSitemap w _) as [r|]; simpl; [|done].
  apply Forall_app. split; [done|].
  destruct (bool_decide _ && _) eqn:Hq; [|done].
  apply andb_true_iff in Hq as [_ Hlt%Nat.ltb_lt].
  apply Forall_forall. intros j (c & -> & _)%list_elem_of_fmap. simpl. split; [lia|done].
Qed.

Lemma afterRuns_keeps_depth pid jid : ∀ k s,
  Forall (fun j => (depth j ≤ MAX_RECURSION_DEPTH)%nat ∧ projectId j = pid ∧ jobId j = jid)
    (queue s) →
  Forall (fun j => (depth j ≤ MAX_RECURSION_DEPTH)%nat ∧ projectId j = pid ∧ jobId j = jid)
    (queue (afterRuns k w rootUrl s)).
Proof.
  induction k as [|k IH]; intros s Hq; simpl; [by destruct (queue s)|].
  destruct (queue s) as [|job rest] eqn:Hs; [by rewrite Hs|].
  apply IH. by apply handler_keeps_depth.
Qed.

Lemma drain_afterRuns : ∀ fuel s s',
  drain fuel w rootUrl s = Some s' → s' = afterRuns fuel w rootUrl s.
Proof.
  induction fuel as [|f IH]; intros s s' Hd; simpl in *.
  - destruct (queue s); [by inversion Hd|done].
  - destruct (queue s) as [|job rest]; [by inversion Hd|]. by apply IH.
Qed.

(** X12: at every point of a scan started by the root job of a project,
    every job in the queue has a depth of at most 10 and carries the project
    id and the job id of the root job; the state a finished scan returns is
    one of these points. *)
Theorem scan_queue_stays_within_depth_10 pid jid :
  (∀ k, Forall (fun j => (depth j ≤ MAX_RECURSION_DEPTH)%nat ∧ projectId j = pid
                         ∧ jobId j = jid)
          (queue (afterRuns k w rootUrl
                    {| queue := [rootJob pid jid]; fetched := []; status := PENDING |}))) ∧
  (∀ s', scanProject w rootUrl pid jid = Some s' →
         ∃ k, s' = afterRuns k w rootUrl
                     {| queue := [rootJob pid jid]; fetched := []; status := PENDING |}).
Proof.
  split.
  - intros k. apply afterRuns_keeps_depth. simpl. constructor; [|done].
    simpl. unfold MAX_RECURSION_DEPTH. split; [lia|done].
  - intros s' Hs. unfold scanProject in Hs. eexists. by apply drain_afterRuns in Hs.
Qed.

End Scanner_depth.

(** ** The URL store: what a batch upsert leaves alone *)

Section Upsert_rows.
Import UrlStore.

Variable sha256 : string → string.
Variable uuid : nat → string.
Variable newDate : string → option string.
Variable parseFloat : string → string.
Variable decimal21 : string → option string.

Lemma upsertRow_in_place id now pid sid v : ∀ t n,
  v_projectId v = pid → v_sitemapId v = sid →
  (n ≤ length t)%nat →
  Forall (discoveredBy pid sid) (drop n t) →
  let t' := upsertRow id now v t in
  map kept (take n t') = map kept (take n t) ∧
  Forall (discoveredBy pid sid) (drop n t') ∧
  (length t ≤ length t' ≤ S (length t))%nat.
Proof.
  intros t n <- <-. revert n.
  induction t as [|r rest IH]; intros n Hn Hnew; cbv zeta; simpl.
  - simpl in Hn. replace n with 0%nat by lia. simpl.
    split; [done|]. split; [|lia]. constructor; [|done]. by repeat split.
  - case_decide as Hkey.
    + destruct n as [|m]; simpl in *.
      * split; [done|]. split; [|lia].
        apply Forall_cons in Hnew as [(H1 & H2 & H3 & H4 & H5 & H6) Hrest].
        constructor; [|done]. by repeat split.
      * split; [done|]. split; [done|lia].
    + destruct n as [|m]; simpl in *.
      * apply Forall_cons in Hnew as [Hr Hrest].
        destruct (IH 0%nat ltac:(lia) Hrest) as (_ & Hnew' & Hlen). simpl in Hnew'.
        split; [done|]. split; [by constructor|lia].
      * destruct (IH m ltac:(lia) Hnew) as (Hkept & Hnew' & Hlen).
        split; [by rewrite Hkept|]. split; [done|lia].
Qed.

Lemma insert_in_place now pid sid n : ∀ rows t,
  Forall (fun v => v_projectId v = pid ∧ v_sitemapId v = sid) rows →
  (n ≤ length t)%nat →
  Forall (discoveredBy pid sid) (drop n t) →
  let t' := applyRows uuid now rows t in
  map kept (take n t') = map kept (take n t) ∧
  Forall (discoveredBy pid sid) (drop n t') ∧
  (length t ≤ length t' ≤ length t + length rows)%nat.
Proof.
  induction rows as [|v vs IH]; intros t Hrows Hn Hnew; cbv zeta; simpl.
  - split; [done|]. split; [done|lia].
  - apply Forall_cons in Hrows as [[Hpid Hsid] Hrows].
    destruct (upsertRow_in_place (uuid (length t)) now pid sid v t n Hpid Hsid Hn Hnew)
      as (Hk1 & Hn1 & Hl1).
    destruct (IH (upsertRow (uuid (length t)) now v t))
      as (Hk2 & Hn2 & Hl2); [done|lia|done|].
    unfold applyRows in *. cbv zeta in *.
    split; [by rewrite Hk2|]. split; [done|lia].
Qed.

Lemma accepted_rows_of pid sid (batch : list ParsedUrl) rows :
  Forall2 (fun e v => toValues sha256 newDate parseFloat decimal21 pid sid e = Some v)
    batch rows →
  Forall (fun v => v_projectId v = pid ∧ v_sitemapId v = sid) rows ∧
  length rows = length batch.
Proof.
  induction 1 as [|e v es vs He _ [IH1 IH2]]; [done|].
  split; [|simpl; by rewrite IH2].
  constructor; [|done]. by apply toValues_key in He as (_ & ? & ?).
Qed.

Lemma upsertBatches_in_place clock pid sid total n : ∀ fuel k processed rest t reported,
  (n ≤ length t)%nat →
  Forall (discoveredBy pid sid) (drop n t) →
  let t' := (upsertBatches sha256 uuid newDate parseFloat decimal21 fuel clock pid sid total
               k processed rest t reported).1.2 in
  map kept (take n t') = map kept (take n t) ∧
  Forall (discoveredBy pid sid) (drop n t') ∧
  (length t ≤ length t' ≤ length t + length rest)%nat.
Proof.
  induction fuel as [|f IH]; intros k processed rest t reported Hn Hnew; cbv zeta.
  - destruct rest; simpl; (split; [done|]); (split; [done|lia]).
  - destruct rest as [|e rest']; [simpl; split; [done|]; split; [done|lia]|].
    rewrite upsertBatches_step. cbv zeta.
    pose proof (insert_statement sha256 uuid newDate parseFloat decimal21 (clock k) pid sid
                  (take BATCH_SIZE (e :: rest')) t) as Hst.
    destruct (insertOnConflictUpdate _ _ _ _) as [t1|];
      [|cbn [fst snd]; split; [done|]; split; [done|lia]].
    destruct Hst as (rows & Hrows & _ & ->).
    apply accepted_rows_of in Hrows as [Hrows Hlen].
    destruct (insert_in_place (clock k) pid sid n rows t Hrows Hn Hnew) as (Hk1 & Hn1 & Hl1).
    destruct (IH (S k) (processed + length (take BATCH_SIZE (e :: rest')))%nat
                (drop BATCH_SIZE (e :: rest')) (applyRows uuid (clock k) rows t)
                (reported ++ [progressOf (processed + length (take BATCH_SIZE (e :: rest')))
                                total]))
      as (Hk2 & Hn2 & Hl2); [lia|done|].
    cbv zeta in *. split; [by rewrite Hk2|]. split; [done|].
    rewrite length_take, length_drop in *. lia.
Qed.

Lemma upsertRow_other_projects id now pid v : ∀ t,
  v_projectId v = pid →
  filter (fun r => u_projectId r ≠ pid) (upsertRow id now v t)
  = filter (fun r => u_projectId r ≠ pid) t.
Proof.
  intros t <-. induction t as [|r rest IH]; simpl.
  - rewrite filter_cons. simpl. by rewrite decide_False by (by intros H).
  - case_decide as Hkey.
    + assert (u_projectId r = v_projectId v) as Hp by (by inversion Hkey).
      rewrite !filter_cons. simpl. by rewrite !decide_False by (by intros H).
    + rewrite !filter_cons, IH. done.
Qed.

Lemma insert_other_projects now pid : ∀ rows t,
  Forall (fun v => v_projectId v = pid) rows →
  filter (fun r => u_projectId r ≠ pid) (applyRows uuid now rows t)
  = filter (fun r => u_projectId r ≠ pid) t.
Proof.
  induction rows as [|v vs IH]; intros t Hrows; [done|].
  apply Forall_cons in Hrows as [Hpid Hrows].
  unfold applyRows in *. simpl. by rewrite IH, upsertRow_other_projects.
Qed.

Lemma upsertBatches_other_projects clock pid sid total : ∀ fuel k processed rest t reported,
  filter (fun r => u_projectId r ≠ pid)
    (upsertBatches sha256 uuid newDate parseFloat decimal21 fuel clock pid sid total k
       processed rest t reported).1.2
  = filter (fun r => u_projectId r ≠ pid) t.
Proof.
  induction fuel as [|f IH]; intros k processed rest t reported.
  - by destruct rest.
  - destruct rest as [|e rest']; [done|].
    rewrite upsertBatches_step. cbv zeta.
    pose proof (insert_statement sha256 uuid newDate parseFloat decimal21 (clock k) pid sid
                  (take BATCH_SIZE (e :: rest')) t) as Hst.
    destruct (insertOnConflictUpdate _ _ _ _) as [t1|]; [|done].
    destruct Hst as (rows & Hrows & _ & ->).
    apply accepted_rows_of in Hrows as [Hrows _].
    rewrite IH. apply insert_other_projects.
    eapply Forall_impl; [exact Hrows|]. by intros v [? _].
Qed.

(** X13: a batch upsert removes no row and moves none, whether it ends
    with or without an exception: the rows the table held keep their place
    and their id, project, loc, locHash, both statuses, both submission times
    and firstSeenAt; the rows behind them are new rows of the project and
    sitemap with both statuses DISCOVERED, at most one per entry; and the
    rows of every other project are exactly as they were. *)
Theorem batch_upsert_keeps_rows_in_place clock pid sid entries t :
  let t' := (batchUpsertUrls sha256 uuid newDate parseFloat decimal21 clock pid sid
               entries t).1.2 in
  map kept (take (length t) t') = map kept t ∧
  Forall (discoveredBy pid sid) (drop (length t) t') ∧
  (length t ≤ length t' ≤ length t + length entries)%nat ∧
  filter (fun r => u_projectId r ≠ pid) t' = filter (fun r => u_projectId r ≠ pid) t.
Proof.
  cbv zeta. unfold batchUpsertUrls.
  destruct (upsertBatches_in_place clock pid sid (length entries) (length t) (length entries)
              0%nat 0%nat entries t []) as (Hk & Hn & Hl); [done|by rewrite drop_all|].
  cbv zeta in *. rewrite Hk, firstn_all.
  split; [done|]. split; [done|]. split; [done|]. apply upsertBatches_other_projects.
Qed.

Lemma upsertBatches_reports clock pid sid total : ∀ fuel k processed rest t reported,
  (length rest ≤ fuel)%nat →
  let r := upsertBatches sha256 uuid newDate parseFloat decimal21 fuel clock pid sid total k
             processed rest t reported in
  ∃ news,
    r.2 = reported ++ news ∧
    (length news ≤ (length rest + 499) / 500)%nat ∧
    (r.1.1 = Done → length news = ((length rest + 499) / 500)%nat).
Proof.
  induction fuel as [|f IH]; intros k processed rest t reported Hfuel; cbv zeta.
  - destruct rest; [|simpl in Hfuel; lia]. exists []. simpl. by rewrite app_nil_r.
  - destruct rest as [|e rest'].
    { exists []. simpl. by rewrite app_nil_r. }
    rewrite upsertBatches_step. cbv zeta.
    set (rest := e :: rest') in *.
    assert (Hpos : (0 < length rest)%nat) by (subst rest; simpl; lia).
    destruct (insertOnConflictUpdate _ _ _ _) as [t1|].
    2:{ exists []. cbn [fst snd length]. rewrite app_nil_r. split; [done|]. split; [lia|done]. }
    pose proof (length_drop rest BATCH_SIZE) as Hdrop.
    unfold BATCH_SIZE in *.
    destruct (IH (S k) (processed + length (take 500 rest))%nat (drop 500 rest) t1
                (reported ++ [progressOf (processed + length (take 500 rest)) total]))
      as (news & Hnews & Hle & Hlen); [lia|].
    cbv zeta in Hnews, Hle, Hlen.
    exists (progressOf (processed + length (take 500 rest)) total :: news).
    split; [by rewrite Hnews, <- app_assoc|].
    assert (Hcount : ((length rest + 499) / 500 = S ((length (drop 500 rest) + 499) / 500))%nat).
    { rewrite Hdrop. destruct (decide (length rest ≤ 500)%nat) as [Hsmall|Hbig].
      - replace (length rest - 500)%nat with 0%nat by lia.
        replace ((0 + 499) / 500)%nat with 0%nat by done.
        symmetry. apply (Nat.div_unique _ _ 1 (length rest - 1)); lia.
      - replace (length rest + 499)%nat with ((length rest - 500 + 499) + 1 * 500)%nat by lia.
        rewrite Nat.div_add by lia. lia. }
    cbn [length]. rewrite Hcount. split; [lia|]. intros Hdone. by rewrite Hlen.
Qed.

(** A batch upsert of [n] entries reports its progress once per batch of
    500 it has written, that is ceil(n / 500) times when it ends without an
    exception and fewer times otherwise. *)
Lemma batch_upsert_reports_progress clock pid sid entries t :
  let r := batchUpsertUrls sha256 uuid newDate parseFloat decimal21 clock pid sid entries t in
  (length r.2 ≤ (length entries + 499) / 500)%nat ∧
  (r.1.1 = Done → length r.2 = ((length entries + 499) / 500)%nat).
Proof.
  cbv zeta. unfold batchUpsertUrls.
  destruct (upsertBatches_reports clock pid sid (length entries) (length entries) 0%nat 0%nat
              entries t []) as (news & Hnews & Hle & Hlen); [done|].
  cbv zeta in *. rewrite Hnews. done.
Qed.

End Upsert_rows.

Section Upsert_progress.
Import UrlStore.

(** The progress is rounded from the double the code computes: after 11500
    of 20000 entries the quotient times 100 is just below 57.5 and the
    reported value is 57. *)
Example progress_is_rounded_from_the_double :
  progressOf (Z.to_nat 11500) (Z.to_nat 20000) = 57 ∧ progressOf 500 1000 = 50
  ∧ progressOf 700 700 = 100.
Proof. by vm_compute. Qed.

End Upsert_progress.

(** ** The cached counters of a project *)

Section Project_counters_bounds.
Import UrlStore.

Lemma counts_within_total pid (t : list url_row) :
  countWhere pid [INDEXED] t + countWhere pid [DISCOVERED; QUEUED] t
  + countWhere pid [ERROR_4XX; ERROR_5XX; CRAWL_ERROR] t <= countAll pid t
  ∧ 0 <= countWhere pid [INDEXED] t
  ∧ 0 <= countWhere pid [DISCOVERED; QUEUED] t
  ∧ 0 <= countWhere pid [ERROR_4XX; ERROR_5XX; CRAWL_ERROR] t.
Proof.
  unfold countWhere, countAll. split; [|lia].
  induction t as [|r rest IH]; [done|].
  rewrite !filter_cons.
  destruct (decide (u_projectId r = pid)) as [Hp|Hp].
  - destruct (u_googleStatus r) as [[]|]; simpl;
      repeat (case_decide; simpl); try (exfalso; naive_solver); lia.
  - repeat (case_decide; simpl); try (exfalso; naive_solver); lia.
Qed.

(** After [updateProjectStats] the counters of the project are
    consistent: none is negative and indexed, pending and errors together
    never exceed the total (a row counts in at most one of them); the
    recomputation is idempotent and leaves the rows of other projects
    alone. *)
Theorem project_counters_stay_within_total now pid t projects :
  Forall (fun p => p_id p = pid →
            0 <= p_indexedUrls p ∧ 0 <= p_pendingUrls p ∧ 0 <= p_errorUrls p ∧
            p_indexedUrls p + p_pendingUrls p + p_errorUrls p <= p_totalUrls p ∧
            p_lastScanAt p = Some now)
    (updateProjectStats now pid t projects) ∧
  updateProjectStats now pid t (updateProjectStats now pid t projects)
  = updateProjectStats now pid t projects ∧
  filter (fun p => p_id p ≠ pid) (updateProjectStats now pid t projects)
  = filter (fun p => p_id p ≠ pid) projects.
Proof.
  destruct (counts_within_total pid t) as (Hsum & Hi & Hp & He).
  unfold updateProjectStats. cbv zeta. split; [|split].
  - apply Forall_forall. intros p (p0 & -> & _)%list_elem_of_fmap.
    case_decide; [|done]. intros _. simpl. repeat split; try done; lia.
  - rewrite map_map. apply map_ext. intros p.
    destruct (decide (p_id p = pid)) as [Hid|Hid]; simpl;
      [by rewrite decide_True|by rewrite decide_False].
  - induction projects as [|p ps IH]; [done|]. simpl.
    rewrite !filter_cons, IH.
    destruct (decide (p_id p = pid)) as [Hid|Hid]; simpl.
    + by rewrite !decide_False by (by intros H).
    + by rewrite !decide_True.
Qed.

End Project_counters_bounds.

(** ** The WebSocket fan-out: who receives a broadcast *)

Section Bus_reach.
Import EventBus.

Variable JSON_stringify : WSMessage → string.

(** X14: a broadcast changes neither the connections nor the socket
    states, and it sends its message exactly once to each socket that is
    registered under the key of the project and is OPEN; no other socket and
    no other text is sent anything. *)
Theorem broadcast_reaches_exactly_open_subscribers org proj message i ws d :
  let data := JSON_stringify message in
  let i1 := broadcastToProject JSON_stringify org proj message i in
  let subscribed := ∃ conns, connections i !! keyOf org proj = Some conns ∧ ws ∈ conns in
  connections i1 = connections i ∧ readyState i1 = readyState i ∧
  (d = data ∧ subscribed ∧ readyState i !! ws = Some OPEN →
   deliveries ws d i1 = S (deliveries ws d i)) ∧
  (¬ (d = data ∧ subscribed ∧ readyState i !! ws = Some OPEN) →
   deliveries ws d i1 = deliveries ws d i).
Proof.
  cbv zeta. unfold broadcastToProject.
  destruct (connections i !! keyOf org proj) as [conns|] eqn:Hc.
  2:{ repeat split; try done. intros (_ & (c & Hc' & _) & _). discriminate. }
  destruct (size conns =? 0)%nat eqn:Hsz.
  { apply Nat.eqb_eq, size_empty_iff in Hsz.
    repeat split; try done. intros (_ & (c & [= <-] & Hin) & _). set_solver. }
  destruct (sendToOpen_frame (JSON_stringify message) (elements conns) i) as (Hconn & Hready & _).
  cbn [connections readyState]. split; [done|]. split; [done|].
  unfold deliveries at 1 3. cbn [sent]. fold (deliveries ws d (sendToOpen (JSON_stringify message) (elements conns) i)).
  rewrite sendToOpen_deliveries by apply NoDup_elements. split.
  - intros (-> & (c & [= <-] & Hin) & Hopen).
    rewrite bool_decide_true; [lia|]. split; [done|]. split; [by apply elem_of_elements|done].
  - intros Hnot. rewrite bool_decide_false; [lia|].
    intros (-> & Hin%elem_of_elements & Hopen). apply Hnot. eauto.
Qed.

Lemma relayTo_one (target : instance) key data :
  relayTo target [(String.append "ws:" key, data)] = subscribeToRedis data (String.append "ws:" key) target.
Proof. unfold relayTo. cbn [foldl fst snd]. by rewrite channel_matches. Qed.

(** X15: the message of a broadcast is published to the broker, and so
    reaches the subscribers of the project on other instances, only when the
    broadcasting instance itself has a connection registered for the project:
    then an open subscriber on another instance receives it once; from an
    instance without such a connection it receives nothing. *)
Theorem broadcast_is_relayed_only_with_local_connection
    org proj message (i target : instance) conns ws :
  connections target !! keyOf org proj = Some conns →
  ws ∈ conns →
  readyState target !! ws = Some OPEN →
  let data := JSON_stringify message in
  let i1 := broadcastToProject JSON_stringify org proj message i in
  let news := drop (length (published i)) (published i1) in
  (hasLocalConnection i (keyOf org proj) →
   news = [(String.append "ws:" (keyOf org proj), data)] ∧
   deliveries ws data (relayTo target news) = S (deliveries ws data target)) ∧
  (¬ hasLocalConnection i (keyOf org proj) →
   news = [] ∧ relayTo target news = target).
Proof.
  intros Hc Hws Hopen. cbv zeta. unfold broadcastToProject, hasLocalConnection.
  destruct (connections i !! keyOf org proj) as [c|] eqn:Hi.
  2:{ rewrite drop_all. split; [|done]. intros (c & Hc' & _). discriminate. }
  destruct (size c =? 0)%nat eqn:Hsz.
  { apply Nat.eqb_eq, size_empty_iff in Hsz. rewrite drop_all.
    split; [|done]. intros (c' & [= <-] & Hne). destruct Hne. by apply leibniz_equiv. }
  destruct (sendToOpen_frame (JSON_stringify message) (elements c) i) as (_ & _ & Hp).
  cbn [published]. rewrite Hp, drop_app_length. split.
  - intros _. split; [done|]. rewrite relayTo_one. unfold subscribeToRedis.
    rewrite channel_key, Hc.
    rewrite sendToOpen_deliveries by apply NoDup_elements.
    rewrite bool_decide_true; [lia|]. split; [done|]. split; [by apply elem_of_elements|done].
  - intros Hnot. destruct Hnot. exists c. split; [done|].
    intros ->. by rewrite size_empty in Hsz.
Qed.

End Bus_reach.

Section Bus_reach_example.
Import EventBus.

Lemma broadcast_is_relayed_witness :
  let data := showMessage logMessage in
  let i1 := broadcastToProject showMessage "org" "proj" logMessage idleInstance in
  let news := drop (length (published idleInstance)) (published i1) in
  (hasLocalConnection idleInstance (keyOf "org" "proj") →
   news = [(String.append "ws:" (keyOf "org" "proj"), data)] ∧
   deliveries 1 data (relayTo twoSockets news) = S (deliveries 1 data twoSockets)) ∧
  (¬ hasLocalConnection idleInstance (keyOf "org" "proj") →
   news = [] ∧ relayTo twoSockets news = twoSockets).
Proof.
  apply (broadcast_is_relayed_only_with_local_connection showMessage "org" "proj" logMessage
           idleInstance twoSockets {[ 1%nat; 2%nat ]} 1%nat).
  - reflexivity.
  - set_solver.
  - reflexivity.
Defined.

End Bus_reach_example.

(** ** The WebSocket server: which connections are registered *)

Section Server_connections.
Import EventBus WebSocketServer.

Variable verifyToken : string → verified.
Variable connectedMessage : string → string → string.
Variable sendThrows : nat → bool.


(** The handler leaves the [connections] map as it was or adds the socket
    under one key. *)
Lemma onConnection_connections ws pathname token s :
  let s' := onConnection verifyToken connectedMessage sendThrows ws pathname token s in
  connections (bus s') = connections (bus s)
  ∨ ∃ key, connections (bus s') = connections (addConnection key ws (bus s)).
Proof.
  cbv zeta. unfold onConnection.
  destruct (pathParts pathname) as [|first [|projectId rest]]; [by left..|].
  destruct (_ || _); [by left|].
  destruct token as [tok|]; [|by left].
  destruct (negb (Str.truthy tok)); [by left|].
  destruct (verifyToken tok) as [u| |]; [|by left..].
  right. exists (keyOf (organizationId u) projectId). by destruct (sendThrows ws).
Qed.


Lemma addConnection_keeps_sets key ws i : noEmptySet i → noEmptySet (addConnection key ws i).
Proof.
  intros Hinv k c. unfold addConnection. cbn [connections].
  destruct (decide (k = key)) as [->|Hne].
  - rewrite lookup_insert_eq. intros [= <-]. set_solver.
  - rewrite lookup_insert_ne by done. exact (Hinv k c).
Qed.

Lemma onClose_keeps_sets key ws s : noEmptySet (bus s) → noEmptySet (bus (onClose key ws s)).
Proof.
  intros Hinv k c. unfold onClose. cbn [bus withBus connections].
  destruct (connections (bus s) !! key) as [c0|] eqn:Hkey;
    [|rewrite Hkey; exact (Hinv k c)].
  rewrite lookup_insert_eq.
  destruct (size (c0 ∖ {[ws]}) =? 0)%nat eqn:Hsz.
  - destruct (decide (k = key)) as [->|Hne].
    + by rewrite lookup_delete_eq.
    + rewrite lookup_delete_ne, lookup_insert_ne by done. exact (Hinv k c).
  - destruct (decide (k = key)) as [->|Hne].
    + rewrite lookup_insert_eq. intros [= <-] Hempty.
      rewrite Hempty, size_empty in Hsz. done.
    + rewrite lookup_insert_ne by done. exact (Hinv k c).
Qed.

(** X17: no key of the [connections] map is ever left with an empty set:
    the connection handler and the close handler both keep it so; and when a
    socket that was not registered under a key is accepted and later closes,
    the map is again what it was before the socket connected. *)
Theorem registry_never_keeps_an_empty_set ws pathname token key s :
  noEmptySet (bus s) →
  noEmptySet (bus (onConnection verifyToken connectedMessage sendThrows ws pathname token
                     s)) ∧
  noEmptySet (bus (onClose key ws s)) ∧
  ((∀ conns, connections (bus s) !! key = Some conns → ws ∉ conns) →
   connections (bus (onClose key ws (withBus (addConnection key ws (bus s)) s)))
   = connections (bus s)).
Proof.
  intros Hinv. split; [|split].
  - destruct (onConnection_connections ws pathname token s) as [Hconn | [k0 Hconn]];
      intros k c Hk; rewrite Hconn in Hk.
    + by eapply Hinv.
    + by eapply addConnection_keeps_sets.
  - by apply onClose_keeps_sets.
  - intros Hfresh. unfold onClose, addConnection. cbn [bus withBus connections].
    rewrite !lookup_insert_eq.
    destruct (connections (bus s) !! key) as [c|] eqn:Hkey;
      cbn [default from_option Datatypes.id].
    + assert (Hback : (c ∪ {[ws]}) ∖ {[ws]} = c).
      { specialize (Hfresh c eq_refl). set_solver. }
      rewrite Hback.
      assert ((size c =? 0)%nat = false) as ->.
      { apply Nat.eqb_neq. intros Hz%size_empty_iff. apply (Hinv key c Hkey).
        by apply leibniz_equiv. }
      rewrite insert_insert_eq. by apply insert_id.
    + assert (Hback : (∅ ∪ {[ws]}) ∖ {[ws]} = (∅ : gset nat)) by set_solver.
      rewrite Hback, size_empty. cbn [Nat.eqb].
      rewrite delete_insert_eq, delete_insert_eq. by apply delete_id.
Qed.

End Server_connections.

Section Server_connections_example.
Import EventBus WebSocketServer.

Lemma registry_witness :
  noEmptySet (bus (onConnection tokenIsUser connectedText sendWorks 7 (Some "/jobs/proj")
                     (Some "ann") freshServer)) ∧
  noEmptySet (bus (onClose "org:proj" 7 freshServer)) ∧
  ((∀ conns, connections (bus freshServer) !! "org:proj" = Some conns → 7%nat ∉ conns) →
   connections (bus (onClose "org:proj" 7
                       (withBus (addConnection "org:proj" 7 (bus freshServer)) freshServer)))
   = connections (bus freshServer)).
Proof.
  apply (registry_never_keeps_an_empty_set tokenIsUser connectedText sendWorks 7
           (Some "/jobs/proj") (Some "ann") "org:proj" freshServer).
  intros key conns Hk. vm_compute in Hk. discriminate.
Defined.

(** A socket that asks for [/jobs/proj] with a token is registered under
    [org:proj] and greeted. *)
Example connection_accepted :
  let s := onConnection tokenIsUser connectedText sendWorks 7 (Some "/jobs/proj") (Some "ann")
             freshServer in
  connections (bus s) !! "org:proj" = Some {[ 7%nat ]} ∧
  sent (bus s) = [(7%nat, "CONNECTED proj ann")] ∧ closed s = [].
Proof. vm_compute. done. Qed.

(** What is thrown in the handler closes the socket with 4500: before the
    registration when the token check is rejected, after it when [send]
    throws. *)
Example connection_internal_error :
  let rejected := onConnection tokenIsUser connectedText sendWorks 7 (Some "/jobs/proj")
                    (Some "broken") freshServer in
  let unsent := onConnection tokenIsUser connectedText sendFails 7 (Some "/jobs/proj")
                  (Some "ann") freshServer in
  connections (bus rejected) = ∅ ∧ closed rejected = [(7%nat, 4500, "Internal error")] ∧
  connections (bus unsent) !! "org:proj" = Some {[ 7%nat ]} ∧ sent (bus unsent) = [] ∧
  closed unsent = [(7%nat, 4500, "Internal error")].
Proof. vm_compute. done. Qed.

End Server_connections_example.

(** ** The heartbeat *)

Section Server_heartbeat.
Import EventBus WebSocketServer.

Lemma beat_other s x ws : ws ≠ x → isAlive (beat s x) !! ws = isAlive s !! ws.
Proof.
  intros Hne. unfold beat. destruct (isAlive s !! x) as [[]|]; simpl; [|  |done].
  - by rewrite lookup_insert_ne.
  - by rewrite lookup_delete_ne.
Qed.

Lemma beat_self s x :
  isAlive (beat s x) !! x = match isAlive s !! x with Some true => Some false | _ => None end ∧
  (∀ ws, ws ∈ terminated (beat s x) ↔ ws ∈ terminated s ∨ (ws = x ∧ isAlive s !! x = Some false)) ∧
  (∀ ws, ws ∈ pinged (beat s x) ↔ ws ∈ pinged s ∨ (ws = x ∧ isAlive s !! x = Some true)).
Proof.
  unfold beat. destruct (isAlive s !! x) as [[]|] eqn:Hflag; simpl.
  - rewrite lookup_insert_eq. split; [done|]. split; intros ws.
    + naive_solver.
    + rewrite elem_of_app, list_elem_of_singleton. naive_solver.
  - rewrite lookup_delete_eq. split; [done|]. split; intros ws.
    + rewrite elem_of_app, list_elem_of_singleton. naive_solver.
    + naive_solver.
  - rewrite Hflag. split; [done|]. split; intros ws; naive_solver.
Qed.

Lemma foldl_beat : ∀ l s ws,
  NoDup l →
  isAlive (foldl beat s l) !! ws
  = (if decide (ws ∈ l)
     then match isAlive s !! ws with Some true => Some false | _ => None end
     else isAlive s !! ws) ∧
  (ws ∈ terminated (foldl beat s l)
   ↔ ws ∈ terminated s ∨ (ws ∈ l ∧ isAlive s !! ws = Some false)) ∧
  (ws ∈ pinged (foldl beat s l)
   ↔ ws ∈ pinged s ∨ (ws ∈ l ∧ isAlive s !! ws = Some true)).
Proof.
  induction l as [|x l IH]; intros s ws Hnd.
  - simpl. split; [done|]. split; (split; [by left|]); intros [?|[Hin _]]; try done;
      by apply elem_of_nil in Hin.
  - apply NoDup_cons in Hnd as [Hx Hnd]. cbn [foldl].
    destruct (IH (beat s x) ws Hnd) as (Ha & Ht & Hp). rewrite Ha, Ht, Hp. clear IH Ha Ht Hp.
    destruct (beat_self s x) as (Hsa & Hst & Hsp). rewrite Hst, Hsp.
    destruct (decide (ws = x)) as [->|Hne].
    + rewrite decide_False by done. rewrite decide_True by (by left).
      rewrite Hsa. split; [done|]. split; rewrite elem_of_cons; naive_solver.
    + rewrite beat_other by done. split; [|split; rewrite elem_of_cons; naive_solver].
      destruct (decide (ws ∈ l)) as [Hl|Hl].
      * by rewrite decide_True by (by right).
      * rewrite decide_False; [done|]. rewrite elem_of_cons. naive_solver.
Qed.

Lemma heartbeat_client s ws :
  isAlive (heartbeat s) !! ws
  = match isAlive s !! ws with Some true => Some false | _ => None end ∧
  (ws ∈ terminated (heartbeat s) ↔ ws ∈ terminated s ∨ isAlive s !! ws = Some false) ∧
  (ws ∈ pinged (heartbeat s) ↔ ws ∈ pinged s ∨ isAlive s !! ws = Some true).
Proof.
  unfold heartbeat.
  destruct (foldl_beat (elements (dom (isAlive s))) s ws (NoDup_elements _)) as (Ha & Ht & Hp).
  rewrite Ha, Ht, Hp. clear Ha Ht Hp.
  assert (Hdom : ws ∈ elements (dom (isAlive s)) ↔ is_Some (isAlive s !! ws)).
  { by rewrite elem_of_elements, elem_of_dom. }
  split; [|split].
  - case_decide as Hin; [done|]. destruct (isAlive s !! ws) as [[]|] eqn:Hflag; try done;
      destruct Hin; apply Hdom; by eexists.
  - split; [naive_solver|]. intros [?|Hf]; [by left|right]. split; [|done].
    apply Hdom. by eexists.
  - split; [naive_solver|]. intros [?|Hf]; [by left|right]. split; [|done].
    apply Hdom. by eexists.
Qed.

(** X18: the heartbeat pings every client whose flag is set and clears the
    flag.  A client that answers no ping is terminated by the tick after the
    one that pinged it and leaves the clients; a client whose pong arrives
    between two ticks is pinged again and not terminated. *)
Theorem heartbeat_terminates_only_silent_clients s ws :
  isAlive s !! ws = Some true →
  let s1 := heartbeat s in
  (isAlive s1 !! ws = Some false ∧ ws ∈ pinged s1 ∧ (ws ∈ terminated s1 → ws ∈ terminated s)) ∧
  (ws ∈ terminated (heartbeat s1) ∧ isAlive (heartbeat s1) !! ws = None) ∧
  (let s2 := heartbeat (onPong ws s1) in
   isAlive s2 !! ws = Some false ∧ (ws ∈ terminated s2 → ws ∈ terminated s)).
Proof.
  intros Halive. cbv zeta.
  destruct (heartbeat_client s ws) as (Ha1 & Ht1 & Hp1). rewrite Halive in *.
  split; [|split].
  - split; [done|]. split; [apply Hp1; by right|]. intros [?|?]%Ht1; done.
  - destruct (heartbeat_client (heartbeat s) ws) as (Ha2 & Ht2 & _). rewrite Ha1 in *.
    split; [apply Ht2; by right|done].
  - assert (Hpong : isAlive (onPong ws (heartbeat s)) !! ws = Some true
                    ∧ terminated (onPong ws (heartbeat s)) = terminated (heartbeat s)).
    { unfold onPong. rewrite Ha1. simpl. by rewrite lookup_insert_eq. }
    destruct Hpong as [Hflag Hterm].
    destruct (heartbeat_client (onPong ws (heartbeat s)) ws) as (Ha2 & Ht2 & _).
    rewrite Hflag in *. split; [done|].
    intros [Hin|?]%Ht2; [|done]. rewrite Hterm in Hin. apply Ht1 in Hin as [?|?]; done.
Qed.

Lemma heartbeat_witness :
  let s := withAlive 7 true freshServer in
  let s1 := heartbeat s in
  (isAlive s1 !! 7%nat = Some false ∧ 7%nat ∈ pinged s1 ∧
   (7%nat ∈ terminated s1 → 7%nat ∈ terminated s)) ∧
  (7%nat ∈ terminated (heartbeat s1) ∧ isAlive (heartbeat s1) !! 7%nat = None) ∧
  (let s2 := heartbeat (onPong 7 s1) in
   isAlive s2 !! 7%nat = Some false ∧ (7%nat ∈ terminated s2 → 7%nat ∈ terminated s)).
Proof.
  apply (heartbeat_terminates_only_silent_clients (withAlive 7 true freshServer) 7%nat).
  reflexivity.
Defined.

End Server_heartbeat.

(** ** The vault and its callers *)

Section Vault_callers.
Import Vault Tokens.

Variable scrypt : string → string → nat → string.
Variable gcmEncrypt : string → string → string → string * string.
Variable gcmDecrypt : string → string → string → string → option string.
Variable toBase64 fromBase64 : string → string.
Variable utf8Encode utf8Decode : string → string.

Hypothesis gcm_inverse : ∀ key ivBytes p,
  gcmDecrypt key ivBytes (gcmEncrypt key ivBytes p).1 (gcmEncrypt key ivBytes p).2 = Some p.
Hypothesis gcm_tag_checked : ∀ key ivBytes c t p,
  gcmDecrypt key ivBytes c t = Some p → gcmEncrypt key ivBytes p = (c, t).
Hypothesis base64_inverse : ∀ b, fromBase64 (toBase64 b) = b.
Hypothesis utf8_inverse : ∀ s, utf8Decode (utf8Encode s) = s.

(** X19: with a passphrase of at least 32 characters and a salt that is
    not empty, [encryptCredentials] succeeds and [decryptCredentials], given
    the four stored fields, returns the plaintext; without such a passphrase
    both throw.  (The primitives are assumed to be inverse to each other.) *)
Theorem vault_decrypts_what_it_encrypted env saltBytes ivBytes plaintext :
  saltBytes ≠ EmptyString →
  match getEncryptionKey env with
  | Some password =>
      (32 ≤ String.length password)%nat ∧
      ∃ e, encryptCredentials scrypt gcmEncrypt toBase64 utf8Encode env saltBytes ivBytes
             plaintext = Some e ∧
           fromHex (iv e) = ivBytes ∧ fromHex (salt e) = saltBytes ∧
           decryptCredentials scrypt gcmDecrypt fromBase64 utf8Encode utf8Decode env
             (encryptedData e) (iv e) (authTag e) (Some (salt e)) = Some plaintext
  | None =>
      (∀ password, env = Some password → (String.length password < 32)%nat) ∧
      encryptCredentials scrypt gcmEncrypt toBase64 utf8Encode env saltBytes ivBytes plaintext
      = None ∧
      ∀ data ivHex authTagHex saltHex,
        decryptCredentials scrypt gcmDecrypt fromBase64 utf8Encode utf8Decode env
          data ivHex authTagHex saltHex = None
  end.
Proof.
  intros Hsalt.
  destruct (getEncryptionKey env) as [password|] eqn:Hkey.
  - split.
    { unfold getEncryptionKey in Hkey. destruct env as [k|]; [|done].
      destruct (String.length k <? 32)%nat eqn:Hlen; [done|].
      apply Nat.ltb_ge in Hlen. by inversion Hkey; subst. }
    destruct (encryptCredentials scrypt gcmEncrypt toBase64 utf8Encode env saltBytes ivBytes
                plaintext) as [e|] eqn:Henc.
    + exists e. split; [done|].
      pose proof (vault_round_trip scrypt gcmEncrypt gcmDecrypt toBase64 fromBase64
                    utf8Encode utf8Decode gcm_inverse base64_inverse utf8_inverse
                    env saltBytes ivBytes plaintext e Hsalt Henc) as Hrt.
      unfold encryptCredentials in Henc. rewrite Hkey in Henc.
      destruct (gcmEncrypt _ _ _) as [c t]. inversion Henc; subst. simpl.
      by rewrite !fromHex_toHex.
    + unfold encryptCredentials in Henc. rewrite Hkey in Henc.
      by destruct (gcmEncrypt _ _ _).
  - split; [|split].
    + intros password ->. simpl in Hkey.
      destruct (String.length password <? 32)%nat eqn:Hlen; [|done]. by apply Nat.ltb_lt.
    + unfold encryptCredentials. by rewrite Hkey.
    + intros. unfold decryptCredentials. by rewrite Hkey.
Qed.

(** X20: the workers read a credential through [decryptCredentials] with
    three arguments, so the key they decrypt with is the passphrase itself,
    cut or padded to 32 bytes, and [scrypt] is not used.  For a credential
    written by [encryptCredentials] this succeeds only if encryption under
    that key gives the ciphertext and the tag that encryption under the
    derived key gave.  (Decryption is taken to accept a ciphertext and a tag
    only when encryption of the plaintext it returns, under the same key and
    iv, produces them, and base64 decoding to undo the encoding.) *)
Theorem workers_decrypt_with_the_padded_passphrase env saltBytes ivBytes plaintext e x :
  encryptCredentials scrypt gcmEncrypt toBase64 utf8Encode env saltBytes ivBytes plaintext
  = Some e →
  decryptSimpleCredential scrypt gcmDecrypt fromBase64 utf8Encode utf8Decode env e = Some x →
  ∃ password p,
    getEncryptionKey env = Some password ∧ x = utf8Decode p ∧
    gcmDecrypt (copyInto KEY_LENGTH (utf8Encode password)) ivBytes
      (gcmEncrypt (scrypt password saltBytes KEY_LENGTH) ivBytes (utf8Encode plaintext)).1
      (gcmEncrypt (scrypt password saltBytes KEY_LENGTH) ivBytes (utf8Encode plaintext)).2
    = Some p ∧
    gcmEncrypt (copyInto KEY_LENGTH (utf8Encode password)) ivBytes p
    = gcmEncrypt (scrypt password saltBytes KEY_LENGTH) ivBytes (utf8Encode plaintext).
Proof.
  unfold encryptCredentials, decryptSimpleCredential, decryptCredentials.
  destruct (getEncryptionKey env) as [password|]; [|done].
  destruct (gcmEncrypt (scrypt password saltBytes KEY_LENGTH) ivBytes (utf8Encode plaintext))
    as [c t] eqn:Henc.
  intros [= <-]. cbn [encryptedData iv authTag salt]. rewrite !fromHex_toHex, base64_inverse.
  destruct (gcmDecrypt _ _ _ _) as [p|] eqn:Hdec; [|done].
  intros [= <-]. exists password, p. split; [done|]. split; [done|].
  rewrite Henc. split; [exact Hdec|]. by apply gcm_tag_checked.
Qed.

End Vault_callers.

Section Vault_callers_example.
Import Vault Tokens.

Lemma vault_decrypts_witness :
  match getEncryptionKey passphrase with
  | Some password =>
      (32 ≤ String.length password)%nat ∧
      ∃ e, encryptCredentials plainScrypt plainSeal id id passphrase "salt" "iv" "{}" = Some e ∧
           fromHex (iv e) = "iv" ∧ fromHex (salt e) = "salt" ∧
           decryptCredentials plainScrypt plainOpen id id id passphrase
             (encryptedData e) (iv e) (authTag e) (Some (salt e)) = Some "{}"
  | None =>
      (∀ password, passphrase = Some password → (String.length password < 32)%nat) ∧
      encryptCredentials plainScrypt plainSeal id id passphrase "salt" "iv" "{}" = None ∧
      ∀ data ivHex authTagHex saltHex,
        decryptCredentials plainScrypt plainOpen id id id passphrase
          data ivHex authTagHex saltHex = None
  end.
Proof.
  apply (vault_decrypts_what_it_encrypted plainScrypt plainSeal plainOpen id id id id).
  - apply plainOpen_inverse.
  - reflexivity.
  - reflexivity.
  - discriminate.
Defined.

Lemma workers_decrypt_witness :
  ∃ password p,
    getEncryptionKey passphrase = Some password ∧ "{}" = id p ∧
    plainOpen (copyInto KEY_LENGTH (id password)) "iv"
      (plainSeal (plainScrypt password "salt" KEY_LENGTH) "iv" (id "{}")).1
      (plainSeal (plainScrypt password "salt" KEY_LENGTH) "iv" (id "{}")).2
    = Some p ∧
    plainSeal (copyInto KEY_LENGTH (id password)) "iv" p
    = plainSeal (plainScrypt password "salt" KEY_LENGTH) "iv" (id "{}").
Proof.
  apply (workers_decrypt_with_the_padded_passphrase plainScrypt plainSeal plainOpen id id id id
           plainOpen_checked (fun b => eq_refl) passphrase "salt" "iv" "{}"
           {| encryptedData := "{}"; iv := toHex "iv";
              authTag := toHex (String.append (plainScrypt "0123456789abcdef0123456789abcdef"
                                                 "salt" KEY_LENGTH) "iv{}");
              salt := toHex "salt" |}).
  - vm_compute. reflexivity.
  - vm_compute. reflexivity.
Defined.

End Vault_callers_example.

(** ** Generated keys *)

Section Generated_keys.
Import Vault Tokens.

Lemma toHex_length b : String.length (toHex b) = (2 * String.length b)%nat.
Proof. induction b as [|c r IH]; [done|]. cbn [toHex String.length]. rewrite IH. lia. Qed.

Lemma hexDigit_is_hex n : (n < 16)%N → is_Some (nibble (hexDigit n)).
Proof.
  intros Hn. destruct n as [|p]; [by eexists|].
  do 4 (destruct p as [p|p|]; try (by eexists); try lia).
Qed.

Lemma toHex_allHex b : allHex (toHex b) = true.
Proof.
  induction b as [|c r IH]; [done|]. cbn [toHex allHex]. rewrite IH.
  rewrite !bool_decide_true; [done|..]; apply hexDigit_is_hex.
  - apply N.mod_lt. done.
  - apply N.Div0.div_lt_upper_bound. pose proof (N_ascii_bounded c). lia.
Qed.

Lemma wizardKey_toHex bytes : wizardKey bytes = toHex bytes.
Proof.
  induction bytes as [|b r IH]; [done|]. cbn [wizardKey toHex]. rewrite IH.
  by destruct b as [[] [] [] [] [] [] [] []].
Qed.

(** X21: the IndexNow key of [generateIndexNowKey] is the hexadecimal
    form of the 16 random bytes: 32 characters, all hexadecimal digits, which
    is within the 8 to 128 the protocol asks for, and the bytes can be read
    back from it; [generateSecureToken(n)] has 2n characters; the key the
    project wizard builds from the same bytes is the same string. *)
Theorem generated_keys_are_hexadecimal (randomBytes : nat → string) :
  (∀ n, String.length (randomBytes n) = n) →
  String.length (generateIndexNowKey randomBytes) = 32%nat ∧
  allHex (generateIndexNowKey randomBytes) = true ∧
  fromHex (generateIndexNowKey randomBytes) = randomBytes 16%nat ∧
  (∀ n, String.length (generateSecureToken randomBytes n) = (2 * n)%nat) ∧
  wizardKey (randomBytes 16%nat) = generateIndexNowKey randomBytes.
Proof.
  intros Hlen. unfold generateIndexNowKey, generateSecureToken.
  split; [by rewrite toHex_length, Hlen|]. split; [apply toHex_allHex|].
  split; [apply fromHex_toHex|]. split; [|apply wizardKey_toHex].
  intros n. by rewrite toHex_length, Hlen.
Qed.

Lemma countingBytes_length n : String.length (countingBytes n) = n.
Proof. induction n as [|k IH]; [done|]. cbn [countingBytes String.length]. by rewrite IH. Qed.

Lemma generated_keys_witness :
  String.length (generateIndexNowKey countingBytes) = 32%nat ∧
  allHex (generateIndexNowKey countingBytes) = true ∧
  fromHex (generateIndexNowKey countingBytes) = countingBytes 16%nat ∧
  (∀ n, String.length (generateSecureToken countingBytes n) = (2 * n)%nat) ∧
  wizardKey (countingBytes 16%nat) = generateIndexNowKey countingBytes.
Proof.
  apply (generated_keys_are_hexadecimal countingBytes). apply countingBytes_length.
Defined.

End Generated_keys.

(** ** The browser application: the log, the chart and the IndexNow phase *)

Section App_log.
Import App.

Lemma sliceLast_length {A} k (xs : list A) : length (sliceLast k xs) = (length xs `min` k)%nat.
Proof. unfold sliceLast. rewrite length_drop. lia. Qed.

Lemma sliceLast_snoc {A} k (xs : list A) x :
  sliceLast k xs ++ [x] = sliceLast (S k) (xs ++ [x]).
Proof.
  unfold sliceLast. rewrite length_app. simpl.
  replace (length xs + 1 - S k)%nat with (length xs - k)%nat by lia.
  rewrite drop_app_le by lia. done.
Qed.

Lemma sliceLast_sliceLast {A} j k (xs : list A) :
  (j ≤ k)%nat → sliceLast j (sliceLast k xs) = sliceLast j xs.
Proof.
  intros Hjk. unfold sliceLast. rewrite length_drop, drop_drop. f_equal. lia.
Qed.

(** X22: the log of the application always holds the last 1000 entries
    passed to [addLog], oldest first: starting from the empty log, after any
    sequence of calls it is that sequence cut to its last 1000 entries, and
    an entry just added is its last element. *)
Theorem addLog_keeps_the_last_1000_entries (entries : list LogEntry) :
  let logs := foldl (fun prev log => addLog log prev) [] entries in
  logs = sliceLast 1000 entries ∧
  length logs = (length entries `min` 1000)%nat ∧
  (∀ log prev, last (addLog log prev) = Some log ∧ (length (addLog log prev) ≤ 1000)%nat).
Proof.
  cbv zeta.
  assert (H : foldl (fun prev log => addLog log prev) [] entries = sliceLast 1000 entries).
  { induction entries as [|e es IH] using rev_ind; [done|].
    rewrite foldl_app. cbn [foldl]. rewrite IH. unfold addLog.
    rewrite sliceLast_sliceLast by lia. apply sliceLast_snoc. }
  split; [done|]. split; [by rewrite H, sliceLast_length|].
  intros log prev. unfold addLog. split; [by rewrite last_snoc|].
  rewrite length_app, sliceLast_length. simpl. lia.
Qed.

Lemma appendChartData_last label a b chart :
  last (appendChartData label a b chart)
  = Some {| name := label; value := orZero (value <$> last chart) + a;
            secondary := orZero (secondary <$> last chart) + b |}
  ∧ (length (appendChartData label a b chart) ≤ 30)%nat.
Proof.
  unfold appendChartData. cbv zeta. rewrite <- (sliceLast_snoc 29).
  split; [by rewrite last_snoc|].
  rewrite length_app, sliceLast_length. simpl. lia.
Qed.

(** X23: the chart never holds more than 30 points, and its last point
    carries the running totals: after any calls of [appendChartData] on the
    chart a job starts with, the last point holds the sum of all [submitted]
    arguments and the sum of all [successful] arguments, also when the points
    that held the earlier totals were dropped. *)
Theorem chart_last_point_holds_the_totals (calls : list (string * Z * Z)) :
  let chart := chartAfter calls startChart in
  (length chart ≤ 30)%nat ∧
  value <$> last chart = Some (Quota.sumZ (map (fun c => c.1.2) calls)) ∧
  secondary <$> last chart = Some (Quota.sumZ (map (fun c => c.2) calls)).
Proof.
  cbv zeta. unfold chartAfter.
  induction calls as [|c cs IH] using rev_ind.
  - simpl. split; [lia|done].
  - rewrite foldl_app. cbn [foldl]. destruct IH as (Hlen & Hv & Hs).
    destruct (appendChartData_last c.1.1 c.1.2 c.2
                (foldl (fun acc c => appendChartData c.1.1 c.1.2 c.2 acc) startChart cs))
      as [Hlast Hlen'].
    split; [done|]. rewrite Hlast, Hv, Hs. simpl.
    rewrite !map_app. simpl.
    assert (Hsum : ∀ l x, Quota.sumZ (l ++ [x]) = Quota.sumZ l + x).
    { intros l x. induction l as [|y l IHl]; simpl; lia. }
    by rewrite !Hsum.
Qed.

End App_log.

Section App_phase_a.
Import App.

Lemma chunks_lengths {A} size : ∀ fuel (xs : list A),
  (0 < size)%nat → (length xs ≤ fuel)%nat →
  sum_list (length <$> IndexingService.chunks fuel size xs) = length xs ∧
  Forall (fun b => (0 < length b ≤ size)%nat) (IndexingService.chunks fuel size xs).
Proof.
  induction fuel as [|f IH]; intros xs Hsize Hfuel.
  - destruct xs; [done|simpl in Hfuel; lia].
  - destruct xs as [|x xs']; [done|].
    change (IndexingService.chunks (S f) size (x :: xs'))
      with (take size (x :: xs') :: IndexingService.chunks f size (drop size (x :: xs'))).
    destruct (IH (drop size (x :: xs')) Hsize) as [Hsum Hall].
    { rewrite length_drop. simpl in *. lia. }
    cbn [fmap list_fmap sum_list]. split.
    + change (sum_list (length <$> IndexingService.chunks f size (drop size (x :: xs'))))
        with (sum_list (length <$> IndexingService.chunks f size (drop size (x :: xs')))).
      rewrite length_take. rewrite length_drop in Hsum.
      unfold fmap in Hsum |- *. simpl in *. lia.
    + constructor; [|done]. rewrite length_take. simpl. lia.
Qed.

Lemma updateProjectStats_zero projectId (prev : list Project) :
  updateProjectStats projectId
    {| d_totalUrls := None; d_submitted := Some 0; d_indexed := Some 0; d_errors := Some 0 |}
    prev = prev.
Proof.
  unfold updateProjectStats. induction prev as [|p ps IH]; [done|].
  cbn [map]. rewrite IH. f_equal. case_decide; [|done].
  destruct p as [i d k [t s x e]]. simpl. unfold orZero. simpl. by rewrite !Z.add_0_r.
Qed.

Lemma updateProjectStats_twice projectId a b c a' b' c' (prev : list Project) :
  updateProjectStats projectId
    {| d_totalUrls := None; d_submitted := Some a'; d_indexed := Some b'; d_errors := Some c' |}
    (updateProjectStats projectId
       {| d_totalUrls := None; d_submitted := Some a; d_indexed := Some b; d_errors := Some c |}
       prev)
  = updateProjectStats projectId
      {| d_totalUrls := None; d_submitted := Some (a + a'); d_indexed := Some (b + b');
         d_errors := Some (c + c') |} prev.
Proof.
  unfold updateProjectStats. rewrite map_map. apply map_ext. intros p.
  destruct (decide (p_id p = projectId)) as [Hp|Hp]; simpl.
  - rewrite decide_True by done. unfold orZero. simpl. do 2 f_equal; lia.
  - by rewrite decide_False.
Qed.

Lemma indexNowBatches_counts api projectId total label : ∀ batches k acc s,
  let r := indexNowBatches api projectId total label k batches acc s in
  (idxSubmitted acc ≤ idxSubmitted r.1)%nat ∧ (idxErrors acc ≤ idxErrors r.1)%nat ∧
  ((idxSubmitted r.1 - idxSubmitted acc) + (idxErrors r.1 - idxErrors acc)
   = sum_list (length <$> batches))%nat ∧
  projects r.1
  = updateProjectStats projectId
      {| d_totalUrls := None;
         d_submitted := Some (Z.of_nat (sum_list (length <$> batches)));
         d_indexed := Some (Z.of_nat (idxSubmitted r.1 - idxSubmitted acc));
         d_errors := Some (Z.of_nat (idxErrors r.1 - idxErrors acc)) |}
      (projects acc).
Proof.
  induction batches as [|batch rest IH]; intros k acc s; cbv zeta.
  - simpl. rewrite !Nat.sub_diag. simpl. rewrite updateProjectStats_zero.
    repeat split; lia.
  - cbn [indexNowBatches].
    destruct (IndexNowRetry.attemptIndexNowBatch api batch s) as [res s1] eqn:Hres.
    pose proof (attemptIndexNowBatch_counts_batch api batch s) as Hall.
    rewrite Hres in Hall. simpl in Hall.
    set (acc1 := {| idxSubmitted := (idxSubmitted acc + IndexNowRetry.submitted res)%nat;
                    idxErrors := (idxErrors acc + IndexNowRetry.errors res)%nat;
                    projects := _; chartData := _ |}).
    destruct (IH (S k) acc1 s1) as (Hs & He & Hsum & Hp). cbv zeta in *.
    subst acc1. cbn [idxSubmitted idxErrors projects] in *.
    cbn [fmap list_fmap sum_list]. unfold fmap, Datatypes.id in *.
    split; [lia|]. split; [lia|]. split; [lia|].
    rewrite Hp, updateProjectStats_twice. f_equal. f_equal; f_equal; lia.
Qed.

(** X24: phase A of a job counts every discovered location once: when it
    ends, [idxSubmitted + idxErrors] is the number of locations, and the
    statistics of the project have grown by that number in [submitted], by
    [idxSubmitted] in [indexed] and by [idxErrors] in [errors]; the other
    projects and [totalUrls] are as before. *)
Theorem indexNowPhase_accounts_for_every_location api projectId label allLocs prev chart s :
  let r := indexNowPhase api projectId label allLocs prev chart s in
  (idxSubmitted r.1 + idxErrors r.1)%nat = length allLocs ∧
  projects r.1
  = updateProjectStats projectId
      {| d_totalUrls := None;
         d_submitted := Some (Z.of_nat (length allLocs));
         d_indexed := Some (Z.of_nat (idxSubmitted r.1));
         d_errors := Some (Z.of_nat (idxErrors r.1)) |} prev.
Proof.
  cbv zeta. unfold indexNowPhase.
  destruct (chunks_lengths 2000 (length allLocs) allLocs) as [Hsum _]; [lia|done|].
  destruct (indexNowBatches_counts api projectId (length allLocs) label
              (IndexingService.chunks (length allLocs) 2000 allLocs) 0
              {| idxSubmitted := 0; idxErrors := 0; projects := prev; chartData := chart |} s)
    as (_ & _ & Hcount & Hp).
  cbv zeta in *. cbn [idxSubmitted idxErrors projects] in *.
  rewrite Hsum, !Nat.sub_0_r in *. done.
Qed.

End App_phase_a.

(** ** Request memoization *)

Section Memo_cache.
Import Memo.

Lemma cachedHit_fresh {T} key ttlMs (value : T) setAt cleanupAt c later :
  cleanupAt <= later < setAt + ttlMs →
  cachedHit key later (onFulfilled key ttlMs value setAt cleanupAt c) = Some value.
Proof.
  intros Hlater. unfold cachedHit, onFulfilled. cbv zeta.
  assert (Hkey : (if bool_decide (100 < size (<[key:={| data := value; expires := setAt + ttlMs |}]> c))%nat
                  then cleanup cleanupAt (<[key:={| data := value; expires := setAt + ttlMs |}]> c)
                  else <[key:={| data := value; expires := setAt + ttlMs |}]> c) !! key
                 = Some {| data := value; expires := setAt + ttlMs |}).
  { case_bool_decide; [|by rewrite lookup_insert_eq].
    unfold cleanup. apply map_lookup_filter_Some. rewrite lookup_insert_eq. split; [done|].
    simpl. lia. }
  rewrite Hkey. simpl. rewrite bool_decide_true by lia. done.
Qed.

Lemma cachedHit_stale {T} key ttlMs (value : T) setAt cleanupAt c later :
  setAt + ttlMs <= later →
  cachedHit key later (onFulfilled key ttlMs value setAt cleanupAt c) = None.
Proof.
  intros Hlater. unfold cachedHit, onFulfilled. cbv zeta.
  destruct (_ !! key) as [cached|] eqn:Hc; [|done].
  assert (cached = {| data := value; expires := setAt + ttlMs |}) as ->.
  { case_bool_decide.
    - apply map_lookup_filter_Some in Hc as [Hc _]. rewrite lookup_insert_eq in Hc. congruence.
    - rewrite lookup_insert_eq in Hc. congruence. }
  simpl. rewrite bool_decide_false by lia. done.
Qed.

(** X25: a value that [memoizedRequest] fetched is served from the cache,
    without a further call of any [requestFn], to every call for the same
    key made from the time of the clean-up until its time to live has run
    out; a call made once it has run out calls its [requestFn] again. *)
Theorem memoized_value_is_served_until_it_expires {T}
    key ttlMs requestFn now setAt cleanupAt (s : state T) value :
  cachedHit key now (requestCache s) = None →
  requestFn (requests s) = Fulfilled value →
  let s1 := (memoizedRequest key ttlMs requestFn now setAt cleanupAt s).2 in
  requests s1 = S (requests s) ∧
  ∀ later ttl' requestFn' setAt' cleanupAt',
    let r := memoizedRequest key ttl' requestFn' later setAt' cleanupAt' s1 in
    (cleanupAt <= later < setAt + ttlMs → r = (Fulfilled value, s1)) ∧
    (setAt + ttlMs <= later → r.1 = requestFn' (requests s1) ∧ requests r.2 = S (requests s1)).
Proof.
  intros Hmiss Hreply. cbv zeta.
  assert (Hs1 : (memoizedRequest key ttlMs requestFn now setAt cleanupAt s).2
                = {| requestCache := onFulfilled key ttlMs value setAt cleanupAt (requestCache s);
                     requests := S (requests s) |}).
  { unfold memoizedRequest. by rewrite Hmiss, Hreply. }
  rewrite Hs1. split; [done|].
  intros later ttl' requestFn' setAt' cleanupAt'. unfold memoizedRequest.
  cbn [requestCache requests]. split; intros Hlater.
  - by rewrite cachedHit_fresh.
  - rewrite cachedHit_stale by done. by destruct (requestFn' _).
Qed.

Lemma memoized_value_witness :
  let s := {| requestCache := ∅; requests := 0 |} in
  let s1 := (memoizedRequest "k" 500 (fun _ => Fulfilled "v") 10 20 20 s).2 in
  requests s1 = 1%nat ∧
  ∀ later ttl' requestFn' setAt' cleanupAt',
    let r := memoizedRequest "k" ttl' requestFn' later setAt' cleanupAt' s1 in
    (20 <= later < 20 + 500 → r = (Fulfilled "v", s1)) ∧
    (20 + 500 <= later → r.1 = requestFn' (requests s1) ∧ requests r.2 = S (requests s1)).
Proof.
  apply (memoized_value_is_served_until_it_expires "k" 500 (fun _ => Fulfilled "v") 10 20 20
           {| requestCache := ∅; requests := 0 |} "v"); reflexivity.
Defined.

(** A call changes no entry of another key except by removing it, and
    removes only entries whose time has passed at the clean-up; a cache of
    more than 100 entries that it has written holds no such entry.  A call
    that is served from the cache, or whose request fails, leaves the cache
    as it was. *)
Theorem memoizedRequest_removes_only_expired_entries {T}
    key ttlMs requestFn now setAt cleanupAt (s : state T) :
  let r := memoizedRequest key ttlMs requestFn now setAt cleanupAt s in
  let c := requestCache s in
  let c' := requestCache r.2 in
  (∀ k e, k ≠ key → c' !! k = Some e → c !! k = Some e) ∧
  (∀ k e, k ≠ key → c !! k = Some e → c' !! k = Some e ∨ (c' !! k = None ∧ expires e < cleanupAt)) ∧
  (c' = c ∨ (size c' ≤ 100)%nat ∨ ∀ k e, c' !! k = Some e → cleanupAt <= expires e) ∧
  (requests r.2 = requests s ∨ (∃ reason, r.1 = RejectedWith reason) → c' = c).
Proof.
  cbv zeta. unfold memoizedRequest.
  destruct (cachedHit key now (requestCache s)) as [hit|].
  { cbn [fst snd]. split; [done|]. split; [by left|]. split; [by left|done]. }
  destruct (requestFn (requests s)) as [value|reason]; cbn [fst snd requestCache requests].
  2:{ split; [done|]. split; [by left|]. split; [by left|done]. }
  unfold onFulfilled. cbv zeta. case_bool_decide as Hsize.
  - unfold cleanup. split; [|split; [|split]].
    + intros k e Hk [He _]%map_lookup_filter_Some. by rewrite lookup_insert_ne in He.
    + intros k e Hk He. destruct (decide (expires e < cleanupAt)) as [Hold|Hlive].
      * right. split; [|done]. apply map_lookup_filter_None. right.
        intros e'. rewrite lookup_insert_ne by done. intros He' Hp. simpl in Hp.
        rewrite He in He'. injection He' as <-. done.
      * left. apply map_lookup_filter_Some. by rewrite lookup_insert_ne.
    + right. right. intros k e [_ He]%map_lookup_filter_Some. simpl in He. lia.
    + intros [Hn|[reason Hr]]; [lia|discriminate].
  - split; [|split; [|split]].
    + intros k e Hk. by rewrite lookup_insert_ne.
    + intros k e Hk He. left. by rewrite lookup_insert_ne.
    + right. left. lia.
    + intros [Hn|[reason Hr]]; [lia|discriminate].
Qed.

End Memo_cache.

(** ** The projects router *)

Section Router_tenants.
Import ProjectsRouter.

Lemma filter_filter_implied {A} (P Q : A → Prop) `{!∀ x, Decision (P x)} `{!∀ x, Decision (Q x)}
    (l : list A) :
  (∀ x, P x → Q x) → filter P (filter Q l) = filter P l.
Proof.
  intros HPQ. induction l as [|x l IH]; [done|].
  rewrite !filter_cons. destruct (decide (Q x)) as [HQ|HQ].
  - rewrite filter_cons. destruct (decide (P x)); by rewrite IH.
  - rewrite IH. destruct (decide (P x)) as [HP|HP]; [|done]. by apply HPQ in HP.
Qed.

Lemma filter_map_unchanged {A} (P : A → Prop) `{!∀ x, Decision (P x)} (f : A → A) (l : list A) :
  (∀ x, P x → f x = x) → (∀ x, ¬ P x → ¬ P (f x)) → filter P (map f l) = filter P l.
Proof.
  intros Hsame Hnot. induction l as [|x l IH]; [done|].
  cbn [map]. rewrite !filter_cons, IH.
  destruct (decide (P x)) as [HP|HP].
  - rewrite Hsame by done. by rewrite decide_True.
  - by rewrite decide_False by auto.
Qed.

Lemma filter_snoc_out {A} (P : A → Prop) `{!∀ x, Decision (P x)} (l : list A) x :
  ¬ P x → filter P (l ++ [x]) = filter P l.
Proof.
  intros HP. rewrite filter_app, filter_cons, decide_False by done.
  by rewrite filter_nil, app_nil_r.
Qed.

Lemma owned_first organizationId id (ps : list project_row) p rest :
  filter (owned organizationId id) ps = p :: rest → p ∈ ps ∧ owned organizationId id p.
Proof.
  intros Hf. assert (Hp : p ∈ filter (owned organizationId id) ps).
  { rewrite Hf. apply list_elem_of_here. }
  apply list_elem_of_filter in Hp as [Ho Hin]. done.
Qed.

Lemma ownIds_before organizationId d d' p :
  p ∈ projects_t d → pr_organizationId p = organizationId →
  pr_id p ∈ ownIds organizationId d d'.
Proof.
  intros Hin Horg. unfold ownIds. apply list_elem_of_fmap. exists p. split; [done|].
  apply list_elem_of_filter. split; [done|]. apply elem_of_app. by left.
Qed.

Lemma ownIds_after organizationId d d' p :
  p ∈ projects_t d' → pr_organizationId p = organizationId →
  pr_id p ∈ ownIds organizationId d d'.
Proof.
  intros Hin Horg. unfold ownIds. apply list_elem_of_fmap. exists p. split; [done|].
  apply list_elem_of_filter. split; [done|]. apply elem_of_app. by right.
Qed.

(** X26: whatever mutation a member of an organization calls, the rows of
    [projects] that belong to other organizations are left as they are, and
    so are the rows of [jobs] and [urls] of every project that is not a
    project of the caller's organization. *)
Theorem mutations_leave_other_organizations_alone organizationId m d :
  let d' := mutate organizationId m d in
  let foreign j := j ∉ ownIds organizationId d d' in
  filter (fun p => pr_organizationId p ≠ organizationId) (projects_t d')
  = filter (fun p => pr_organizationId p ≠ organizationId) (projects_t d) ∧
  filter (fun j => foreign (j_projectId j)) (jobs_t d')
  = filter (fun j => foreign (j_projectId j)) (jobs_t d) ∧
  filter (fun u => foreign (u_projectId u)) (urls_t d')
  = filter (fun u => foreign (u_projectId u)) (urls_t d).
Proof.
  cbv zeta. destruct m as [input newProjectId newJobId|id updates|id
                           |projectId type newJobId|projectId urlIds engines newJobId];
    cbn [mutate].
  - unfold create. destruct (filter _ (projects_t d)) as [|? ?]; [|done].
    cbn [snd auditLog insertJob projects_t jobs_t urls_t].
    split; [apply filter_snoc_out; cbn; tauto|]. split; [|done].
    apply filter_snoc_out. cbn [j_projectId]. intros Hnot. apply Hnot.
    apply (ownIds_after _ _ _ {| pr_id := newProjectId; pr_organizationId := organizationId;
                                 pr_name := c_name input; pr_domain := c_domain input;
                                 pr_sitemapUrl := c_sitemapUrl input |}); [|done].
    cbn [auditLog insertJob projects_t]. apply elem_of_app. right. apply list_elem_of_here.
  - unfold update. destruct (filter _ (projects_t d)) as [|p rest] eqn:Hf; [done|].
    cbn [snd auditLog projects_t jobs_t urls_t]. split; [|done].
    apply filter_map_unchanged.
    + intros x Hx. rewrite decide_False; [done|]. intros [_ Ho]. done.
    + intros x Hx. by destruct (decide (owned organizationId id x)).
  - unfold deleteProject. destruct (filter _ (projects_t d)) as [|p rest] eqn:Hf; [done|].
    apply owned_first in Hf as [Hin [Hid Horg]].
    cbn [snd auditLog projects_t jobs_t urls_t].
    split; [|split]; apply filter_filter_implied.
    + intros x Hx [_ Ho]. done.
    + intros j Hj Heq. apply Hj. rewrite Heq, <- Hid. by apply ownIds_before.
    + intros u Hu Heq. apply Hu. rewrite Heq, <- Hid. by apply ownIds_before.
  - unfold triggerScan. destruct (filter _ (projects_t d)) as [|p rest] eqn:Hf; [done|].
    apply owned_first in Hf as [Hin [Hid Horg]].
    destruct (filter _ (jobs_t d)) as [|? ?]; [|done].
    cbn [snd auditLog insertJob projects_t jobs_t urls_t]. split; [done|]. split; [|done].
    apply filter_snoc_out. cbn [j_projectId]. intros Hnot. apply Hnot.
    rewrite <- Hid. by apply ownIds_before.
  - unfold submitUrls. destruct (filter _ (projects_t d)) as [|p rest] eqn:Hf; [done|].
    apply owned_first in Hf as [Hin [Hid Horg]].
    cbn [snd auditLog insertJob projects_t jobs_t urls_t]. split; [done|]. split; [|done].
    apply filter_snoc_out. cbn [j_projectId]. intros Hnot. apply Hnot.
    rewrite <- Hid. by apply ownIds_before.
Qed.

End Router_tenants.

Section Router_jobs.
Import ProjectsRouter.

Lemma filter_nonempty {A} (P : A → Prop) `{!∀ x, Decision (P x)} (l : list A) x :
  x ∈ l → P x → ∃ y ys, filter P l = y :: ys.
Proof.
  intros Hin HP. destruct (filter P l) as [|y ys] eqn:Hf; [|eauto].
  assert (Hx : x ∈ filter P l) by (by apply list_elem_of_filter).
  rewrite Hf in Hx. by apply elem_of_nil in Hx.
Qed.

Lemma activeJobs_snoc projectId type jobs j :
  activeJobs projectId type (jobs ++ [j])
  = activeJobs projectId type jobs
    ++ (if decide (j_projectId j = projectId ∧ j_type j = type ∧ inProgress j)
        then [j] else []).
Proof. unfold activeJobs. by rewrite filter_app, filter_cons, filter_nil. Qed.

(** X27: [triggerScan] never adds a second pending or processing job of a
    type to a project: a project and type with at most one such job have at
    most one after the call.  The call returns the job it inserted, which is
    then the only one in progress; it throws NOT_FOUND exactly when the
    organization has no project of that id and CONFLICT when a job is in
    progress, and a call that throws changes nothing. *)
Theorem triggerScan_keeps_one_scan_in_progress organizationId projectId type newJobId d :
  let r := triggerScan organizationId projectId type newJobId d in
  (∀ pid ty, (length (activeJobs pid ty (jobs_t d)) ≤ 1)%nat →
             (length (activeJobs pid ty (jobs_t r.2)) ≤ 1)%nat) ∧
  match r.1 with
  | Returns job =>
      jobs_t r.2 = jobs_t d ++ [job] ∧ j_status job = PENDING ∧
      activeJobs projectId type (jobs_t d) = [] ∧
      activeJobs projectId type (jobs_t r.2) = [job] ∧
      ∃ p, p ∈ projects_t d ∧ owned organizationId projectId p
  | Throws NOT_FOUND _ =>
      r.2 = d ∧ ¬ ∃ p, p ∈ projects_t d ∧ owned organizationId projectId p
  | Throws CONFLICT _ =>
      r.2 = d ∧ activeJobs projectId type (jobs_t d) ≠ []
  | Throws INTERNAL_SERVER_ERROR _ => False
  end.
Proof.
  cbv zeta. unfold triggerScan.
  destruct (filter (owned organizationId projectId) (projects_t d)) as [|p rest] eqn:Hp.
  { cbn [fst snd]. split; [done|]. split; [done|]. intros (p & Hin & Ho).
    destruct (filter_nonempty (owned organizationId projectId) _ p Hin Ho) as (y & ys & Hy).
    congruence. }
  apply owned_first in Hp as [Hin Ho].
  destruct (filter _ (jobs_t d)) as [|j js] eqn:Hact';
    assert (Hact := Hact' : activeJobs projectId type (jobs_t d) = _); cbn [fst snd].
  2:{ split; [done|]. split; [done|]. rewrite Hact. done. }
  cbn [auditLog insertJob jobs_t]. split.
  - intros pid ty Hone. rewrite activeJobs_snoc, length_app. cbn [j_projectId j_type].
    case_decide as Hsame; [|simpl; lia].
    destruct Hsame as (-> & -> & _). rewrite Hact. simpl. lia.
  - split; [done|]. split; [done|]. split; [done|]. split; [|eauto].
    rewrite activeJobs_snoc, Hact. cbn [j_projectId j_type].
    rewrite decide_True; [done|]. split; [done|]. split; [done|]. by left.
Qed.


End Router_jobs.

Section Router_pages.
Import ProjectsRouter.



Variable ilike : string → string → bool.
Variable orderBy : url_column → sort_order → list url_row → list url_row.
Variable queryError : string.
Hypothesis orderBy_length : ∀ c o rows, length (orderBy c o rows) = length rows.


End Router_pages.

Section Router_pages_example.
Import ProjectsRouter.


(** The default input, sorted by [createdAt], gets no page. *)
Example listUrls_default_sort_fails :
  listUrls (fun _ _ => true) (fun _ _ rows => rows) "no such column" "o"
    {| l_projectId := "p"; l_status := None; l_search := None; l_page := 1;
       l_pageSize := 50; l_sortBy := ByCreatedAt; l_sortOrder := Desc |}
    {| projects_t := [{| pr_id := "p"; pr_organizationId := "o"; pr_name := "n";
                         pr_domain := "d"; pr_sitemapUrl := "s" |}];
       jobs_t := []; urls_t := fiveUrls; audit_t := [] |}
  = Throws INTERNAL_SERVER_ERROR "no such column".
Proof. reflexivity. Qed.

End Router_pages_example.

(** ** The proxy layer *)

Section Proxy_rotation.
Import SmartProxy.
Variable encodeURIComponent : string → string.

Lemma proxyUrls_skip body targetUrl s rest :
  body && negb (supportsBody s) = true →
  proxyUrls body targetUrl (s :: rest) = proxyUrls body targetUrl rest.
Proof.
  intros Hskip. unfold proxyUrls. rewrite filter_cons, decide_False; [done|].
  intros Hn. by rewrite Hskip in Hn.
Qed.

Lemma proxyUrls_use body targetUrl s rest :
  body && negb (supportsBody s) = false →
  proxyUrls body targetUrl (s :: rest) = fn s targetUrl :: proxyUrls body targetUrl rest.
Proof.
  intros Huse. unfold proxyUrls. rewrite filter_cons, decide_True; [done|].
  rewrite Huse. by intros [].
Qed.

(** The rotation sends its requests to a prefix of the usable proxies; a
    response it returns is the answer to the last of them and was not
    refused; it throws an abort only when the signal is aborted, and any
    other error only after the last proxy. *)
Lemma rotate_log w body targetUrl : ∀ strategies n log lastError,
  lastError ≠ Some UserAbort → lastError ≠ Some DOMAborted →
  ∃ k, (k ≤ length (proxyUrls body targetUrl strategies))%nat ∧
    (rotate w body targetUrl strategies n log lastError).2
    = log ++ take k (proxyUrls body targetUrl strategies) ∧
    match (rotate w body targetUrl strategies n log lastError).1 with
    | Returns r =>
        (0 < k)%nat ∧ proxyRefused r = false ∧
        ∃ url, proxyUrls body targetUrl strategies !! (k - 1)%nat = Some url
               ∧ fetch w (n + k - 1)%nat url = Responds r
    | Throws UserAbort | Throws DOMAborted => aborted w (n + k)%nat = true
    | Throws _ => k = length (proxyUrls body targetUrl strategies)
    end.
Proof.
  induction strategies as [|s rest IH]; intros n log lastError Hu Hd.
  - exists 0%nat. cbn [rotate fst snd]. split; [done|]. split; [by rewrite app_nil_r|].
    destruct lastError as [[]|]; done.
  - cbn [rotate]. destruct (body && negb (supportsBody s)) eqn:Hskip.
    { rewrite proxyUrls_skip by done. by apply IH. }
    rewrite proxyUrls_use by done.
    destruct (aborted w n) eqn:Hab.
    { exists 0%nat. cbn [fst snd take length]. split; [lia|]. split; [by rewrite app_nil_r|].
      by rewrite Nat.add_0_r. }
    cbv zeta.
    assert (Hnext : ∀ lastError', lastError' ≠ Some UserAbort → lastError' ≠ Some DOMAborted →
      ∃ k, (k ≤ length (fn s targetUrl :: proxyUrls body targetUrl rest))%nat ∧
        (rotate w body targetUrl rest (S n) (log ++ [fn s targetUrl]) lastError').2
        = log ++ take k (fn s targetUrl :: proxyUrls body targetUrl rest) ∧
        match (rotate w body targetUrl rest (S n) (log ++ [fn s targetUrl]) lastError').1 with
        | Returns r =>
            (0 < k)%nat ∧ proxyRefused r = false ∧
            ∃ url, (fn s targetUrl :: proxyUrls body targetUrl rest) !! (k - 1)%nat = Some url
                   ∧ fetch w (n + k - 1)%nat url = Responds r
        | Throws UserAbort | Throws DOMAborted => aborted w (n + k)%nat = true
        | Throws _ => k = length (fn s targetUrl :: proxyUrls body targetUrl rest)
        end).
    { intros lastError' Hu' Hd'.
      destruct (IH (S n) (log ++ [fn s targetUrl]) lastError' Hu' Hd') as (k & Hk & Hlog & Hres).
      exists (S k). cbn [length take]. split; [lia|].
      split; [by rewrite Hlog, <- app_assoc|].
      destruct (rotate w body targetUrl rest (S n) (log ++ [fn s targetUrl]) lastError').1
        as [r|[]]; cbn [fst] in Hres |- *.
      - destruct Hres as (Hpos & Href & url & Hurl & Hfetch).
        split; [lia|]. split; [done|]. exists url. split.
        + replace (S k - 1)%nat with (S (k - 1)) by lia. exact Hurl.
        + rewrite <- Hfetch. f_equal. lia.
      - rewrite <- Hres. f_equal. lia.
      - rewrite <- Hres. f_equal. lia.
      - lia.
      - lia.
      - lia. }
    assert (Hone : ∀ o, (match o with
                         | Returns r => True
                         | Throws UserAbort => aborted w (n + 1)%nat = true
                         | Throws DOMAborted => False
                         | Throws _ => False
                         end) →
      (∀ r, o = Returns r → proxyRefused r = false ∧ fetch w n (fn s targetUrl) = Responds r) →
      ∃ k, (k ≤ length (fn s targetUrl :: proxyUrls body targetUrl rest))%nat ∧
        (o, log ++ [fn s targetUrl]).2
        = log ++ take k (fn s targetUrl :: proxyUrls body targetUrl rest) ∧
        match (o, log ++ [fn s targetUrl]).1 with
        | Returns r =>
            (0 < k)%nat ∧ proxyRefused r = false ∧
            ∃ url, (fn s targetUrl :: proxyUrls body targetUrl rest) !! (k - 1)%nat = Some url
                   ∧ fetch w (n + k - 1)%nat url = Responds r
        | Throws UserAbort | Throws DOMAborted => aborted w (n + k)%nat = true
        | Throws _ => k = length (fn s targetUrl :: proxyUrls body targetUrl rest)
        end).
    { intros o Ho Hr. exists 1%nat. cbn [length take fst snd]. split; [lia|]. split; [done|].
      destruct o as [r|[]]; try done.
      destruct (Hr r eq_refl) as [Href Hfetch]. split; [lia|]. split; [done|].
      exists (fn s targetUrl). split; [done|]. rewrite <- Hfetch. f_equal. lia. }
    destruct (fetch w n (fn s targetUrl)) as [r|[| |message]] eqn:Hfetch.
    + destruct (proxyRefused r) eqn:Href; [by apply Hnext|].
      apply Hone; [done|]. by intros r' [= <-].
    + by apply Hnext.
    + destruct (aborted w (S n)) eqn:Hab'; [|by apply Hnext].
      apply Hone; [|done]. by rewrite Nat.add_1_r.
    + by apply Hnext.
Qed.

(** X30: [fetchWithSmartProxy] asks the target directly first and then
    the proxies in the order of [PROXY_STRATEGIES], each at most once and,
    for a POST or PUT, only those that support a body: at most four
    requests, three with a body.  A response it returns is the answer to
    its last request, with a status other than 0 when that was the direct
    one and not a refusal of the proxy otherwise.  It throws an abort only
    while the caller's signal is aborted, and any other error only when
    every usable proxy was tried. *)
Theorem fetchWithSmartProxy_tries_each_route_once w targetUrl method :
  let r := fetchWithSmartProxy encodeURIComponent w targetUrl method in
  let routes := proxyUrls (isBodyRequest method) targetUrl (PROXY_STRATEGIES encodeURIComponent) in
  (length routes = if isBodyRequest method then 2%nat else 3%nat) ∧
  ∃ k, (k ≤ length routes)%nat ∧ r.2 = targetUrl :: take k routes ∧
    match r.1 with
    | Returns res =>
        (∃ url, last r.2 = Some url ∧ fetch w k url = Responds res) ∧
        if decide (k = 0%nat) then status res ≠ 0 else proxyRefused res = false
    | Throws UserAbort | Throws DOMAborted => aborted w (S k) = true
    | Throws _ => k = length routes
    end.
Proof.
  cbv zeta. split; [by destruct (isBodyRequest method)|].
  set (routes := proxyUrls _ _ _). unfold fetchWithSmartProxy. cbv zeta.
  destruct (rotate_log w (isBodyRequest method) targetUrl (PROXY_STRATEGIES encodeURIComponent)
              1 [targetUrl] None) as (k & Hk & Hlog & Hres); [done|done|].
  fold routes in Hk, Hlog, Hres.
  assert (Hproxies :
    ∃ k, (k ≤ length routes)%nat ∧
      (rotate w (isBodyRequest method) targetUrl (PROXY_STRATEGIES encodeURIComponent) 1
         [targetUrl] None).2 = targetUrl :: take k routes ∧
      match (rotate w (isBodyRequest method) targetUrl (PROXY_STRATEGIES encodeURIComponent) 1
               [targetUrl] None).1 with
      | Returns res =>
          (∃ url, last (rotate w (isBodyRequest method) targetUrl
                          (PROXY_STRATEGIES encodeURIComponent) 1 [targetUrl] None).2 = Some url
                  ∧ fetch w k url = Responds res) ∧
          if decide (k = 0%nat) then status res ≠ 0 else proxyRefused res = false
      | Throws UserAbort | Throws DOMAborted => aborted w (S k) = true
      | Throws _ => k = length routes
      end).
  { exists k. split; [done|]. split; [done|].
    destruct (rotate w (isBodyRequest method) targetUrl (PROXY_STRATEGIES encodeURIComponent) 1
                [targetUrl] None) as [[res|e] log]; cbn [fst snd] in *.
    - destruct Hres as (Hpos & Href & url & Hurl & Hfetch). split.
      + exists url. split.
        * rewrite Hlog. change (targetUrl :: take k routes) with ([targetUrl] ++ take k routes).
          rewrite last_app. rewrite last_lookup, length_take, Nat.min_l by done.
          replace (Nat.pred k) with (k - 1)%nat by lia.
          rewrite lookup_take_lt by lia. by rewrite Hurl.
        * rewrite <- Hfetch. f_equal. lia.
      + by rewrite decide_False by lia.
    - by destruct e. }
  destruct (fetch w 0 targetUrl) as [res|[| |message]] eqn:Hdirect; try done.
  - destruct (status res =? 0) eqn:Hzero; [done|].
    exists 0%nat. cbn [fst snd take]. split; [lia|]. split; [done|]. split; [eauto|].
    rewrite decide_True by done. by apply Z.eqb_neq.
  - destruct (aborted w 1) eqn:Hab; [|done].
    exists 0%nat. cbn [fst snd take]. split; [lia|]. done.
Qed.

End Proxy_rotation.

Section Proxy_example.
Import SmartProxy.

(** One call may post more than once: a 429 that comes back through a proxy
    route is dropped, whatever its message, and the request is posted again
    through the next route.  The caller sees the 200 only. *)
Example proxied_429_is_posted_again :
  fetchWithSmartProxy id quotaBehindProxy "https://g/publish" (Some "POST")
  = (Returns {| status := 200; ok := true; text := "{}"; originalStatus := false |},
     ["https://g/publish"; "https://corsproxy.io/?https://g/publish";
      "https://api.codetabs.com/v1/proxy?quest=https://g/publish"]).
Proof. vm_compute. reflexivity. Qed.

End Proxy_example.
